(** * redis-migrate: the migration engine

    A shallow embedding of the Go packages [redis_migrate] (destination.go),
    [migrate] (source.go, copy.go) and [leveldb] (leveldb.go) and of the key
    type and the key iterator of [redis] (redis.go), with the properties of
    the copy engine, the key filter, the key-value source adapter and the
    prefixing destination.

    Conventions.
    - A Go [error] is [option string]: [None] is [nil], [Some m] an error
      whose [Error()] text is [m].
    - A Go interface is a type class over the type of the object's state; a
      method that may change the object returns the new state with its
      results.  Methods are named after the interface ([iterNext], [dstSet],
      [recError], ...) since Go reuses [Next], [Close], [Error] and [Set]
      across interfaces; the methods of a concrete type keep the Go name,
      receiver first ([keyValueIterator_Next]).
    - [SourceKey] values carry their dynamic type, as Go interface values do,
      so that the type assertion of the adapter's accessors can be written.
    - [regexp] and [fmt.Sprint] are libraries outside the repository: they
      are parameters. *)

From Stdlib Require Import List String Ascii Strings.Byte Bool Arith NArith Lia.
From Stdlib Require Import Floats.PrimFloat.
Import ListNotations.
Local Open Scope string_scope.

Set Implicit Arguments.

(* ================================================================= *)
(** * Basic types *)

Definition bytes := list byte.
Definition error := option string.
Definition float64 := PrimFloat.float.

Definition is_nil (err : error) : bool :=
  match err with None => true | Some _ => false end.

(** [migrate/source.go]: [type SourceKeyType string] and its constants. *)
Definition SourceKeyType := string.

Definition SourceKeyTypeSkip   : SourceKeyType := "".
Definition SourceKeyTypeString : SourceKeyType := "string".
Definition SourceKeyTypeHash   : SourceKeyType := "hash".
Definition SourceKeyTypeList   : SourceKeyType := "list".
Definition SourceKeyTypeSet    : SourceKeyType := "set".
Definition SourceKeyTypeZSet   : SourceKeyType := "zset".

Record SourceHashItem := mkHashItem {
  hi_Key   : string;
  hi_Value : bytes
}.

Record SourceZSetMember := mkZSetMember {
  zm_Key   : string;
  zm_Score : float64
}.

Record KeyValueItem := mkItem {
  kv_Key  : string;
  kv_Type : SourceKeyType;
  StringValue : bytes;
  HashField : string;
  HashFieldValue : bytes;
  ListItem : string;
  SetMember : string;
  ZSetMember : string;
  ZSetScore : float64
}.

(** The zero value of [KeyValueItem], what a failed type assertion leaves. *)
Definition zeroItem : KeyValueItem :=
  mkItem "" "" [] "" [] "" "" "" 0%float.

(* ================================================================= *)
(** * Library parameters *)

(** Go's [regexp] package: [regexp.Compile] and the [MatchString] method of a compiled pattern. *)
Class RegexpLib := {
  Regexp : Type;
  Compile : string -> Regexp + string;
  MatchString : Regexp -> string -> bool
}.

(** The values passed in the variadic [kvs ...interface{}] of
    [CopyRecorder.Error]. *)
Inductive any : Type :=
| anyString (s : string)
| anyType (t : SourceKeyType)
| anyZSetMember (m : SourceZSetMember).

(** [fmt.Sprint] on those values. *)
Class FmtLib := {
  Sprint : any -> string
}.

(* ================================================================= *)
(** * destination.go *)

(** The [Destination] interface; [Copy] of package [migrate] writes through
    it. *)

Class Destination (D : Type) := {
  dstClose : D -> D * error;
  dstSet   : D -> string -> bytes -> D * error;
  dstHSet  : D -> string -> string -> bytes -> D * error;
  dstSAdd  : D -> string -> string -> D * error;
  dstZAdd  : D -> string -> string -> float64 -> D * error;
  dstLPush : D -> string -> string -> D * error
}.

Section PrefixedDestination.
Context {D : Type} {DST : Destination D}.

Record prefixedDestination := mkPrefixed {
  pd_s : D;
  pd_prefix : string
}.

Definition NewPrefixedDestination (prefix : string) (store : D)
  : option prefixedDestination * error :=
  if prefix =? "" then (None, Some "invalid store prefix")
  else (Some (mkPrefixed store prefix), None).

Definition prefixedKey (ps : prefixedDestination) (k : string) : string :=
  pd_prefix ps ++ k.

(** Each method calls the inner destination and keeps its new state in the
    [s] field. *)
Definition forward (ps : prefixedDestination) (r : D * error)
  : prefixedDestination * error :=
  (mkPrefixed (fst r) (pd_prefix ps), snd r).

Definition prefixedDestination_Close (ps : prefixedDestination) :=
  forward ps (dstClose (pd_s ps)).

Definition prefixedDestination_Set (ps : prefixedDestination) (k : string) (v : bytes) :=
  forward ps (dstSet (pd_s ps) (prefixedKey ps k) v).

Definition prefixedDestination_HSet (ps : prefixedDestination) (h k : string) (v : bytes) :=
  forward ps (dstHSet (pd_s ps) (prefixedKey ps h) k v).

Definition prefixedDestination_SAdd (ps : prefixedDestination) (s k : string) :=
  forward ps (dstSAdd (pd_s ps) (prefixedKey ps s) k).

Definition prefixedDestination_ZAdd (ps : prefixedDestination) (z k : string) (s : float64) :=
  forward ps (dstZAdd (pd_s ps) (prefixedKey ps z) k s).

Definition prefixedDestination_LPush (ps : prefixedDestination) (l k : string) :=
  forward ps (dstLPush (pd_s ps) (prefixedKey ps l) k).

#[export] Instance prefixedDestination_Destination : Destination prefixedDestination := {
  dstClose := prefixedDestination_Close;
  dstSet   := prefixedDestination_Set;
  dstHSet  := prefixedDestination_HSet;
  dstSAdd  := prefixedDestination_SAdd;
  dstZAdd  := prefixedDestination_ZAdd;
  dstLPush := prefixedDestination_LPush
}.
End PrefixedDestination.

Arguments prefixedDestination D : clear implicits.

(* ================================================================= *)
(** * migrate/source.go: keys *)

Section Keys.
Context {RE : RegexpLib}.

(** The compiled pattern fields of [keyPatternSource]; a filtered key reads
    them through its pointer [s], and nothing writes them after
    construction. *)
Record keyPatterns := mkPatterns {
  includes : list Regexp;
  excludes : list Regexp
}.

(** The implementations of the [SourceKey] interface in the repository.
    [serverSourceKey] (redis/redis.go) asks the server for the type of the
    key: [typeReply] is what [client.Type(key).Result()] answers. *)
Inductive SourceKey : Type :=
| keyValueSourceKey (item : KeyValueItem)
| serverSourceKey (key : string) (typeReply : string * error)
| keyPatternFilteredKey (k : SourceKey) (s : keyPatterns).

(** [for _, r := range rs { if r.MatchString(key) { return ... } }]:
    [true] when the loop body returns. *)
Fixpoint rangeMatch (rs : list Regexp) (key : string) : bool :=
  match rs with
  | [] => false
  | r :: rs' => if MatchString r key then true else rangeMatch rs' key
  end.

(** redis/redis.go, [serverSourceKey.Type]. *)
Definition serverSourceKey_Type (key : string) (typeReply : string * error)
  : SourceKeyType * error :=
  let '(typ, err) := typeReply in
  if negb (is_nil err) then ("", err)
  else if typ =? "string" then (SourceKeyTypeString, None)
  else if typ =? "list" then (SourceKeyTypeList, None)
  else if typ =? "hash" then (SourceKeyTypeHash, None)
  else if typ =? "set" then (SourceKeyTypeSet, None)
  else if typ =? "zset" then (SourceKeyTypeZSet, None)
  else ("", Some ("unsupported key type " ++ key ++ ", " ++ typ)).

(** [keyPatternFilteredKey.Type], given the result [inner] of
    [k.SourceKey.Type()] and [key], the result of [k.Key()]. *)
Definition keyPatternFilteredKey_Type
    (inner : SourceKeyType * error) (key : string) (s : keyPatterns)
  : SourceKeyType * error :=
  let '(t, err) := inner in
  if negb (is_nil err) || (t =? SourceKeyTypeSkip) then (t, err)
  else if (0 <? List.length (excludes s))%nat && rangeMatch (excludes s) key
  then (SourceKeyTypeSkip, None)
  else if (0 <? List.length (includes s))%nat then
    if rangeMatch (includes s) key then (t, None)
    else (SourceKeyTypeSkip, None)
  else (t, None).

(** [SourceKey.Key]; the filtered key promotes the method of the key it
    embeds. *)
Fixpoint Key (k : SourceKey) : string :=
  match k with
  | keyValueSourceKey item => kv_Key item
  | serverSourceKey key _ => key
  | keyPatternFilteredKey k' _ => Key k'
  end.

(** [SourceKey.Type]. *)
Fixpoint Type_ (k : SourceKey) : SourceKeyType * error :=
  match k with
  | keyValueSourceKey item => (kv_Type item, None)
  | serverSourceKey key reply => serverSourceKey_Type key reply
  | keyPatternFilteredKey k' s =>
      keyPatternFilteredKey_Type (Type_ k') (Key k') s
  end.

(* --------------------------------------------------------------- *)
(** ** Interfaces *)

Class SourceKeyIterator (I : Type) := {
  iterError : I -> error;
  iterNext  : I -> I * (option SourceKey * error);
  iterClose : I -> I * error
}.

Class Source (S I : Type) := {
  srcClose : S -> S * error;
  Iterator : S -> I;
  Get      : S -> SourceKey -> bytes * error;
  HItems   : S -> SourceKey -> list SourceHashItem * error;
  LItems   : S -> SourceKey -> list string * error;
  SMembers : S -> SourceKey -> list string * error;
  ZMembers : S -> SourceKey -> list SourceZSetMember * error
}.

Class KeyValueIterator (T : Type) := {
  kvNext  : T -> T * (string * bytes * error);
  kvClose : T -> T * error
}.

Class KeyValueDB (DB T : Type) := {
  dbClose : DB -> DB * error;
  dbIterator : DB -> T
}.

(** [SourceKeyParser]: its one method, [Parse]. *)
Definition SourceKeyParser := string -> bytes -> KeyValueItem * error.

(* --------------------------------------------------------------- *)
(** ** The key filter decorator *)

Section KeyPattern.
Context {S I : Type} {ITER : SourceKeyIterator I} {SRC : Source S I}.

Record keyPatternSource := mkKeyPatternSource {
  kps_patterns : keyPatterns;
  kps_Source : S
}.

Record keyPatternIterator := mkKeyPatternIterator {
  kpi_SourceKeyIterator : I;
  kpi_s : keyPatterns
}.

Definition keyPatternIterator_Next (k : keyPatternIterator)
  : keyPatternIterator * (option SourceKey * error) :=
  let '(it, (key, err)) := iterNext (kpi_SourceKeyIterator k) in
  let k' := mkKeyPatternIterator it (kpi_s k) in
  match key with
  | Some key' =>
      if negb (is_nil err) then (k', (key, err))
      else (k', (Some (keyPatternFilteredKey key' (kpi_s k)), None))
  | None => (k', (key, err))
  end.

(** [Error] and [Close] are promoted from the embedded iterator. *)
Definition keyPatternIterator_Error (k : keyPatternIterator) : error :=
  iterError (kpi_SourceKeyIterator k).

Definition keyPatternIterator_Close (k : keyPatternIterator)
  : keyPatternIterator * error :=
  let '(it, err) := iterClose (kpi_SourceKeyIterator k) in
  (mkKeyPatternIterator it (kpi_s k), err).

#[export] Instance keyPatternIterator_SourceKeyIterator
  : SourceKeyIterator keyPatternIterator := {
  iterError := keyPatternIterator_Error;
  iterNext  := keyPatternIterator_Next;
  iterClose := keyPatternIterator_Close
}.

(** The closure [parseRegexps] of [NewKeyPatternSource]: [rs] is the
    slice built so far. *)
Fixpoint parseRegexps_range (rs : list Regexp) (regexps : list string)
  : list Regexp + string :=
  match regexps with
  | [] => inl rs
  | s :: rest =>
      match Compile s with
      | inr err => inr err
      | inl r => parseRegexps_range (rs ++ [r]) rest
      end
  end.

Definition parseRegexps (regexps : list string) : list Regexp + string :=
  parseRegexps_range [] regexps.

(** The [Source] returned is the given one ([inl]) or the decorator
    ([inr]); [None] is the nil interface. *)
Definition NewKeyPatternSource (source : S) (incl excl : list string)
  : option (S + keyPatternSource) * error :=
  if (List.length incl =? 0)%nat && (List.length excl =? 0)%nat
  then (Some (inl source), None)
  else
    match parseRegexps incl with
    | inr err => (None, Some err)
    | inl is_ =>
        match parseRegexps excl with
        | inr err => (None, Some err)
        | inl es => (Some (inr (mkKeyPatternSource (mkPatterns is_ es) source)), None)
        end
    end.

Definition keyPatternSource_Iterator (s : keyPatternSource) : keyPatternIterator :=
  mkKeyPatternIterator (Iterator (kps_Source s)) (kps_patterns s).

Definition keyPatternSource_Close (s : keyPatternSource) : keyPatternSource * error :=
  let '(src, err) := srcClose (kps_Source s) in
  (mkKeyPatternSource (kps_patterns s) src, err).

(** The accessors are promoted from the embedded [Source]: they receive
    the key as the caller passed it. *)
#[export] Instance keyPatternSource_Source : Source keyPatternSource keyPatternIterator := {
  srcClose := keyPatternSource_Close;
  Iterator := keyPatternSource_Iterator;
  Get      := fun s k => Get (kps_Source s) k;
  HItems   := fun s k => HItems (kps_Source s) k;
  LItems   := fun s k => LItems (kps_Source s) k;
  SMembers := fun s k => SMembers (kps_Source s) k;
  ZMembers := fun s k => ZMembers (kps_Source s) k
}.
End KeyPattern.

(* --------------------------------------------------------------- *)
(** ** The key-value source adapter *)

Section KeyValueSource.
Context {DB T : Type} {KVI : KeyValueIterator T} {KVDB : KeyValueDB DB T}.

Record keyValueSource := mkKeyValueSource {
  kvs_db : DB;
  kvs_parser : SourceKeyParser
}.

Definition NewKeyValueSource (db : DB) (parser : SourceKeyParser) : keyValueSource :=
  mkKeyValueSource db parser.

Definition keyValueSource_Close (s : keyValueSource) : keyValueSource * error :=
  let '(db, err) := dbClose (kvs_db s) in
  (mkKeyValueSource db (kvs_parser s), err).

Record keyValueIterator := mkKeyValueIterator {
  kvi_iter : T;
  kvi_parser : SourceKeyParser;
  kvi_err : error
}.

Definition keyValueIterator_Close (k : keyValueIterator) : keyValueIterator * error :=
  let '(it, err) := kvClose (kvi_iter k) in
  (mkKeyValueIterator it (kvi_parser k) (kvi_err k), err).

Definition keyValueIterator_Error (k : keyValueIterator) : error :=
  kvi_err k.

Definition keyValueIterator_Next (k : keyValueIterator)
  : keyValueIterator * (option SourceKey * error) :=
  if negb (is_nil (kvi_err k)) then (k, (None, None))
  else
    let '(it, (key, val, err)) := kvNext (kvi_iter k) in
    if negb (is_nil err)
    then (mkKeyValueIterator it (kvi_parser k) err, (None, None))
    else
      let k' := mkKeyValueIterator it (kvi_parser k) (kvi_err k) in
      if key =? "" then (k', (None, None))
      else
        let '(item, err) := kvi_parser k key val in
        if negb (is_nil err) then (k', (None, err))
        else (k', (Some (keyValueSourceKey item), None)).

#[export] Instance keyValueIterator_SourceKeyIterator
  : SourceKeyIterator keyValueIterator := {
  iterError := keyValueIterator_Error;
  iterNext  := keyValueIterator_Next;
  iterClose := keyValueIterator_Close
}.

Definition keyValueSource_Iterator (s : keyValueSource) : keyValueIterator :=
  let iter := dbIterator (kvs_db s) in
  mkKeyValueIterator iter (kvs_parser s) None.

(** [item, _ := k.(keyValueSourceKey)]: the item of the key when its
    dynamic type is [keyValueSourceKey], the zero value otherwise. *)
Definition assert_keyValueSourceKey (k : SourceKey) : KeyValueItem * bool :=
  match k with
  | keyValueSourceKey item => (item, true)
  | _ => (zeroItem, false)
  end.

Definition keyValueSource_Get (s : keyValueSource) (k : SourceKey) : bytes * error :=
  let '(item, _) := assert_keyValueSourceKey k in
  (StringValue item, None).

Definition keyValueSource_HItems (s : keyValueSource) (k : SourceKey)
  : list SourceHashItem * error :=
  let '(item, _) := assert_keyValueSourceKey k in
  ([mkHashItem (HashField item) (HashFieldValue item)], None).

Definition keyValueSource_LItems (s : keyValueSource) (k : SourceKey)
  : list string * error :=
  let '(item, _) := assert_keyValueSourceKey k in
  ([ListItem item], None).

Definition keyValueSource_SMembers (s : keyValueSource) (k : SourceKey)
  : list string * error :=
  let '(item, _) := assert_keyValueSourceKey k in
  ([SetMember item], None).

Definition keyValueSource_ZMembers (s : keyValueSource) (k : SourceKey)
  : list SourceZSetMember * error :=
  let '(item, _) := assert_keyValueSourceKey k in
  ([mkZSetMember (ZSetMember item) (ZSetScore item)], None).

#[export] Instance keyValueSource_Source : Source keyValueSource keyValueIterator := {
  srcClose := keyValueSource_Close;
  Iterator := keyValueSource_Iterator;
  Get      := keyValueSource_Get;
  HItems   := keyValueSource_HItems;
  LItems   := keyValueSource_LItems;
  SMembers := keyValueSource_SMembers;
  ZMembers := keyValueSource_ZMembers
}.
End KeyValueSource.
End Keys.

Arguments keyPatternSource {RE} S.
Arguments keyPatternIterator {RE} I.
Arguments keyValueSource : clear implicits.
Arguments keyValueIterator : clear implicits.

(* ================================================================= *)
(** * migrate/copy.go *)

(** How a call ends: it returns, it panics, or (for the model of a loop) the
    fuel given to it ran out before it returned. *)
Inductive outcome (A : Type) : Type :=
| Done (a : A)
| Panic (reason : string)
| OutOfFuel.

Arguments Done {A} a.
Arguments Panic {A} reason.
Arguments OutOfFuel {A}.

(** The Go runtime's message for a method call on a nil interface value. *)
Definition nilDereference : string :=
  "runtime error: invalid memory address or nil pointer dereference".

Class CopyRecorder (R : Type) := {
  recError  : R -> string -> error -> list any -> R * outcome unit;
  recFinish : R -> R * outcome unit;
  recKey    : R -> SourceKeyType -> string -> list string -> R * outcome unit
}.

Definition newline : string := String (ascii_of_nat 10) EmptyString.

Section StdCopyRecorder.
Context {FMT : FmtLib}.

(** [buf] is the buffer's content, [out] the text written to the
    [io.Writer] so far. *)
Record stdCopyRecorder := mkStd {
  buf : string;
  out : string
}.

Definition WriteString (c : stdCopyRecorder) (s : string) : stdCopyRecorder :=
  mkStd (buf c ++ s) (out c).

Definition Reset (c : stdCopyRecorder) : stdCopyRecorder :=
  mkStd "" (out c).

Definition flush (c : stdCopyRecorder) : stdCopyRecorder :=
  Reset (mkStd (buf c) (out c ++ buf c)).

(** [for i := 0; i+1 < len(kvs); i += 2 { ... }] *)
Fixpoint writePairs (c : stdCopyRecorder) (kvs : list any) : stdCopyRecorder :=
  match kvs with
  | k :: v :: rest =>
      let c := WriteString c ", " in
      let c := WriteString c (Sprint k) in
      let c := WriteString c ": " in
      let c := WriteString c (Sprint v) in
      writePairs c rest
  | _ => c
  end.

Definition stdCopyRecorder_Error (c : stdCopyRecorder)
    (message : string) (err : error) (kvs : list any)
  : stdCopyRecorder * outcome unit :=
  let c := Reset c in
  let c := WriteString c message in
  let c := WriteString c ": " in
  match err with
  | None => (c, Panic nilDereference)
  | Some text =>
      let c := WriteString c text in
      let c := writePairs c kvs in
      let c := WriteString c newline in
      (flush c, Done tt)
  end.

Definition stdCopyRecorder_Finish (c : stdCopyRecorder)
  : stdCopyRecorder * outcome unit :=
  let c := WriteString c ("copy finished." ++ newline) in
  (flush c, Done tt).

Definition stdCopyRecorder_Key (c : stdCopyRecorder)
    (typ : SourceKeyType) (key : string) (item : list string)
  : stdCopyRecorder * outcome unit :=
  let c :=
    match item with
    | [] => WriteString c ("start: " ++ typ ++ ": " ++ key ++ newline)
    | item0 :: _ =>
        WriteString c ("start: " ++ typ ++ ": " ++ key ++ "->" ++ item0 ++ newline)
    end in
  (flush c, Done tt).

#[export] Instance stdCopyRecorder_CopyRecorder : CopyRecorder stdCopyRecorder := {
  recError  := stdCopyRecorder_Error;
  recFinish := stdCopyRecorder_Finish;
  recKey    := stdCopyRecorder_Key
}.
End StdCopyRecorder.

Section CopyEngine.
Context {RE : RegexpLib}.
Context {Src It Dst Rec : Type}.
Context {ITER : SourceKeyIterator It} {SRC : Source Src It}.
Context {DST : Destination Dst} {REC : CopyRecorder Rec}.

(** The objects [Copy] works on: the iterator it opened, the destination
    and the recorder. *)
Record world := mkWorld {
  w_iter : It;
  w_dst : Dst;
  w_rec : Rec
}.

Definition M (A : Type) : Type := world -> world * outcome A.

Definition ret {A} (a : A) : M A := fun w => (w, Done a).

Definition bind {A B} (c : M A) (k : A -> M B) : M B :=
  fun w =>
    match c w with
    | (w', Done a) => k a w'
    | (w', Panic reason) => (w', Panic reason)
    | (w', OutOfFuel) => (w', OutOfFuel)
    end.

Notation "x <- c ;; k" := (bind c (fun x => k))
  (at level 61, c at next level, right associativity).
Notation "c ;; k" := (bind c (fun _ => k))
  (at level 61, right associativity).

(** [defer f; body]: [f] runs when [body] returns or panics; a panic of
    [body] goes on after [f], unless [f] panics itself. *)
Definition defer {A} (f : M unit) (body : M A) : M A :=
  fun w =>
    match body w with
    | (w', OutOfFuel) => (w', OutOfFuel)
    | (w', Done a) =>
        match f w' with
        | (w'', Done _) => (w'', Done a)
        | (w'', Panic reason) => (w'', Panic reason)
        | (w'', OutOfFuel) => (w'', OutOfFuel)
        end
    | (w', Panic reason) =>
        match f w' with
        | (w'', Done _) => (w'', Panic reason)
        | (w'', Panic reason') => (w'', Panic reason')
        | (w'', OutOfFuel) => (w'', OutOfFuel)
        end
    end.

(** [for _, x := range xs { body }] *)
Fixpoint range {A} (xs : list A) (body : A -> M unit) : M unit :=
  match xs with
  | [] => ret tt
  | x :: xs' => body x ;; range xs' body
  end.

(** Method calls on the three objects. *)
Definition iter_Next : M (option SourceKey * error) :=
  fun w => let '(it, r) := iterNext (w_iter w) in
           (mkWorld it (w_dst w) (w_rec w), Done r).

Definition iter_Error : M error :=
  fun w => (w, Done (iterError (w_iter w))).

Definition iter_Close : M error :=
  fun w => let '(it, err) := iterClose (w_iter w) in
           (mkWorld it (w_dst w) (w_rec w), Done err).

Definition on_dst (call : Dst -> Dst * error) : M error :=
  fun w => let '(d, err) := call (w_dst w) in
           (mkWorld (w_iter w) d (w_rec w), Done err).

Definition on_recorder (call : Rec -> Rec * outcome unit) : M unit :=
  fun w => let '(r, o) := call (w_rec w) in
           (mkWorld (w_iter w) (w_dst w) r, o).

Definition recorder_Error (message : string) (err : error) (kvs : list any) : M unit :=
  on_recorder (fun r => recError r message err kvs).
Definition recorder_Finish : M unit :=
  on_recorder recFinish.
Definition recorder_Key (typ : SourceKeyType) (key : string) (item : list string) : M unit :=
  on_recorder (fun r => recKey r typ key item).

Definition dst_Set (k : string) (v : bytes) : M error :=
  on_dst (fun d => dstSet d k v).
Definition dst_HSet (h k : string) (v : bytes) : M error :=
  on_dst (fun d => dstHSet d h k v).
Definition dst_LPush (l k : string) : M error :=
  on_dst (fun d => dstLPush d l k).
Definition dst_SAdd (s k : string) : M error :=
  on_dst (fun d => dstSAdd d s k).
Definition dst_ZAdd (z k : string) (s : float64) : M error :=
  on_dst (fun d => dstZAdd d z k s).

(** [if err != nil { recorder.Error(message, err, kvs...) }] *)
Definition report (err : error) (message : string) (kvs : list any) : M unit :=
  if negb (is_nil err) then recorder_Error message err kvs else ret tt.

(** The body of the loop of [Copy] from [key.Type()] on (copy.go, lines
    85 to 158), for a key that [iter.Next()] returned. *)
Definition Copy_key (src : Src) (key : SourceKey) : M unit :=
  let '(typ, err) := Type_ key in
  let tk := [anyString "type"; anyType typ; anyString "key"; anyString (Key key)] in
  if negb (is_nil err) then
    recorder_Error "retrieve key type failed" err [anyString "key"; anyString (Key key)]
  else if typ =? SourceKeyTypeSkip then ret tt
  else if typ =? SourceKeyTypeString then
    let '(val, err) := Get src key in
    if negb (is_nil err) then
      recorder_Error "get string key value failed" err tk
    else
      recorder_Key typ (Key key) [] ;;
      err <- dst_Set (Key key) val ;;
      report err "set string key value failed" tk
  else if typ =? SourceKeyTypeHash then
    let '(items, err) := HItems src key in
    if negb (is_nil err) then
      recorder_Error "get hash items failed" err tk
    else
      range items (fun kv =>
        recorder_Key typ (Key key) [hi_Key kv] ;;
        err <- dst_HSet (Key key) (hi_Key kv) (hi_Value kv) ;;
        report err "set hash item failed"
               (tk ++ [anyString "field"; anyString (hi_Key kv)]))
  else if typ =? SourceKeyTypeList then
    let '(items, err) := LItems src key in
    if negb (is_nil err) then
      recorder_Error "get list items failed" err tk
    else
      range items (fun item =>
        recorder_Key typ (Key key) [item] ;;
        err <- dst_LPush (Key key) item ;;
        report err "push list item failed"
               (tk ++ [anyString "item"; anyString item]))
  else if typ =? SourceKeyTypeSet then
    let '(members, err) := SMembers src key in
    if negb (is_nil err) then
      recorder_Error "get set members failed" err tk
    else
      range members (fun member =>
        recorder_Key typ (Key key) [member] ;;
        err <- dst_SAdd (Key key) member ;;
        report err "add set member failed"
               (tk ++ [anyString "member"; anyString member]))
  else if typ =? SourceKeyTypeZSet then
    let '(members, err) := ZMembers src key in
    if negb (is_nil err) then
      recorder_Error "get zset members failed" err tk
    else
      range members (fun member =>
        recorder_Key typ (Key key) [zm_Key member] ;;
        err <- dst_ZAdd (Key key) (zm_Key member) (zm_Score member) ;;
        report err "add zset member failed"
               (tk ++ [anyString "member"; anyZSetMember member]))
  else
    recorder_Error "unsupported key type" err tk.

(** The [for] loop of [Copy]; [fuel] bounds the number of iterations. *)
Fixpoint Copy_loop (fuel : nat) (src : Src) : M unit :=
  match fuel with
  | O => fun w => (w, OutOfFuel)
  | Datatypes.S fuel' =>
      r <- iter_Next ;;
      let '(key, err) := r in
      if negb (is_nil err) then
        recorder_Error "iterate next key failed" err [] ;;
        Copy_loop fuel' src
      else
        match key with
        | None => ret tt
        | Some key' => Copy_key src key' ;; Copy_loop fuel' src
        end
  end.

(** The deferred function of [Copy]. *)
Definition Copy_deferred : M unit :=
  err <- iter_Close ;;
  report err "close source iterator failed" [].

(** The statements of [Copy] after the [defer]. *)
Definition Copy_body (fuel : nat) (src : Src) : M unit :=
  Copy_loop fuel src ;;
  err <- iter_Error ;;
  report err "iterator errors" [] ;;
  recorder_Finish.

Definition Copy (fuel : nat) (src : Src) (dst : Dst) (recorder : Rec)
  : world * outcome unit :=
  let iter := Iterator src in
  defer Copy_deferred (Copy_body fuel src) (mkWorld iter dst recorder).
End CopyEngine.

Arguments world : clear implicits.

(* ================================================================= *)
(** * Observers and scripted collaborators

    The collaborators of the engine are interfaces.  To state what the
    engine calls, a destination and a recorder that keep the calls they
    receive, and a store that answers from a script. *)

Inductive DestinationCall : Type :=
| CallClose
| CallSet (k : string) (v : bytes)
| CallHSet (h k : string) (v : bytes)
| CallSAdd (s k : string)
| CallZAdd (z k : string) (s : float64)
| CallLPush (l k : string).

(** A destination that records each call; [rd_reply] decides, from the
    calls received before and the call made, the error it answers. *)
Record recordingDestination := mkRecording {
  rd_reply : list DestinationCall -> DestinationCall -> error;
  rd_calls : list DestinationCall
}.

Definition rd_receive (d : recordingDestination) (c : DestinationCall)
  : recordingDestination * error :=
  (mkRecording (rd_reply d) (rd_calls d ++ [c])%list, rd_reply d (rd_calls d) c).

#[export] Instance recordingDestination_Destination : Destination recordingDestination := {
  dstClose := fun d => rd_receive d CallClose;
  dstSet   := fun d k v => rd_receive d (CallSet k v);
  dstHSet  := fun d h k v => rd_receive d (CallHSet h k v);
  dstSAdd  := fun d s k => rd_receive d (CallSAdd s k);
  dstZAdd  := fun d z k s => rd_receive d (CallZAdd z k s);
  dstLPush := fun d l k => rd_receive d (CallLPush l k)
}.

(** The answers of a recording destination to the calls [cs] made in a row
    after the calls [h]. *)
Fixpoint repliesTo (reply : list DestinationCall -> DestinationCall -> error)
    (h cs : list DestinationCall) : list error :=
  match cs with
  | [] => []
  | c :: cs' => reply h c :: repliesTo reply (h ++ [c])%list cs'
  end.

(** The calls [calls], made in a row on the destination as it stands, are
    each answered without an error.  What the destination would answer to
    other calls, or to these calls after another history, is left open. *)
Definition writesSucceed (d : recordingDestination) (calls : list DestinationCall)
  : Prop :=
  Forall (fun err : error => err = None)
         (repliesTo (rd_reply d) (rd_calls d) calls).

(** A destination whose writes all succeed. *)
Definition accepting : list DestinationCall -> DestinationCall -> error :=
  fun _ _ => None.

(** A destination that takes [n] calls and answers an error to every call
    after them. *)
Definition limited (n : nat) : list DestinationCall -> DestinationCall -> error :=
  fun h _ => if (List.length h <? n)%nat then None else Some "quota exceeded".

Inductive RecorderCall : Type :=
| OnError (message : string) (err : error) (kvs : list any)
| OnFinish
| OnKey (typ : SourceKeyType) (key : string) (item : list string).

(** A recorder that keeps the calls it receives, oldest first. *)
Definition recordingRecorder := list RecorderCall.

#[export] Instance recordingRecorder_CopyRecorder : CopyRecorder recordingRecorder := {
  recError  := fun r message err kvs => ((r ++ [OnError message err kvs])%list, Done tt);
  recFinish := fun r => ((r ++ [OnFinish])%list, Done tt);
  recKey    := fun r typ key item => ((r ++ [OnKey typ key item])%list, Done tt)
}.

(** A store iterator that answers its [Next] calls from [si_rows], then
    signals the end with an empty key; [si_reads] counts the [Next] calls. *)
Record scriptedIterator := mkScripted {
  si_rows : list (string * bytes * error);
  si_closeErr : error;
  si_reads : nat
}.

Definition scriptedIterator_Next (s : scriptedIterator)
  : scriptedIterator * (string * bytes * error) :=
  match si_rows s with
  | [] => (mkScripted [] (si_closeErr s) (Datatypes.S (si_reads s)), ("", [], None))
  | row :: rest => (mkScripted rest (si_closeErr s) (Datatypes.S (si_reads s)), row)
  end.

#[export] Instance scriptedIterator_KeyValueIterator : KeyValueIterator scriptedIterator := {
  kvNext  := scriptedIterator_Next;
  kvClose := fun s => (s, si_closeErr s)
}.

(** A database whose iterator is a scripted one. *)
Record scriptedDB := mkScriptedDB {
  sdb_rows : list (string * bytes * error);
  sdb_iterCloseErr : error
}.

#[export] Instance scriptedDB_KeyValueDB : KeyValueDB scriptedDB scriptedIterator := {
  dbClose := fun db => (db, None);
  dbIterator := fun db => mkScripted (sdb_rows db) (sdb_iterCloseErr db) 0
}.

(** A row the store reads without error. *)
Definition row (key value : string) : string * bytes * error :=
  (key, list_byte_of_string value, None).

(** An instance of the regexp parameter for the examples.  It covers two
    forms of Go's syntax: a word [w] of letters, digits, [:] and [_], which
    matches the keys that contain [w], and [^w$], which matches the key [w]
    alone.  Every other string is refused; the examples use ["("], which
    Go's [regexp.Compile] refuses too, as their invalid pattern. *)
Inductive wordPattern : Type :=
| Containing (w : string)
| Exactly (w : string).

Definition isWordChar (c : ascii) : bool :=
  let n := nat_of_ascii c in
  ((48 <=? n) && (n <=? 58) || (65 <=? n) && (n <=? 90) ||
   (97 <=? n) && (n <=? 122) || (n =? 95))%nat.

Fixpoint isWord (s : string) : bool :=
  match s with
  | EmptyString => true
  | String c s' => isWordChar c && isWord s'
  end.

Fixpoint contains (w s : string) : bool :=
  prefix w s ||
  match s with
  | EmptyString => false
  | String _ s' => contains w s'
  end.

Definition wordPattern_Compile (s : string) : wordPattern + string :=
  if isWord s then inl (Containing s)
  else
    let n := String.length s in
    let w := substring 1 (n - 2) s in
    if (2 <=? n)%nat && (substring 0 1 s =? "^") &&
       (substring (n - 1) 1 s =? "$") && isWord w
    then inl (Exactly w)
    else inr ("error parsing regexp: " ++ s).

Definition wordPattern_MatchString (r : wordPattern) (key : string) : bool :=
  match r with
  | Containing w => contains w key
  | Exactly w => key =? w
  end.

Definition wordRegexp : RegexpLib := {|
  Regexp := wordPattern;
  Compile := wordPattern_Compile;
  MatchString := wordPattern_MatchString
|}.

(** An instance of the [fmt.Sprint] parameter for the examples: a string
    prints as itself; of a sorted-set member only the key is printed, the
    decimal form of the score is left out. *)
Definition keysOnlyFmt : FmtLib := {|
  Sprint := fun a =>
    match a with
    | anyString s => s
    | anyType t => t
    | anyZSetMember m => "{" ++ zm_Key m ++ "}"
    end
|}.

(* ================================================================= *)
(** * Specification-side definitions *)

Section SpecDefinitions.
Context {RE : RegexpLib}.

(** The decision of the key filter as the specification words it, from
    the result [inner] of the underlying type resolution. *)
Definition filterDecision (inner : SourceKeyType * error) (key : string)
    (s : keyPatterns) : SourceKeyType * error :=
  match snd inner with
  | Some _ => inner
  | None =>
      if fst inner =? SourceKeyTypeSkip then inner
      else if existsb (fun e => MatchString e key) (excludes s)
      then (SourceKeyTypeSkip, None)
      else
        match includes s with
        | [] => (fst inner, None)
        | _ :: _ =>
            if existsb (fun i => MatchString i key) (includes s)
            then (fst inner, None)
            else (SourceKeyTypeSkip, None)
        end
  end.

(** A pattern string that [regexp.Compile] refuses. *)
Definition invalidPattern (s : string) : Prop :=
  exists err, Compile s = inr err.

Section ForASource.
Context {Src It : Type} {ITER : SourceKeyIterator It} {SRC : Source Src It}.

(** The items fetched for a key of a recognized type other than Skip,
    when the fetch succeeds: each with the sub-item named to the
    recorder and the write the specification expects for it. *)
Definition fetchedWrites (src : Src) (typ : SourceKeyType) (key : SourceKey)
  : option (list (list string * DestinationCall)) :=
  if typ =? SourceKeyTypeString then
    match Get src key with
    | (val, None) => Some [([], CallSet (Key key) val)]
    | (_, Some _) => None
    end
  else if typ =? SourceKeyTypeHash then
    match HItems src key with
    | (items, None) =>
        Some (map (fun kv => ([hi_Key kv],
                              CallHSet (Key key) (hi_Key kv) (hi_Value kv))) items)
    | (_, Some _) => None
    end
  else if typ =? SourceKeyTypeList then
    match LItems src key with
    | (items, None) =>
        Some (map (fun item => ([item], CallLPush (Key key) item)) items)
    | (_, Some _) => None
    end
  else if typ =? SourceKeyTypeSet then
    match SMembers src key with
    | (members, None) =>
        Some (map (fun member => ([member], CallSAdd (Key key) member)) members)
    | (_, Some _) => None
    end
  else if typ =? SourceKeyTypeZSet then
    match ZMembers src key with
    | (members, None) =>
        Some (map (fun m => ([zm_Key m],
                             CallZAdd (Key key) (zm_Key m) (zm_Score m))) members)
    | (_, Some _) => None
    end
  else None.

(** Whether the iterator signals its end (no key, no error) within
    [n + 1] calls of [Next]. *)
Fixpoint exhaustsWithin (n : nat) (it : It) : bool :=
  let '(it', (key, err)) := iterNext it in
  match key, err with
  | None, None => true
  | _, _ =>
      match n with
      | O => false
      | Datatypes.S n' => exhaustsWithin n' it'
      end
  end.
End ForASource.
End SpecDefinitions.

(** The six constants of [SourceKeyType]. *)
Definition definedTypes : list SourceKeyType :=
  [SourceKeyTypeSkip; SourceKeyTypeString; SourceKeyTypeHash;
   SourceKeyTypeList; SourceKeyTypeSet; SourceKeyTypeZSet].

Section RecordedRuns.
Context {RE : RegexpLib}.
Context {It Dst : Type}.

(** A computation of the engine that returns, leaves the iterator as it is
    and makes recorder calls among which there is no [Finish]. *)
Definition steady {A : Type} (c : M (It := It) (Dst := Dst) (Rec := recordingRecorder) A)
  : Prop :=
  forall w, exists d l a,
    c w = (mkWorld (w_iter w) d (w_rec w ++ l)%list, Done a) /\ ~ In OnFinish l.

(** What the deferred function of [Copy] reports when [Close] answers [err]. *)
Definition closeReport (err : error) : list RecorderCall :=
  match err with
  | None => []
  | Some _ => [OnError "close source iterator failed" err []]
  end.
End RecordedRuns.

(* ================================================================= *)
(** * Sources for the examples *)

(** Items as a parser builds them: the type and the one field of it. *)
Definition stringItem (key : string) (val : bytes) : KeyValueItem :=
  mkItem key SourceKeyTypeString val "" [] "" "" "" 0%float.
Definition hashItem (key field : string) (val : bytes) : KeyValueItem :=
  mkItem key SourceKeyTypeHash [] field val "" "" "" 0%float.
Definition listItem (key item : string) : KeyValueItem :=
  mkItem key SourceKeyTypeList [] "" [] item "" "" 0%float.
Definition setItem (key member : string) : KeyValueItem :=
  mkItem key SourceKeyTypeSet [] "" [] "" member "" 0%float.
Definition zsetItem (key member : string) (score : float64) : KeyValueItem :=
  mkItem key SourceKeyTypeZSet [] "" [] "" "" member score.

(** A parser for the examples.  The key of a row names its shape: ["a"] is
    a string, ["b"] the field ["f"] of a hash, ["l"] a list item, ["s"] a
    set member, ["z"] a sorted-set member whose score is 1 for ["m1"] and 2
    otherwise, ["q"] a row of a type the engine does not know, ["k"] a row
    already marked Skip; any other row does not parse. *)
Definition exampleParser : SourceKeyParser :=
  fun key val =>
    let text := string_of_list_byte val in
    if key =? "a" then (stringItem key val, None)
    else if key =? "b" then (hashItem key "f" val, None)
    else if key =? "l" then (listItem key text, None)
    else if key =? "s" then (setItem key text, None)
    else if key =? "z" then
      (zsetItem key text (if text =? "m1" then 1%float else 2%float), None)
    else if key =? "q" then
      (mkItem key "stream" val "" [] "" "" "" 0%float, None)
    else if key =? "k" then
      (mkItem key SourceKeyTypeSkip val "" [] "" "" "" 0%float, None)
    else (zeroItem, Some ("cannot parse row " ++ key)).

(** The item that [exampleParser] builds for a row. *)
Definition exampleItem (key value : string) : KeyValueItem :=
  fst (exampleParser key (list_byte_of_string value)).

(** The adapter over a scripted database with the example parser. *)
Definition exampleSource (rows : list (string * bytes * error)) (closeErr : error)
  : keyValueSource scriptedDB :=
  NewKeyValueSource (mkScriptedDB rows closeErr) exampleParser.

(** A recording destination that accepts every write, before any call. *)
Definition freshDestination : recordingDestination := mkRecording accepting [].

(** The calls that a run of [Copy] left in a recording destination and a
    recording recorder. *)
Definition callsOf {It : Type}
    (run : world It recordingDestination recordingRecorder * outcome unit)
  : list DestinationCall * list RecorderCall :=
  (rd_calls (w_dst (fst run)), w_rec (fst run)).

(* ================================================================= *)
(** * redis/redis.go: the keys of the server source and their iterator

    The go-redis client is outside the repository.  A client is given by
    the replies of the server to the commands that the iterator sends; the
    server is taken not to change while it is read.

    The package is written against the interfaces of the root package,
    [SourceKey] and [SourceKeyIterator] among them, which have the methods of
    those of package migrate; the key type and the key iterator are embedded
    over these.  The accessors of the source, [Get] to [ZMembers], are not
    embedded: [Copy] of package migrate does not take this source, and
    [HItems] would need the order in which [range] visits a map. *)

(** The error of a reply: [redis.Nil], which the client answers for a
    missing key, or a failure with its text. *)
Inductive redisError : Type :=
| redisNil
| redisFailure (text : string).

(** The reply's error as an [error] value. *)
Definition replyError (err : option redisError) : error :=
  match err with
  | None => None
  | Some redisNil => Some "redis: nil"
  | Some (redisFailure text) => Some text
  end.

(** The replies to [Type(key)] and [Scan(cursor, "*", 1024)]. *)
Record redisClient := mkClient {
  cl_Type : string -> string * option redisError;
  cl_Scan : N -> list string * N * option redisError
}.

Section ServerSource.
Context {RE : RegexpLib}.

Record serverSource := mkServerSource {
  ss_client : redisClient
}.

Definition NewServerSource (client : redisClient) : option serverSource * error :=
  (Some (mkServerSource client), None).

(** [serverSourceKey{s: s, key: key}]: the key with the reply that its
    [Type] method will get from the client. *)
Definition newServerSourceKey (s : redisClient) (key : string) : SourceKey :=
  let '(typ, err) := cl_Type s key in
  serverSourceKey key (typ, replyError err).

Record serverKeyIterator := mkServerKeyIterator {
  ski_s : redisClient;
  ski_err : error;
  ski_cursor : N;
  ski_finished : bool;
  ski_keys : list SourceKey;
  ski_idx : nat
}.

Definition serverKeyIterator_fetch (ss : serverKeyIterator) : serverKeyIterator :=
  if negb (is_nil (ski_err ss)) then ss
  else
    let '(keys, cursor, err) := cl_Scan (ski_s ss) (ski_cursor ss) in
    if negb (is_nil (replyError err)) then
      mkServerKeyIterator (ski_s ss) (replyError err) (ski_cursor ss) true
                          (ski_keys ss) (ski_idx ss)
    else
      mkServerKeyIterator (ski_s ss) (ski_err ss) cursor
        ((cursor <=? 0)%N || (List.length keys =? 0)%nat)
        (map (fun key => newServerSourceKey (ski_s ss) key) keys)
        0.

Definition serverKeyIterator_Error (ss : serverKeyIterator) : error :=
  ski_err ss.

Definition serverKeyIterator_Next (ss : serverKeyIterator)
  : serverKeyIterator * (option SourceKey * error) :=
  let ss :=
    if negb (ski_finished ss) && (List.length (ski_keys ss) <=? ski_idx ss)%nat
    then serverKeyIterator_fetch ss else ss in
  if (List.length (ski_keys ss) <=? ski_idx ss)%nat then (ss, (None, None))
  else
    (mkServerKeyIterator (ski_s ss) (ski_err ss) (ski_cursor ss) (ski_finished ss)
                         (ski_keys ss) (Datatypes.S (ski_idx ss)),
     (nth_error (ski_keys ss) (ski_idx ss), None)).

Definition serverKeyIterator_Close (ss : serverKeyIterator)
  : serverKeyIterator * error :=
  (ss, None).

#[export] Instance serverKeyIterator_SourceKeyIterator
  : SourceKeyIterator serverKeyIterator | 10 := {
  iterError := serverKeyIterator_Error;
  iterNext  := serverKeyIterator_Next;
  iterClose := serverKeyIterator_Close
}.

Definition serverSource_Iterator (ss : serverSource) : serverKeyIterator :=
  mkServerKeyIterator (ss_client ss) None 0%N false [] 0.

End ServerSource.

(* ================================================================= *)
(** * leveldb/leveldb.go

    goleveldb's iterator is outside the repository: [ldbNext] moves it and
    tells whether it stands on an entry, [ldbKey] and [ldbValue] read the
    entry it stands on.  So is its database: [ldbNewIterator] is
    [NewIterator(nil, nil)]. *)

Class LevelIterator (L : Type) := {
  ldbNext : L -> L * bool;
  ldbKey : L -> bytes;
  ldbValue : L -> bytes;
  ldbRelease : L -> L
}.

Class LevelDatabase (H L : Type) := {
  ldbClose : H -> H * error;
  ldbNewIterator : H -> L
}.

Section LevelDB.
Context {L : Type} {LDB : LevelIterator L}.

Record levelDBIter := mkLevelDBIter {
  ldi_iter : L
}.

Definition levelDBIter_Next (l : levelDBIter)
  : levelDBIter * (string * bytes * error) :=
  let '(it, ok) := ldbNext (ldi_iter l) in
  if negb ok then (mkLevelDBIter it, ("", [], None))
  else (mkLevelDBIter it, (string_of_list_byte (ldbKey it), ldbValue it, None)).

Definition levelDBIter_Close (l : levelDBIter) : levelDBIter * error :=
  (mkLevelDBIter (ldbRelease (ldi_iter l)), None).

#[export] Instance levelDBIter_KeyValueIterator : KeyValueIterator levelDBIter | 10 := {
  kvNext  := levelDBIter_Next;
  kvClose := levelDBIter_Close
}.

Section Database.
Context {H : Type} {LDBH : LevelDatabase H L}.

Record levelDB := mkLevelDB {
  ldb_db : H
}.

Definition NewLevelDB (db : H) : option levelDB * error :=
  (Some (mkLevelDB db), None).

Definition levelDB_Close (l : levelDB) : levelDB * error :=
  let '(db, err) := ldbClose (ldb_db l) in
  (mkLevelDB db, err).

Definition levelDB_Iterator (l : levelDB) : levelDBIter :=
  mkLevelDBIter (ldbNewIterator (ldb_db l)).

#[export] Instance levelDB_KeyValueDB : KeyValueDB levelDB levelDBIter | 10 := {
  dbClose    := levelDB_Close;
  dbIterator := levelDB_Iterator
}.
End Database.
End LevelDB.

Arguments levelDBIter : clear implicits.
Arguments levelDB : clear implicits.

(** A goleveldb iterator over a list of entries: [snd] is the entry it
    stands on, [fst] the entries after it. *)
Definition entries := (list (bytes * bytes) * option (bytes * bytes))%type.

#[export] Instance entries_LevelIterator : LevelIterator entries := {
  ldbNext := fun l =>
    match fst l with
    | [] => (([], None), false)
    | e :: rest => ((rest, Some e), true)
    end;
  ldbKey := fun l => match snd l with Some e => fst e | None => [] end;
  ldbValue := fun l => match snd l with Some e => snd e | None => [] end;
  ldbRelease := fun l => ([], None)
}.

(** A goleveldb database holding a list of entries; a new iterator stands
    before the first of them. *)
Definition entriesDB := list (bytes * bytes).

#[export] Instance entriesDB_LevelDatabase : LevelDatabase entriesDB entries := {
  ldbClose := fun db => (db, None);
  ldbNewIterator := fun db => (db, None)
}.

(** The adapter over a LevelDB database with the example parser. *)
Definition exampleLevelSource (rows : list (string * string))
  : keyValueSource (levelDB entriesDB) :=
  NewKeyValueSource
    (mkLevelDB (H := entriesDB)
       (map (fun kv => (list_byte_of_string (fst kv), list_byte_of_string (snd kv))) rows))
    exampleParser.

(* ================================================================= *)
(** * Further specification-side definitions *)

Section FurtherDefinitions.
Context {RE : RegexpLib}.

(** A key of the server source, possibly under filters. *)
Fixpoint serverBased (k : SourceKey) : bool :=
  match k with
  | serverSourceKey _ _ => true
  | keyPatternFilteredKey k' _ => serverBased k'
  | keyValueSourceKey _ => false
  end.

(** The compile error of the first string of [regexps] that is not a valid
    pattern. *)
Fixpoint firstInvalid (regexps : list string) : error :=
  match regexps with
  | [] => None
  | s :: rest =>
      match Compile s with
      | inr err => Some err
      | inl _ => firstInvalid rest
      end
  end.

Section ForASource.
Context {Src It : Type} {ITER : SourceKeyIterator It} {SRC : Source Src It}.

(** The error of the accessor that [Copy] calls for a key of type [typ]. *)
Definition fetchError (src : Src) (typ : SourceKeyType) (key : SourceKey) : error :=
  if typ =? SourceKeyTypeString then snd (Get src key)
  else if typ =? SourceKeyTypeHash then snd (HItems src key)
  else if typ =? SourceKeyTypeList then snd (LItems src key)
  else if typ =? SourceKeyTypeSet then snd (SMembers src key)
  else if typ =? SourceKeyTypeZSet then snd (ZMembers src key)
  else None.
End ForASource.
End FurtherDefinitions.

(** The errors of the [Error] calls and the [Key] calls of a recorder log. *)
Definition errorsOf (l : list RecorderCall) : list error :=
  flat_map (fun c => match c with OnError _ err _ => [err] | _ => [] end) l.

Definition keysOf (l : list RecorderCall) : list RecorderCall :=
  filter (fun c => match c with OnKey _ _ _ => true | _ => false end) l.

Definition failures (errs : list error) : list error :=
  filter (fun err => negb (is_nil err)) errs.

(** An [Error] call that carries a nil error. *)
Definition nilReport (c : RecorderCall) : Prop :=
  match c with
  | OnError _ None _ => True
  | _ => False
  end.

(** A call with the prefix on its key. *)
Definition prefixCall (p : string) (c : DestinationCall) : DestinationCall :=
  match c with
  | CallClose => CallClose
  | CallSet k v => CallSet (p ++ k) v
  | CallHSet h k v => CallHSet (p ++ h) k v
  | CallSAdd s k => CallSAdd (p ++ s) k
  | CallZAdd z k s => CallZAdd (p ++ z) k s
  | CallLPush l k => CallLPush (p ++ l) k
  end.

Section Delivery.
Context {FMT : FmtLib}.

(** A recorded call made on the standard recorder. *)
Definition deliver (c : stdCopyRecorder) (call : RecorderCall)
  : stdCopyRecorder * outcome unit :=
  match call with
  | OnError message err kvs => stdCopyRecorder_Error c message err kvs
  | OnFinish => stdCopyRecorder_Finish c
  | OnKey typ key item => stdCopyRecorder_Key c typ key item
  end.

(** The recorded calls made in order on the standard recorder. *)
Definition replay (l : list RecorderCall) (c : stdCopyRecorder) : stdCopyRecorder :=
  fold_left (fun c call => fst (deliver c call)) l c.
End Delivery.

Section Emission.
Context {It Dst : Type}.

(** A computation of the engine, on a recording recorder, that returns,
    leaves the iterator as it is and makes recorder calls that all satisfy
    [P]. *)
Definition emits (P : RecorderCall -> Prop) {A : Type}
    (c : M (It := It) (Dst := Dst) (Rec := recordingRecorder) A) : Prop :=
  forall w, exists d l a,
    c w = (mkWorld (w_iter w) d (w_rec w ++ l)%list, Done a) /\ Forall P l.
End Emission.

Section WritesOnly.
Context {It Rec : Type}.

(** A computation of the engine, on a recording destination, that only adds
    calls to those the destination has received, none of them [Close]. *)
Definition writesOnly {A : Type}
    (c : M (It := It) (Dst := recordingDestination) (Rec := Rec) A) : Prop :=
  forall w, exists l,
    rd_calls (w_dst (fst (c w))) = (rd_calls (w_dst w) ++ l)%list /\
    rd_reply (w_dst (fst (c w))) = rd_reply (w_dst w) /\
    ~ In CallClose l.
End WritesOnly.

Section Draining.
Context {RE : RegexpLib} {It : Type} {ITER : SourceKeyIterator It}.

(** [n] calls of [Next] in a row: the iterator they leave and the keys they
    yielded, in order. *)
Fixpoint drain (n : nat) (it : It) : It * list SourceKey :=
  match n with
  | O => (it, [])
  | Datatypes.S n' =>
      let '(it', (key, _)) := iterNext it in
      let '(it'', keys) := drain n' it' in
      (it'', match key with Some k => k :: keys | None => keys end)
  end.
End Draining.

Section Reading.
Context {RE : RegexpLib} {It Dst Rec : Type} {ITER : SourceKeyIterator It}.

(** A computation of the engine that leaves the iterator as it is. *)
Definition still {A : Type}
    (c : M (It := It) (Dst := Dst) (Rec := Rec) A) : Prop :=
  forall w, w_iter (fst (c w)) = w_iter w.

(** A computation of the engine that leaves the iterator after at most [n]
    calls of [Next] and no other call that changes it. *)
Definition advances (n : nat) {A : Type}
    (c : M (It := It) (Dst := Dst) (Rec := Rec) A) : Prop :=
  forall w, exists k, k <= n /\ w_iter (fst (c w)) = fst (drain k (w_iter w)).
End Reading.

Section PrefixedRuns.
Context {It Rec : Type}.

(** The state of a run through the decorator with prefix [p] over a
    recording destination that answers by [reply], against the state of the
    same run on a recording destination that is asked with the prefix put
    on the keys. *)
Definition prefixedReply (p : string)
    (reply : list DestinationCall -> DestinationCall -> error)
  : list DestinationCall -> DestinationCall -> error :=
  fun h c => reply (map (prefixCall p) h) (prefixCall p c).

Definition throughPrefix (p : string)
    (reply : list DestinationCall -> DestinationCall -> error)
    (w1 : world It (prefixedDestination recordingDestination) Rec)
    (w2 : world It recordingDestination Rec) : Prop :=
  w_iter w1 = w_iter w2 /\
  w_rec w1 = w_rec w2 /\
  pd_prefix (w_dst w1) = p /\
  rd_reply (pd_s (w_dst w1)) = reply /\
  rd_reply (w_dst w2) = prefixedReply p reply /\
  rd_calls (pd_s (w_dst w1)) = map (prefixCall p) (rd_calls (w_dst w2)).

(** Two computations that keep the two states in step and end alike. *)
Definition inStep (p : string)
    (reply : list DestinationCall -> DestinationCall -> error) {A : Type}
    (c1 : M (It := It) (Dst := prefixedDestination recordingDestination) (Rec := Rec) A)
    (c2 : M (It := It) (Dst := recordingDestination) (Rec := Rec) A) : Prop :=
  forall w1 w2,
    throughPrefix p reply w1 w2 ->
    throughPrefix p reply (fst (c1 w1)) (fst (c2 w2)) /\
    snd (c1 w1) = snd (c2 w2).
End PrefixedRuns.

Section StandardRuns.
Context {FMT : FmtLib} {It Dst : Type}.

(** A computation on a recording recorder against the same computation on
    the standard recorder, from states with the same iterator and the same
    destination: the first returns the calls [l] it made, and when none of
    them carries a nil error the second ends alike, in the same state, its
    recorder having received [l]. *)
Definition mirrors {A : Type}
    (cl : M (It := It) (Dst := Dst) (Rec := recordingRecorder) A)
    (cs : M (It := It) (Dst := Dst) (Rec := stdCopyRecorder) A) : Prop :=
  forall wl ws,
    w_iter wl = w_iter ws ->
    w_dst wl = w_dst ws ->
    exists it d l o,
      cl wl = (mkWorld it d (w_rec wl ++ l)%list, o) /\
      (~ Exists nilReport l ->
       cs ws = (mkWorld it d (replay l (w_rec ws)), o)).
End StandardRuns.

Section AnyRecorder.
Context {Rec : Type} {REC : CopyRecorder Rec}.

(** A recorded call made on a recorder. *)
Definition deliverTo (r : Rec) (call : RecorderCall) : Rec * outcome unit :=
  match call with
  | OnError message err kvs => recError r message err kvs
  | OnFinish => recFinish r
  | OnKey typ key item => recKey r typ key item
  end.

(** The recorder after the recorded calls, made in order. *)
Definition replayOn (l : list RecorderCall) (r : Rec) : Rec :=
  fold_left (fun r call => fst (deliverTo r call)) l r.

(** Each of the calls [l], made in order on the recorder [r], returns:
    none of them panics. *)
Fixpoint allReturn (l : list RecorderCall) (r : Rec) : Prop :=
  match l with
  | [] => True
  | call :: l' =>
      snd (deliverTo r call) = Done tt /\ allReturn l' (fst (deliverTo r call))
  end.

Context {It Dst : Type}.

(** A computation on a recording recorder against the same computation on
    the recorder [Rec], from states with the same iterator and the same
    destination: the first returns the calls [l] it made, and when each of
    them returns on the second recorder the second computation ends alike,
    in the same state, its recorder having received [l]. *)
Definition follows {A : Type}
    (cl : M (It := It) (Dst := Dst) (Rec := recordingRecorder) A)
    (cg : M (It := It) (Dst := Dst) (Rec := Rec) A) : Prop :=
  forall wl wg,
    w_iter wl = w_iter wg ->
    w_dst wl = w_dst wg ->
    exists it d l o,
      cl wl = (mkWorld it d (w_rec wl ++ l)%list, o) /\
      (allReturn l (w_rec wg) ->
       cg wg = (mkWorld it d (replayOn l (w_rec wg)), o)).
End AnyRecorder.

Section Lines.
Context {FMT : FmtLib}.

(** The text of the pairs that [Error] writes after the error. *)
Fixpoint pairsText (kvs : list any) : string :=
  match kvs with
  | k :: v :: rest => ", " ++ Sprint k ++ ": " ++ Sprint v ++ pairsText rest
  | _ => ""
  end.

(** The line that the standard recorder writes for a call; for an [Error]
    call with a nil error, the text written before the panic. *)
Definition line (call : RecorderCall) : string :=
  match call with
  | OnError message (Some text) kvs =>
      message ++ ": " ++ text ++ pairsText kvs ++ newline
  | OnError message None _ => message ++ ": "
  | OnFinish => "copy finished." ++ newline
  | OnKey typ key [] => "start: " ++ typ ++ ": " ++ key ++ newline
  | OnKey typ key (item0 :: _) =>
      "start: " ++ typ ++ ": " ++ key ++ "->" ++ item0 ++ newline
  end.

Fixpoint lines (l : list RecorderCall) : string :=
  match l with
  | [] => ""
  | call :: l' => line call ++ lines l'
  end.
End Lines.

(** A server for the examples: the string ["a"] with value ["x1"], the hash
    ["b"] with the field ["f"], the string ["gone"] that vanishes before it
    is read; one scan page holds the keys ["a"] and ["b"]. *)
Definition exampleClient : redisClient := {|
  cl_Type := fun key =>
    if key =? "a" then ("string", None)
    else if key =? "b" then ("hash", None)
    else if key =? "gone" then ("string", None)
    else ("none", None);
  cl_Scan := fun cursor =>
    if (cursor =? 0)%N then (["a"; "b"], 0%N, None) else ([], 0%N, None)
|}.

(** A server whose first scan page is empty and carries the cursor 7. *)
Definition emptyPageClient : redisClient := {|
  cl_Type := cl_Type exampleClient;
  cl_Scan := fun cursor =>
    if (cursor =? 0)%N then ([], 7%N, None) else (["a"; "b"], 0%N, None)
|}.

(** A source that cannot reach its store: every accessor answers the error
    [us_err]. *)
Record unreachableSource := mkUnreachable {
  us_err : string
}.

Section Unreachable.
Context {RE : RegexpLib}.

Definition unreachableSource_Source
  : Source unreachableSource (keyValueIterator scriptedIterator) := {|
  srcClose := fun s => (s, None);
  Iterator := fun _ => mkKeyValueIterator (mkScripted [] None 0) exampleParser None;
  Get      := fun s _ => ([], Some (us_err s));
  HItems   := fun s _ => ([], Some (us_err s));
  LItems   := fun s _ => ([], Some (us_err s));
  SMembers := fun s _ => ([], Some (us_err s));
  ZMembers := fun s _ => ([], Some (us_err s))
|}.
End Unreachable.

(** A destination that is full: it answers an error to every call. *)
Definition refusing : list DestinationCall -> DestinationCall -> error :=
  fun _ _ => Some "full".

(* ================================================================= *)
(** * The prefixing destination *)

Section PrefixedDestinationFacts.
Context {D : Type} {DST : Destination D}.

Lemma NewPrefixedDestination_empty (store : D) :
  NewPrefixedDestination "" store = (None, Some "invalid store prefix").
Proof. reflexivity. Qed.

Lemma NewPrefixedDestination_nonempty (p : string) (store : D) :
  p <> "" ->
  NewPrefixedDestination p store = (Some (mkPrefixed store p), None).
Proof.
  intros Hp. unfold NewPrefixedDestination.
  destruct (String.eqb_spec p ""); [contradiction | reflexivity].
Qed.

Lemma NewPrefixedDestination_fails_iff (p : string) (store : D) :
  fst (NewPrefixedDestination p store) = None <-> p = "".
Proof.
  unfold NewPrefixedDestination.
  destruct (String.eqb_spec p "") as [-> | Hp]; simpl; split; intros H;
    try reflexivity; try discriminate; contradiction.
Qed.
End PrefixedDestinationFacts.

(** C8.  Constructing the prefixing destination fails exactly when the
    prefix is empty.  For a non-empty prefix [p] the constructor returns the
    decorator over the given destination, and each write through a
    decorator with prefix [p] is the same write on its inner destination
    with [p] prepended to the key (the name of the string, hash, set,
    sorted set or list) and the field, member, value and score unchanged;
    the decorator answers the inner destination's error. *)
Theorem C8_prefixedDestination_forwards :
  forall (D : Type) (DST : Destination D) (p : string) (store : D),
    (fst (NewPrefixedDestination p store) = None <-> p = "") /\
    (p <> "" ->
     NewPrefixedDestination p store = (Some (mkPrefixed store p), None) /\
     forall (inner : D) (k f : string) (v : bytes) (score : float64),
       let ps := mkPrefixed inner p in
       let into (r : D * error) := (mkPrefixed (fst r) p, snd r) in
       dstSet ps k v = into (dstSet inner (p ++ k) v) /\
       dstHSet ps k f v = into (dstHSet inner (p ++ k) f v) /\
       dstSAdd ps k f = into (dstSAdd inner (p ++ k) f) /\
       dstZAdd ps k f score = into (dstZAdd inner (p ++ k) f score) /\
       dstLPush ps k f = into (dstLPush inner (p ++ k) f)).
Proof.
  intros D DST p store. split.
  - apply NewPrefixedDestination_fails_iff.
  - intros Hp. split.
    + now apply NewPrefixedDestination_nonempty.
    + intros inner k f v score. cbv zeta. repeat split.
Qed.

(** Scenario D of the specification: through the prefix ["ns:"],
    [set_add("s","m")] reaches the inner destination as
    [set_add("ns:s","m")]. *)
Example scenario_D :
  forall ps,
    NewPrefixedDestination "ns:" (mkRecording accepting []) = (Some ps, None) ->
    rd_calls (pd_s (fst (dstSAdd ps "s" "m"))) = [CallSAdd "ns:s" "m"].
Proof.
  intros ps H. injection H as <-. reflexivity.
Qed.

(* ================================================================= *)
(** * The key filter decorator *)

Section KeyPatternFacts.
Context {RE : RegexpLib}.

Lemma rangeMatch_existsb (rs : list Regexp) (key : string) :
  rangeMatch rs key = existsb (fun r => MatchString r key) rs.
Proof.
  induction rs as [| r rs IH]; simpl; [reflexivity |].
  rewrite IH. now destruct (MatchString r key).
Qed.

Lemma keyPatternFilteredKey_Type_decision (inner : SourceKeyType * error)
    (key : string) (s : keyPatterns) :
  keyPatternFilteredKey_Type inner key s = filterDecision inner key s.
Proof.
  unfold keyPatternFilteredKey_Type, filterDecision.
  destruct inner as [t [e |]]; simpl; [reflexivity |].
  destruct (t =? SourceKeyTypeSkip); [reflexivity |].
  rewrite !rangeMatch_existsb.
  destruct (excludes s) as [| e es]; simpl.
  - destruct (includes s); reflexivity.
  - destruct (MatchString e key || existsb _ es); [reflexivity |].
    destruct (includes s); reflexivity.
Qed.

Lemma parseRegexps_range_ok (regexps : list string) :
  forall rs,
    (forall s, In s regexps -> ~ invalidPattern s) ->
    exists rs', parseRegexps_range rs regexps = inl rs'.
Proof.
  induction regexps as [| s rest IH]; intros rs Hall; simpl.
  - now exists rs.
  - destruct (Compile s) as [r | err] eqn:Hc.
    + apply IH. intros s' Hin. apply Hall. now right.
    + exfalso. apply (Hall s); [now left | now exists err].
Qed.

Lemma parseRegexps_range_err (regexps : list string) :
  forall rs err,
    parseRegexps_range rs regexps = inr err ->
    exists s, In s regexps /\ Compile s = inr err.
Proof.
  induction regexps as [| s rest IH]; intros rs err H; simpl in H.
  - discriminate.
  - destruct (Compile s) as [r | err'] eqn:Hc.
    + destruct (IH _ _ H) as (s' & Hin & Hs'). exists s'. split; [now right | exact Hs'].
    + injection H as <-. exists s. split; [now left | exact Hc].
Qed.

Lemma parseRegexps_range_inl (regexps : list string) :
  forall rs rs',
    parseRegexps_range rs regexps = inl rs' ->
    forall s, In s regexps -> ~ invalidPattern s.
Proof.
  induction regexps as [| s rest IH]; intros rs rs' H s0 Hin; simpl in *.
  - contradiction.
  - destruct (Compile s) as [r | err'] eqn:Hc; [| discriminate].
    destruct Hin as [<- | Hin].
    + intros [err Herr]. congruence.
    + eapply IH; eassumption.
Qed.
End KeyPatternFacts.

(** C4.  A key that the filter's iterator yields is the key of the
    underlying iterator wrapped with the filter's patterns; it keeps the
    identifier, and its type is the decision function of the specification:
    an error or a Skip of the underlying type resolution passes through,
    then a match of some exclude pattern gives Skip, then, when include
    patterns are configured, the real type if one of them matches and Skip
    if none does, and the real type otherwise. *)
Theorem C4_filter_decision :
  forall (RE : RegexpLib) (It : Type) (ITER : SourceKeyIterator It)
         (k k' : keyPatternIterator It) (key : SourceKey),
    keyPatternIterator_Next k = (k', (Some key, None)) ->
    exists inner,
      snd (iterNext (kpi_SourceKeyIterator k)) = (Some inner, None) /\
      key = keyPatternFilteredKey inner (kpi_s k) /\
      Key key = Key inner /\
      Type_ key = filterDecision (Type_ inner) (Key inner) (kpi_s k).
Proof.
  intros RE It ITER k k' key H.
  unfold keyPatternIterator_Next in H.
  destruct (iterNext (kpi_SourceKeyIterator k)) as [it [[inner |] err]];
    [| discriminate].
  destruct err as [e |]; simpl in H; [discriminate |].
  injection H as _ <-.
  exists inner. simpl. repeat split.
  apply keyPatternFilteredKey_Type_decision.
Qed.

(** C9.  [NewKeyPatternSource] returns no source exactly when some string of
    the include or exclude lists is not a valid pattern, and exactly then it
    returns an error, which is the compile error of such a string.  The
    result is computed from the pattern lists alone, before the source is
    used for anything. *)
Theorem C9_pattern_error_at_construction :
  forall (RE : RegexpLib) (Src : Type) (source : Src) (incl excl : list string),
    let r := NewKeyPatternSource source incl excl in
    (fst r = None <-> exists s, In s (incl ++ excl)%list /\ invalidPattern s) /\
    (fst r = None <-> snd r <> None) /\
    (forall err, snd r = Some err ->
       exists s, In s (incl ++ excl)%list /\ Compile s = inr err).
Proof.
  intros RE Src source incl excl. cbv zeta.
  unfold NewKeyPatternSource.
  destruct ((List.length incl =? 0)%nat && (List.length excl =? 0)%nat) eqn:Hlen.
  - apply andb_prop in Hlen. destruct Hlen as [Hi He].
    apply Nat.eqb_eq, length_zero_iff_nil in Hi, He. subst incl excl.
    cbn [fst snd]. repeat split; try discriminate; try congruence.
    intros (s & [] & _).
  - clear Hlen.
    destruct (parseRegexps incl) as [is_ | err] eqn:Hi.
    + destruct (parseRegexps excl) as [es | err] eqn:He; cbn [fst snd].
      * repeat split; try discriminate; try congruence.
        intros (s & Hin & Hs). exfalso.
        apply in_app_or in Hin. destruct Hin as [Hin | Hin].
        -- exact (@parseRegexps_range_inl _ _ _ _ Hi _ Hin Hs).
        -- exact (@parseRegexps_range_inl _ _ _ _ He _ Hin Hs).
      * destruct (@parseRegexps_range_err _ _ _ _ He) as (s & Hin & Hs).
        assert (Hin' : In s (incl ++ excl)%list)
          by (apply in_or_app; now right).
        repeat split; try discriminate; try congruence.
        -- intros _. exists s. split; [exact Hin' | now exists err].
        -- intros err' [= <-]. now exists s.
    + cbn [fst snd].
      destruct (@parseRegexps_range_err _ _ _ _ Hi) as (s & Hin & Hs).
      assert (Hin' : In s (incl ++ excl)%list)
        by (apply in_or_app; now left).
      repeat split; try discriminate; try congruence.
      * intros _. exists s. split; [exact Hin' | now exists err].
      * intros err' [= <-]. now exists s.
Qed.

(* ================================================================= *)
(** * The copy engine: one key *)

Section CopyKeyFacts.
Context {RE : RegexpLib}.
Context {Src It Dst Rec : Type}.
Context {ITER : SourceKeyIterator It} {SRC : Source Src It}.
Context {DST : Destination Dst} {REC : CopyRecorder Rec}.

Let world := world It Dst Rec.

Lemma Copy_key_Skip (src : Src) (key : SourceKey) (w : world) :
  Type_ key = (SourceKeyTypeSkip, None) ->
  Copy_key src key w = (w, Done tt).
Proof.
  intros H. unfold Copy_key. rewrite H. reflexivity.
Qed.

(** One iteration of the loop on a key that [Next] yields. *)
Lemma Copy_loop_key (fuel : nat) (src : Src) (w : world) it (key : SourceKey) :
  iterNext (w_iter w) = (it, (Some key, None)) ->
  Copy_loop (Datatypes.S fuel) src w =
  bind (Copy_key src key) (fun _ => Copy_loop fuel src)
       (mkWorld it (w_dst w) (w_rec w)).
Proof.
  intros H. cbn [Copy_loop]. unfold bind at 1, iter_Next. rewrite H. reflexivity.
Qed.

(** One iteration of the loop when [Next] returns an error. *)
Lemma Copy_loop_Next_error (fuel : nat) (src : Src) (w : world) it key e :
  iterNext (w_iter w) = (it, (key, Some e)) ->
  Copy_loop (Datatypes.S fuel) src w =
  bind (recorder_Error "iterate next key failed" (Some e) [])
       (fun _ => Copy_loop fuel src)
       (mkWorld it (w_dst w) (w_rec w)).
Proof.
  intros H. cbn [Copy_loop]. unfold bind at 1, iter_Next. rewrite H. reflexivity.
Qed.

(** The last iteration: [Next] returns no key and no error. *)
Lemma Copy_loop_end (fuel : nat) (src : Src) (w : world) it :
  iterNext (w_iter w) = (it, (None, None)) ->
  Copy_loop (Datatypes.S fuel) src w = (mkWorld it (w_dst w) (w_rec w), Done tt).
Proof.
  intros H. cbn [Copy_loop]. unfold bind at 1, iter_Next. rewrite H. reflexivity.
Qed.

Lemma undefined_type_eqb (typ : SourceKeyType) :
  ~ In typ definedTypes ->
  (typ =? SourceKeyTypeSkip) = false /\ (typ =? SourceKeyTypeString) = false /\
  (typ =? SourceKeyTypeHash) = false /\ (typ =? SourceKeyTypeList) = false /\
  (typ =? SourceKeyTypeSet) = false /\ (typ =? SourceKeyTypeZSet) = false.
Proof.
  intros H. repeat split; apply String.eqb_neq; intros ->; apply H;
    unfold definedTypes; simpl; tauto.
Qed.

Lemma Copy_key_unsupported (src : Src) (key : SourceKey) (typ : SourceKeyType)
    (w : world) :
  Type_ key = (typ, None) ->
  ~ In typ definedTypes ->
  Copy_key src key w =
  recorder_Error "unsupported key type" None
    [anyString "type"; anyType typ; anyString "key"; anyString (Key key)] w.
Proof.
  intros HT Hin. unfold Copy_key. rewrite HT.
  destruct (undefined_type_eqb Hin) as (-> & -> & -> & -> & -> & ->).
  reflexivity.
Qed.
End CopyKeyFacts.

(** C3.  A key whose type resolves to Skip leaves the recorder and the
    destination as they are: [Copy] makes no call for it, and the loop goes
    on with the next key. *)
Theorem C3_skip_is_silent :
  forall (RE : RegexpLib) (Src It Dst Rec : Type)
         (ITER : SourceKeyIterator It) (SRC : Source Src It)
         (DST : Destination Dst) (REC : CopyRecorder Rec)
         (src : Src) (key : SourceKey),
    Type_ key = (SourceKeyTypeSkip, None) ->
    (forall w : world It Dst Rec, Copy_key src key w = (w, Done tt)) /\
    (forall (fuel : nat) (w : world It Dst Rec) (it : It),
       iterNext (w_iter w) = (it, (Some key, None)) ->
       Copy_loop (Datatypes.S fuel) src w =
       Copy_loop fuel src (mkWorld it (w_dst w) (w_rec w))).
Proof.
  intros RE Src It Dst Rec ITER SRC DST REC src key HT. split.
  - intros w. now apply Copy_key_Skip.
  - intros fuel w it HN. rewrite (Copy_loop_key fuel src w HN).
    unfold bind. now rewrite Copy_key_Skip.
Qed.

(** C10.  For a key whose [Type()] succeeds with a value that is none of the
    six constants, [Copy] makes one recorder call, [Error] with the message
    of the default arm and a nil error; [stdCopyRecorder.Error] panics on a
    nil error, after it has written the message to its buffer, so that with
    the standard recorder the loop body, and the loop at the iteration in
    which [Next] yields the key, panic with a nil dereference. *)
Theorem C10_unsupported_type_reports_nil :
  forall (RE : RegexpLib) (FMT : FmtLib) (Src It Dst : Type)
         (ITER : SourceKeyIterator It) (SRC : Source Src It)
         (DST : Destination Dst)
         (src : Src) (key : SourceKey) (typ : SourceKeyType),
    Type_ key = (typ, None) ->
    ~ In typ definedTypes ->
    let kvs := [anyString "type"; anyType typ; anyString "key"; anyString (Key key)] in
    (forall w : world It Dst recordingRecorder,
       Copy_key src key w =
       (mkWorld (w_iter w) (w_dst w)
                (w_rec w ++ [OnError "unsupported key type" None kvs])%list,
        Done tt)) /\
    (forall (c : stdCopyRecorder) (message : string) (kvs' : list any),
       stdCopyRecorder_Error c message None kvs' =
       (mkStd (message ++ ": ") (out c), Panic nilDereference)) /\
    (forall w : world It Dst stdCopyRecorder,
       Copy_key src key w =
       (mkWorld (w_iter w) (w_dst w) (mkStd "unsupported key type: " (out (w_rec w))),
        Panic nilDereference)) /\
    (forall (fuel : nat) (w : world It Dst stdCopyRecorder) (it : It),
       iterNext (w_iter w) = (it, (Some key, None)) ->
       Copy_loop (Datatypes.S fuel) src w =
       (mkWorld it (w_dst w) (mkStd "unsupported key type: " (out (w_rec w))),
        Panic nilDereference)).
Proof.
  intros RE FMT Src It Dst ITER SRC DST src key typ HT Hin kvs.
  split; [| split; [| split]].
  - intros w. now rewrite (Copy_key_unsupported src key w HT Hin).
  - reflexivity.
  - intros w. now rewrite (Copy_key_unsupported src key w HT Hin).
  - intros fuel w it HN. rewrite (Copy_loop_key fuel src w HN). unfold bind.
    now rewrite (Copy_key_unsupported src key _ HT Hin).
Qed.

(* ================================================================= *)
(** * The copy engine observed: calls on the destination and the recorder *)

Section CopyObserved.
Context {RE : RegexpLib}.
Context {Src It : Type}.
Context {ITER : SourceKeyIterator It} {SRC : Source Src It}.

Let observed := world It recordingDestination recordingRecorder.

(** One turn of a [range] loop of [Copy] on a destination that accepts the
    write: a [Key] notification, the write, and no report. *)
Lemma write_turn (typ : SourceKeyType) (key : string) (sub : list string)
    (call : DestinationCall) (message : string) (kvs : list any) (w : observed) :
  writesSucceed (w_dst w) [call] ->
  bind (recorder_Key typ key sub) (fun _ =>
  bind (on_dst (fun d => rd_receive d call)) (fun err =>
  report err message kvs)) w
  = (mkWorld (w_iter w)
       (mkRecording (rd_reply (w_dst w)) (rd_calls (w_dst w) ++ [call])%list)
       (w_rec w ++ [OnKey typ key sub])%list,
     Done tt).
Proof.
  intros Hok. unfold bind, recorder_Key, on_recorder, on_dst, rd_receive.
  cbn [recKey recordingRecorder_CopyRecorder w_iter w_dst w_rec].
  unfold writesSucceed in Hok. cbn [repliesTo] in Hok.
  apply Forall_inv in Hok. rewrite Hok. reflexivity.
Qed.

(** The writes of one [range] loop of [Copy], on a destination that accepts
    them: one [Key] notification and one write for each item, in order. *)
Lemma range_writes (A : Type) (items : list A)
    (typ : SourceKeyType) (key : string) (sub : A -> list string)
    (call : A -> DestinationCall) (message : string) (kvs : A -> list any) :
  forall w : observed,
    writesSucceed (w_dst w) (map call items) ->
    range items (fun x =>
      bind (recorder_Key typ key (sub x)) (fun _ =>
      bind (on_dst (fun d => rd_receive d (call x))) (fun err =>
      report err message (kvs x)))) w
    = (mkWorld (w_iter w)
         (mkRecording (rd_reply (w_dst w)) (rd_calls (w_dst w) ++ map call items)%list)
         (w_rec w ++ map (fun x => OnKey typ key (sub x)) items)%list,
       Done tt).
Proof.
  induction items as [| x items IH]; intros w Hok.
  - simpl. rewrite !app_nil_r. destruct w as [it [reply calls] r]. reflexivity.
  - unfold writesSucceed in Hok. cbn [map repliesTo] in Hok.
    pose proof (Forall_inv Hok) as Hx. apply Forall_inv_tail in Hok.
    cbn [range]. unfold bind at 1.
    rewrite write_turn
      by (unfold writesSucceed; cbn [repliesTo]; constructor; [exact Hx | constructor]).
    rewrite IH by exact Hok.
    cbn [w_rec w_iter w_dst rd_calls rd_reply map].
    rewrite <- !app_assoc. reflexivity.
Qed.
End CopyObserved.

(** The loop body on a key of a recognized type whose fetch succeeds, on
    a destination on which the writes of the fetched items succeed. *)
Lemma Copy_key_writes :
  forall (RE : RegexpLib) (Src It : Type)
         (ITER : SourceKeyIterator It) (SRC : Source Src It)
         (src : Src) (key : SourceKey) (typ : SourceKeyType)
         (ws : list (list string * DestinationCall))
         (w : world It recordingDestination recordingRecorder),
    Type_ key = (typ, None) ->
    fetchedWrites src typ key = Some ws ->
    writesSucceed (w_dst w) (map snd ws) ->
    Copy_key src key w =
    (mkWorld (w_iter w)
       (mkRecording (rd_reply (w_dst w)) (rd_calls (w_dst w) ++ map snd ws)%list)
       (w_rec w ++ map (fun p => OnKey typ (Key key) (fst p)) ws)%list,
     Done tt).
Proof.
  intros RE Src It ITER SRC src key typ ws w HT Hf Hok.
  unfold Copy_key. rewrite HT. cbn [is_nil negb].
  unfold fetchedWrites in Hf.
  destruct (typ =? SourceKeyTypeSkip) eqn:Hskip.
  { apply String.eqb_eq in Hskip. subst typ. discriminate Hf. }
  destruct (typ =? SourceKeyTypeString).
  { destruct (Get src key) as [val [e |]]; [discriminate |].
    injection Hf as <-. cbn [is_nil negb].
    exact (write_turn typ (Key key) [] _ _ w Hok). }
  destruct (typ =? SourceKeyTypeHash).
  { destruct (HItems src key) as [items [e |]]; [discriminate |].
    injection Hf as <-. cbn [is_nil negb]. rewrite !map_map in *. cbn [fst snd] in *.
    exact (range_writes items typ (Key key) (fun kv => [hi_Key kv])
             (fun kv => CallHSet (Key key) (hi_Key kv) (hi_Value kv)) _ _ w Hok). }
  destruct (typ =? SourceKeyTypeList).
  { destruct (LItems src key) as [items [e |]]; [discriminate |].
    injection Hf as <-. cbn [is_nil negb]. rewrite !map_map in *. cbn [fst snd] in *.
    exact (range_writes items typ (Key key) (fun item => [item])
             (fun item => CallLPush (Key key) item) _ _ w Hok). }
  destruct (typ =? SourceKeyTypeSet).
  { destruct (SMembers src key) as [members [e |]]; [discriminate |].
    injection Hf as <-. cbn [is_nil negb]. rewrite !map_map in *. cbn [fst snd] in *.
    exact (range_writes members typ (Key key) (fun member => [member])
             (fun member => CallSAdd (Key key) member) _ _ w Hok). }
  destruct (typ =? SourceKeyTypeZSet).
  { destruct (ZMembers src key) as [members [e |]]; [discriminate |].
    injection Hf as <-. cbn [is_nil negb]. rewrite !map_map in *. cbn [fst snd] in *.
    exact (range_writes members typ (Key key) (fun m => [zm_Key m])
             (fun m => CallZAdd (Key key) (zm_Key m) (zm_Score m)) _ _ w Hok). }
  discriminate Hf.
Qed.

(** C1.  For a key of a recognized type other than Skip whose fetch succeeds,
    on a destination on which the writes of the fetched items succeed,
    [Copy] makes exactly those writes, one for each fetched item and in
    their order, and notifies the recorder of each item before its write,
    with no error report: one [Set] for a string, one [HSet] for each field
    and value, one [LPush] for each list item, one [SAdd] for each set
    member, one [ZAdd] for each member and score.  This holds of the loop
    body, and so of the iteration of the loop in which [Next] yields the
    key. *)
Theorem C1_one_write_per_fetched_item :
  forall (RE : RegexpLib) (Src It : Type)
         (ITER : SourceKeyIterator It) (SRC : Source Src It)
         (src : Src) (key : SourceKey) (typ : SourceKeyType)
         (ws : list (list string * DestinationCall))
         (w : world It recordingDestination recordingRecorder),
    Type_ key = (typ, None) ->
    fetchedWrites src typ key = Some ws ->
    writesSucceed (w_dst w) (map snd ws) ->
    let dst' := mkRecording (rd_reply (w_dst w))
                            (rd_calls (w_dst w) ++ map snd ws)%list in
    let rec' := (w_rec w ++ map (fun p => OnKey typ (Key key) (fst p)) ws)%list in
    Copy_key src key w = (mkWorld (w_iter w) dst' rec', Done tt) /\
    (forall (fuel : nat) (it : It),
       iterNext (w_iter w) = (it, (Some key, None)) ->
       Copy_loop (Datatypes.S fuel) src w =
       Copy_loop fuel src (mkWorld it dst' rec')).
Proof.
  intros RE Src It ITER SRC src key typ ws w HT Hf Hok dst' rec'. split.
  - exact (@Copy_key_writes _ _ _ _ _ src key typ ws w HT Hf Hok).
  - intros fuel it HN. rewrite (Copy_loop_key fuel src w HN). unfold bind.
    rewrite (@Copy_key_writes _ _ _ _ _ src key typ ws
               (mkWorld it (w_dst w) (w_rec w)) HT Hf Hok).
    reflexivity.
Qed.

(* ================================================================= *)
(** * The copy engine: the whole run, as the recorder sees it *)

Section CopyRecorded.
Context {RE : RegexpLib}.
Context {Src It Dst : Type}.
Context {ITER : SourceKeyIterator It} {SRC : Source Src It}.
Context {DST : Destination Dst}.

Let recorded := world It Dst recordingRecorder.
Let MR := M (It := It) (Dst := Dst) (Rec := recordingRecorder).

Lemma steady_ret (A : Type) (a : A) : steady (ret a : MR A).
Proof.
  intros w. exists (w_dst w), [], a. rewrite app_nil_r.
  destruct w; simpl. split; [reflexivity | intros []].
Qed.

Lemma steady_bind (A B : Type) (c : MR A) (k : A -> MR B) :
  steady c -> (forall a, steady (k a)) -> steady (bind c k).
Proof.
  intros Hc Hk w. destruct (Hc w) as (d & l & a & Hcw & Hl).
  destruct (Hk a (mkWorld (w_iter w) d (w_rec w ++ l)%list))
    as (d' & l' & b & Hkw & Hl').
  exists d', (l ++ l')%list, b. unfold bind. rewrite Hcw, Hkw.
  cbn [w_iter w_rec]. rewrite app_assoc. split; [reflexivity |].
  intros Hin. apply in_app_or in Hin. tauto.
Qed.

Lemma steady_recorder_Error (message : string) (err : error) (kvs : list any) :
  steady (recorder_Error message err kvs : MR unit).
Proof.
  intros w. exists (w_dst w), [OnError message err kvs], tt.
  split; [reflexivity |]. simpl. intros [H | []]. discriminate H.
Qed.

Lemma steady_recorder_Key (typ : SourceKeyType) (key : string) (item : list string) :
  steady (recorder_Key typ key item : MR unit).
Proof.
  intros w. exists (w_dst w), [OnKey typ key item], tt.
  split; [reflexivity |]. simpl. intros [H | []]. discriminate H.
Qed.

Lemma steady_on_dst (call : Dst -> Dst * error) :
  steady (on_dst call : MR error).
Proof.
  intros w. unfold on_dst. destruct (call (w_dst w)) as [d err].
  exists d, [], err. rewrite app_nil_r. split; [reflexivity | intros []].
Qed.

Lemma steady_report (err : error) (message : string) (kvs : list any) :
  steady (report err message kvs : MR unit).
Proof.
  unfold report. destruct err; cbn [is_nil negb].
  - apply steady_recorder_Error.
  - apply steady_ret.
Qed.

Lemma steady_range (A : Type) (xs : list A) (body : A -> MR unit) :
  (forall x, steady (body x)) -> steady (range xs body).
Proof.
  intros Hbody. induction xs as [| x xs IH]; cbn [range].
  - apply steady_ret.
  - apply steady_bind; [apply Hbody | intros _; exact IH].
Qed.

Ltac steady_step :=
  first [ apply steady_recorder_Error | apply steady_recorder_Key
        | apply steady_on_dst | apply steady_report | apply steady_ret
        | apply steady_range; intros ? | apply steady_bind; [| intros ?] ].

Lemma steady_Copy_key (src : Src) (key : SourceKey) :
  steady (Copy_key src key : MR unit).
Proof.
  unfold Copy_key.
  destruct (Type_ key) as [typ err].
  destruct (negb (is_nil err)); [steady_step |].
  destruct (typ =? SourceKeyTypeSkip); [steady_step |].
  destruct (typ =? SourceKeyTypeString).
  { destruct (Get src key) as [val e]. destruct (negb (is_nil e));
      unfold dst_Set; repeat steady_step. }
  destruct (typ =? SourceKeyTypeHash).
  { destruct (HItems src key) as [items e]. destruct (negb (is_nil e));
      unfold dst_HSet; repeat steady_step. }
  destruct (typ =? SourceKeyTypeList).
  { destruct (LItems src key) as [items e]. destruct (negb (is_nil e));
      unfold dst_LPush; repeat steady_step. }
  destruct (typ =? SourceKeyTypeSet).
  { destruct (SMembers src key) as [items e]. destruct (negb (is_nil e));
      unfold dst_SAdd; repeat steady_step. }
  destruct (typ =? SourceKeyTypeZSet).
  { destruct (ZMembers src key) as [items e]. destruct (negb (is_nil e));
      unfold dst_ZAdd; repeat steady_step. }
  steady_step.
Qed.

Lemma recorder_Error_then (A : Type) (message : string) (err : error)
    (kvs : list any) (k : unit -> MR A) (w : recorded) :
  bind (recorder_Error message err kvs) k w =
  k tt (mkWorld (w_iter w) (w_dst w) (w_rec w ++ [OnError message err kvs])%list).
Proof. reflexivity. Qed.

(** The loop returns once the iterator has signalled its end, and the
    recorder has received no [Finish] from it. *)
Lemma Copy_loop_returns (src : Src) (n : nat) :
  forall (fuel : nat) (w : recorded),
    exhaustsWithin n (w_iter w) = true ->
    n < fuel ->
    exists it d l,
      Copy_loop fuel src w = (mkWorld it d (w_rec w ++ l)%list, Done tt) /\
      ~ In OnFinish l.
Proof.
  induction n as [| n IH]; intros fuel w Hex Hlt;
    (destruct fuel as [| fuel]; [lia |]);
    cbn [exhaustsWithin] in Hex;
    destruct (iterNext (w_iter w)) as [it [key err]] eqn:HN.
  - destruct key as [key |], err as [e |]; try discriminate Hex.
    exists it, (w_dst w), []. rewrite app_nil_r.
    split; [now apply Copy_loop_end | intros []].
  - destruct err as [e |].
    + rewrite (Copy_loop_Next_error fuel src w HN).
      rewrite recorder_Error_then. cbn [w_iter w_dst w_rec].
      assert (Hex' : exhaustsWithin n it = true) by (destruct key; exact Hex).
      destruct (IH fuel (mkWorld it (w_dst w)
                  (w_rec w ++ [OnError "iterate next key failed" (Some e) []])%list)
                  Hex' ltac:(lia)) as (it' & d & l & Hrun & Hl).
      exists it', d, (OnError "iterate next key failed" (Some e) [] :: l).
      rewrite Hrun. cbn [w_rec]. rewrite <- app_assoc. split; [reflexivity |].
      intros [H | H]; [discriminate H | exact (Hl H)].
    + destruct key as [key |].
      * rewrite (Copy_loop_key fuel src w HN). unfold bind.
        destruct (steady_Copy_key src key (mkWorld it (w_dst w) (w_rec w)))
          as (d & l & [] & Hkey & Hl).
        rewrite Hkey. cbn [w_iter w_rec] in *.
        destruct (IH fuel (mkWorld it d (w_rec w ++ l)%list) Hex ltac:(lia))
          as (it' & d' & l' & Hrun & Hl').
        exists it', d', (l ++ l')%list. rewrite Hrun. cbn [w_rec].
        rewrite <- app_assoc. split; [reflexivity |].
        intros Hin. apply in_app_or in Hin. tauto.
      * exists it, (w_dst w), []. rewrite app_nil_r.
        split; [now apply Copy_loop_end | intros []].
Qed.
(** The whole run with a recording recorder, once the loop has returned. *)
Lemma Copy_recorded_run (src : Src) (dst : Dst) (recorder : recordingRecorder)
    (n fuel : nat) :
  exhaustsWithin n (Iterator src) = true ->
  n < fuel ->
  exists (it : It) (d : Dst) (before : list RecorderCall),
    Copy fuel src dst recorder =
    (mkWorld (fst (iterClose it)) d
       (recorder ++ before ++ OnFinish :: closeReport (snd (iterClose it)))%list,
     Done tt) /\
    ~ In OnFinish before.
Proof.
  intros Hex Hlt.
  destruct (Copy_loop_returns src (mkWorld (Iterator src) dst recorder) Hex Hlt)
    as (it & d & l & Hrun & Hl).
  cbn [w_rec] in Hrun.
  exists it, d, (l ++ match iterError it with
                      | None => []
                      | Some _ => [OnError "iterator errors" (iterError it) []]
                      end)%list.
  split.
  - unfold Copy, defer, Copy_body. unfold bind at 1. rewrite Hrun.
    unfold bind at 1. unfold iter_Error at 1. cbn [w_iter].
    unfold Copy_deferred, bind, iter_Close, report, recorder_Error, recorder_Finish,
      on_recorder.
    destruct (iterClose it) as [it' cerr] eqn:Hclose.
    destruct (iterError it) as [e |], cerr as [ce |];
      cbn [is_nil negb ret recError recFinish recordingRecorder_CopyRecorder
           w_iter w_dst w_rec fst snd closeReport];
      rewrite ?Hclose; cbn [fst snd is_nil negb ret recError
           recordingRecorder_CopyRecorder w_iter w_dst w_rec];
      rewrite <- ?app_assoc; cbn [app]; rewrite ?app_nil_r; reflexivity.
  - intros Hin. apply in_app_or in Hin. destruct Hin as [Hin | Hin]; [tauto |].
    destruct (iterError it); simpl in Hin; [| contradiction].
    destruct Hin as [H | []]. discriminate H.
Qed.
End CopyRecorded.

(* ================================================================= *)
(** * The copy engine: the whole run on any recorder *)

Section CopyOnAnyRecorder.
Context {RE : RegexpLib}.
Context {Src It Dst Rec : Type}.
Context {ITER : SourceKeyIterator It} {SRC : Source Src It}.
Context {DST : Destination Dst} {REC : CopyRecorder Rec}.

Let ML := M (It := It) (Dst := Dst) (Rec := recordingRecorder).
Let MG := M (It := It) (Dst := Dst) (Rec := Rec).

Lemma replayOn_app (l1 l2 : list RecorderCall) (r : Rec) :
  replayOn (l1 ++ l2) r = replayOn l2 (replayOn l1 r).
Proof. apply fold_left_app. Qed.

Lemma allReturn_app (l1 l2 : list RecorderCall) :
  forall r : Rec,
    allReturn (l1 ++ l2) r <-> allReturn l1 r /\ allReturn l2 (replayOn l1 r).
Proof.
  induction l1 as [| call l1 IH]; intros r.
  - cbn. tauto.
  - change (replayOn (call :: l1) r) with (replayOn l1 (fst (deliverTo r call))).
    cbn [app allReturn]. rewrite IH. tauto.
Qed.

(** A computation that does not touch the recorder. *)
Lemma follows_quiet (A : Type) (cl : ML A) (cg : MG A)
    (step : It -> Dst -> It * Dst * outcome A) :
  (forall w, cl w = (mkWorld (fst (fst (step (w_iter w) (w_dst w))))
                             (snd (fst (step (w_iter w) (w_dst w)))) (w_rec w),
                     snd (step (w_iter w) (w_dst w)))) ->
  (forall w, cg w = (mkWorld (fst (fst (step (w_iter w) (w_dst w))))
                             (snd (fst (step (w_iter w) (w_dst w)))) (w_rec w),
                     snd (step (w_iter w) (w_dst w)))) ->
  follows cl cg.
Proof.
  intros Hl Hg wl wg Hi Hd. do 2 eexists. exists []. eexists.
  rewrite Hl, Hg, app_nil_r, <- Hi, <- Hd. split; reflexivity.
Qed.

Lemma follows_ret (A : Type) (a : A) : follows (ret a : ML A) (ret a : MG A).
Proof.
  apply (@follows_quiet _ _ _ (fun it d => (it, d, Done a)));
    intros [it d r]; reflexivity.
Qed.

Lemma follows_out_of_fuel (A : Type) :
  follows ((fun w => (w, OutOfFuel)) : ML A) ((fun w => (w, OutOfFuel)) : MG A).
Proof.
  apply (@follows_quiet _ _ _ (fun it d => (it, d, OutOfFuel)));
    intros [it d r]; reflexivity.
Qed.

Lemma follows_on_dst (call : Dst -> Dst * error) :
  follows (on_dst call : ML error) (on_dst call : MG error).
Proof.
  apply (@follows_quiet _ _ _
           (fun it d => (it, fst (call d), Done (snd (call d)))));
    intros [it d r]; unfold on_dst; cbn; now destruct (call d).
Qed.

Lemma follows_iter_Next : follows (iter_Next : ML _) (iter_Next : MG _).
Proof.
  apply (@follows_quiet _ _ _
           (fun it d => (fst (iterNext it), d, Done (snd (iterNext it)))));
    intros [it d r]; unfold iter_Next; cbn; now destruct (iterNext it).
Qed.

Lemma follows_iter_Error : follows (iter_Error : ML _) (iter_Error : MG _).
Proof.
  apply (@follows_quiet _ _ _ (fun it d => (it, d, Done (iterError it))));
    intros [it d r]; reflexivity.
Qed.

Lemma follows_iter_Close : follows (iter_Close : ML _) (iter_Close : MG _).
Proof.
  apply (@follows_quiet _ _ _
           (fun it d => (fst (iterClose it), d, Done (snd (iterClose it)))));
    intros [it d r]; unfold iter_Close; cbn; now destruct (iterClose it).
Qed.

(** A call on the recorder. *)
Lemma follows_call (call : RecorderCall)
    (onLog : recordingRecorder -> recordingRecorder * outcome unit)
    (onRec : Rec -> Rec * outcome unit) :
  (forall r, onLog r = ((r ++ [call])%list, Done tt)) ->
  (forall r, onRec r = deliverTo r call) ->
  follows (on_recorder onLog : ML unit) (on_recorder onRec : MG unit).
Proof.
  intros Hlog Hrec wl wg Hi Hd.
  exists (w_iter wl), (w_dst wl), [call], (Done tt). unfold on_recorder.
  rewrite Hlog, Hrec. split; [reflexivity |].
  intros [Hret _]. rewrite <- Hi, <- Hd. cbn [replayOn fold_left].
  destruct (deliverTo (w_rec wg) call) as [r o]. cbn [fst snd] in *. now subst o.
Qed.

Lemma follows_recorder_Error (message : string) (err : error) (kvs : list any) :
  follows (recorder_Error message err kvs : ML unit)
          (recorder_Error message err kvs : MG unit).
Proof.
  apply (@follows_call (OnError message err kvs) _ _); reflexivity.
Qed.

Lemma follows_recorder_Key (typ : SourceKeyType) (key : string) (item : list string) :
  follows (recorder_Key typ key item : ML unit)
          (recorder_Key typ key item : MG unit).
Proof.
  apply (@follows_call (OnKey typ key item) _ _); reflexivity.
Qed.

Lemma follows_recorder_Finish :
  follows (recorder_Finish : ML unit) (recorder_Finish : MG unit).
Proof.
  apply (@follows_call (OnFinish) _ _); reflexivity.
Qed.

Lemma follows_bind (A B : Type) (cl : ML A) (cg : MG A)
    (kl : A -> ML B) (kg : A -> MG B) :
  follows cl cg -> (forall a, follows (kl a) (kg a)) ->
  follows (bind cl kl) (bind cg kg).
Proof.
  intros Hc Hk wl wg Hi Hd.
  destruct (Hc wl wg Hi Hd) as (it & d & l & o & Hlog & Hrec).
  unfold bind. rewrite Hlog. destruct o as [a | reason |].
  - destruct (Hk a (mkWorld it d (w_rec wl ++ l)%list)
                   (mkWorld it d (replayOn l (w_rec wg))) eq_refl eq_refl)
      as (it' & d' & l' & o' & Hlog' & Hrec').
    exists it', d', (l ++ l')%list, o'. rewrite Hlog'. cbn [w_rec] in *.
    rewrite app_assoc. split; [reflexivity |].
    intros Hall. apply allReturn_app in Hall. destruct Hall as [H1 H2].
    rewrite (Hrec H1), (Hrec' H2). now rewrite replayOn_app.
  - exists it, d, l, (Panic reason). split; [reflexivity |].
    intros Hall. now rewrite Hrec.
  - exists it, d, l, OutOfFuel. split; [reflexivity |].
    intros Hall. now rewrite Hrec.
Qed.

Lemma follows_report (err : error) (message : string) (kvs : list any) :
  follows (report err message kvs : ML unit) (report err message kvs : MG unit).
Proof.
  unfold report. destruct (negb (is_nil err)).
  - apply follows_recorder_Error.
  - apply follows_ret.
Qed.

Lemma follows_range (A : Type) (xs : list A) (bl : A -> ML unit) (bg : A -> MG unit) :
  (forall x, follows (bl x) (bg x)) -> follows (range xs bl) (range xs bg).
Proof.
  intros Hb. induction xs as [| x xs IH]; cbn [range].
  - apply follows_ret.
  - apply follows_bind; [apply Hb | intros _; exact IH].
Qed.

Ltac follows_step :=
  first [ apply follows_recorder_Error | apply follows_recorder_Key
        | apply follows_on_dst | apply follows_report | apply follows_ret
        | apply follows_range; intros ? | apply follows_bind; [| intros ?] ].

Lemma follows_Copy_key (src : Src) (key : SourceKey) :
  follows (Copy_key src key : ML unit) (Copy_key src key : MG unit).
Proof.
  unfold Copy_key. destruct (Type_ key) as [typ err].
  destruct (negb (is_nil err)); [follows_step |].
  destruct (typ =? SourceKeyTypeSkip); [follows_step |].
  destruct (typ =? SourceKeyTypeString).
  { destruct (Get src key) as [val e]. destruct (negb (is_nil e));
      unfold dst_Set; repeat follows_step. }
  destruct (typ =? SourceKeyTypeHash).
  { destruct (HItems src key) as [items e]. destruct (negb (is_nil e));
      unfold dst_HSet; repeat follows_step. }
  destruct (typ =? SourceKeyTypeList).
  { destruct (LItems src key) as [items e]. destruct (negb (is_nil e));
      unfold dst_LPush; repeat follows_step. }
  destruct (typ =? SourceKeyTypeSet).
  { destruct (SMembers src key) as [items e]. destruct (negb (is_nil e));
      unfold dst_SAdd; repeat follows_step. }
  destruct (typ =? SourceKeyTypeZSet).
  { destruct (ZMembers src key) as [items e]. destruct (negb (is_nil e));
      unfold dst_ZAdd; repeat follows_step. }
  follows_step.
Qed.

Lemma follows_Copy_loop (src : Src) (fuel : nat) :
  follows (Copy_loop fuel src : ML unit) (Copy_loop fuel src : MG unit).
Proof.
  induction fuel as [| fuel IH]; cbn [Copy_loop].
  - apply follows_out_of_fuel.
  - apply follows_bind; [apply follows_iter_Next |].
    intros [key err]. destruct (negb (is_nil err)).
    + apply follows_bind; [apply follows_recorder_Error | intros _; exact IH].
    + destruct key as [key |]; [| apply follows_ret].
      apply follows_bind; [apply follows_Copy_key | intros _; exact IH].
Qed.

Lemma follows_defer (A : Type) (fl : ML unit) (fg : MG unit) (bl : ML A) (bg : MG A) :
  follows fl fg -> follows bl bg -> follows (defer fl bl) (defer fg bg).
Proof.
  intros Hf Hb wl wg Hi Hd.
  destruct (Hb wl wg Hi Hd) as (it & d & l & o & Hlog & Hrec).
  unfold defer. rewrite Hlog.
  destruct (Hf (mkWorld it d (w_rec wl ++ l)%list)
               (mkWorld it d (replayOn l (w_rec wg))) eq_refl eq_refl)
    as (it' & d' & l' & o' & Hlog' & Hrec').
  cbn [w_rec] in *.
  assert (Hboth : allReturn (l ++ l') (w_rec wg) ->
                  bg wg = (mkWorld it d (replayOn l (w_rec wg)), o) /\
                  fg (mkWorld it d (replayOn l (w_rec wg)))
                  = (mkWorld it' d' (replayOn (l ++ l') (w_rec wg)), o')).
  { intros Hall. apply allReturn_app in Hall. destruct Hall as [H1 H2].
    rewrite replayOn_app. split; [exact (Hrec H1) | exact (Hrec' H2)]. }
  destruct o as [a | reason |].
  - rewrite Hlog'. exists it', d', (l ++ l')%list. rewrite app_assoc.
    destruct o' as [[] | reason' |]; eexists; (split; [reflexivity |]);
      intros Hall; destruct (Hboth Hall) as [-> ->]; reflexivity.
  - rewrite Hlog'. exists it', d', (l ++ l')%list. rewrite app_assoc.
    destruct o' as [[] | reason' |]; eexists; (split; [reflexivity |]);
      intros Hall; destruct (Hboth Hall) as [-> ->]; reflexivity.
  - exists it, d, l, OutOfFuel. split; [reflexivity |].
    intros Hall. now rewrite Hrec.
Qed.

Lemma follows_Copy_run (src : Src) (fuel : nat) :
  follows (defer Copy_deferred (Copy_body fuel src) : ML unit)
          (defer Copy_deferred (Copy_body fuel src) : MG unit).
Proof.
  apply follows_defer.
  - unfold Copy_deferred. apply follows_bind; [apply follows_iter_Close |].
    intros err. apply follows_report.
  - unfold Copy_body. apply follows_bind; [apply follows_Copy_loop |].
    intros _. apply follows_bind; [apply follows_iter_Error |].
    intros err. apply follows_bind; [apply follows_report |].
    intros _. apply follows_recorder_Finish.
Qed.

(** A run of [Copy] on the recorder [Rec], from the run on a recording
    recorder that has received nothing. *)
Lemma Copy_follows (src : Src) (dst : Dst) (recorder : Rec) (fuel : nat)
    (it : It) (d : Dst) (l : list RecorderCall) (o : outcome unit) :
  Copy fuel src dst ([] : recordingRecorder) = (mkWorld it d l, o) ->
  allReturn l recorder ->
  Copy fuel src dst recorder = (mkWorld it d (replayOn l recorder), o).
Proof.
  intros Hlog Hall.
  destruct (@follows_Copy_run src fuel
              (mkWorld (Iterator src) dst ([] : recordingRecorder))
              (mkWorld (Iterator src) dst recorder) eq_refl eq_refl)
    as (it' & d' & l' & o' & Hlog' & Hrec).
  unfold Copy in Hlog. cbn zeta in Hlog. rewrite Hlog in Hlog'.
  cbn [w_rec app] in Hlog'. injection Hlog' as Hit Hd Hl Ho. subst it' d' l' o'.
  exact (Hrec Hall).
Qed.
End CopyOnAnyRecorder.

Lemma replayOn_recording (l : list RecorderCall) :
  forall r : recordingRecorder, replayOn l r = (r ++ l)%list.
Proof.
  induction l as [| call l IH]; intros r.
  - cbn. now rewrite app_nil_r.
  - change (replayOn (call :: l) r) with (replayOn l (fst (deliverTo r call))).
    rewrite IH. destruct call; cbn; now rewrite <- app_assoc.
Qed.

Lemma allReturn_recording (l : list RecorderCall) :
  forall r : recordingRecorder, allReturn l r.
Proof.
  induction l as [| call l IH]; intros r; cbn [allReturn]; [exact I |].
  split; [now destruct call | apply IH].
Qed.

(** The whole run, once the loop has returned: on a recording recorder,
    whatever it had received, and on any recorder on which the calls of the
    run return. *)
Lemma Copy_run_returns :
  forall (RE : RegexpLib) (Src It Dst Rec : Type)
         (ITER : SourceKeyIterator It) (SRC : Source Src It)
         (DST : Destination Dst) (REC : CopyRecorder Rec)
         (src : Src) (dst : Dst) (recorder : Rec) (n fuel : nat),
    exhaustsWithin n (Iterator src) = true ->
    n < fuel ->
    exists (it : It) (d : Dst) (before : list RecorderCall),
      (forall log : recordingRecorder,
         Copy fuel src dst log =
         (mkWorld (fst (iterClose it)) d
            (log ++ before ++ OnFinish :: closeReport (snd (iterClose it)))%list,
          Done tt)) /\
      ~ In OnFinish before /\
      (allReturn (before ++ OnFinish :: closeReport (snd (iterClose it))) recorder ->
       Copy fuel src dst recorder =
       (mkWorld (fst (iterClose it)) d
          (replayOn (before ++ OnFinish :: closeReport (snd (iterClose it))) recorder),
        Done tt)).
Proof.
  intros RE Src It Dst Rec ITER SRC DST REC src dst recorder n fuel Hex Hlt.
  destruct (Copy_recorded_run src dst [] Hex Hlt) as (it & d & before & Hrun & Hb).
  cbn [app] in Hrun.
  exists it, d, before. split; [| split; [exact Hb |]].
  - intros log.
    rewrite (Copy_follows src dst log fuel Hrun (allReturn_recording _ log)).
    now rewrite replayOn_recording.
  - intros Hall. exact (Copy_follows src dst recorder fuel Hrun Hall).
Qed.

(** C2, as the code has it.  Take a [Copy] whose iterator signals its end.
    On a recording recorder it returns, and the calls it has made are those
    of [before], [Finish], and what the deferred close reports: no [Finish]
    among the calls before it, and after it nothing when [Close] succeeds
    and the one error report of the close failure when it fails.  On any
    recorder on which each of these calls returns, [Copy] returns as well and
    the recorder has received exactly these calls, in this order. *)
Theorem C2_finish_once_then_close_report :
  forall (RE : RegexpLib) (Src It Dst Rec : Type)
         (ITER : SourceKeyIterator It) (SRC : Source Src It)
         (DST : Destination Dst) (REC : CopyRecorder Rec)
         (src : Src) (dst : Dst) (recorder : Rec) (n fuel : nat),
    exhaustsWithin n (Iterator src) = true ->
    n < fuel ->
    exists (it : It) (d : Dst) (before : list RecorderCall),
      (forall log : recordingRecorder,
         Copy fuel src dst log =
         (mkWorld (fst (iterClose it)) d
            (log ++ before ++ OnFinish :: closeReport (snd (iterClose it)))%list,
          Done tt)) /\
      ~ In OnFinish before /\
      ~ In OnFinish (closeReport (snd (iterClose it))) /\
      (allReturn (before ++ OnFinish :: closeReport (snd (iterClose it))) recorder ->
       Copy fuel src dst recorder =
       (mkWorld (fst (iterClose it)) d
          (replayOn (before ++ OnFinish :: closeReport (snd (iterClose it))) recorder),
        Done tt)).
Proof.
  intros RE Src It Dst Rec ITER SRC DST REC src dst recorder n fuel Hex Hlt.
  destruct (@Copy_run_returns _ _ _ _ _ _ _ _ REC src dst recorder n fuel Hex Hlt)
    as (it & d & before & Hlog & Hb & Hrec).
  exists it, d, before. split; [exact Hlog |]. split; [exact Hb |].
  split; [| exact Hrec].
  destruct (snd (iterClose it)); simpl; [| tauto].
  intros [H | []]. discriminate H.
Qed.


(* ================================================================= *)
(** * The key-value source adapter *)

Section KeyValueSourceFacts.
Context {RE : RegexpLib}.
Context {T : Type} {KVI : KeyValueIterator T}.

(** Once an error is recorded, [Next] returns no key and leaves the
    iterator, and with it the store, as it is. *)
Lemma keyValueIterator_Next_halted (k : keyValueIterator T) :
  kvi_err k <> None ->
  keyValueIterator_Next k = (k, (None, None)).
Proof.
  intros H. unfold keyValueIterator_Next.
  destruct (kvi_err k); [reflexivity | contradiction].
Qed.

Lemma keyValueIterator_Next_read_error (k : keyValueIterator T) it key val e :
  kvi_err k = None ->
  kvNext (kvi_iter k) = (it, (key, val, Some e)) ->
  keyValueIterator_Next k =
  (mkKeyValueIterator it (kvi_parser k) (Some e), (None, None)).
Proof.
  intros Herr HN. unfold keyValueIterator_Next. rewrite Herr, HN. reflexivity.
Qed.

Lemma keyValueIterator_Next_parse_error (k : keyValueIterator T) it key val item e :
  kvi_err k = None ->
  kvNext (kvi_iter k) = (it, (key, val, None)) ->
  key <> "" ->
  kvi_parser k key val = (item, Some e) ->
  keyValueIterator_Next k =
  (mkKeyValueIterator it (kvi_parser k) None, (None, Some e)).
Proof.
  intros Herr HN Hkey HP. unfold keyValueIterator_Next. rewrite Herr, HN.
  cbn [is_nil negb]. destruct (String.eqb_spec key ""); [contradiction |].
  rewrite HP. reflexivity.
Qed.

(** A key that the adapter yields is a [keyValueSourceKey] holding the item
    parsed from the row just read. *)
Lemma keyValueIterator_Next_yields (k k' : keyValueIterator T) (key : SourceKey) err :
  keyValueIterator_Next k = (k', (Some key, err)) ->
  exists rawKey val item,
    snd (kvNext (kvi_iter k)) = (rawKey, val, None) /\
    kvi_parser k rawKey val = (item, None) /\
    key = keyValueSourceKey item /\ err = None.
Proof.
  unfold keyValueIterator_Next.
  destruct (kvi_err k); cbn [is_nil negb]; [discriminate |].
  destruct (kvNext (kvi_iter k)) as [it [[rawKey val] e]].
  destruct e; cbn [is_nil negb]; [discriminate |].
  destruct (rawKey =? ""); [discriminate |].
  destruct (kvi_parser k rawKey val) as [item e] eqn:HP.
  destruct e; cbn [is_nil negb]; [discriminate |].
  intros [= _ <- <-]. exists rawKey, val, item.
  repeat split; try reflexivity; exact HP.
Qed.

(** The accessors on a key of the adapter's own type: the fields of its
    item, one element each, with no error. *)
Lemma keyValueSource_accessors (DB : Type) (s : keyValueSource DB) (item : KeyValueItem) :
  let k := keyValueSourceKey item in
  keyValueSource_Get s k = (StringValue item, None) /\
  keyValueSource_HItems s k = ([mkHashItem (HashField item) (HashFieldValue item)], None) /\
  keyValueSource_LItems s k = ([ListItem item], None) /\
  keyValueSource_SMembers s k = ([SetMember item], None) /\
  keyValueSource_ZMembers s k = ([mkZSetMember (ZSetMember item) (ZSetScore item)], None).
Proof. repeat split. Qed.

(** The accessors on a key of the filter's type: the type assertion fails
    and they read the zero item, whatever the wrapped key holds. *)
Lemma keyValueSource_accessors_filtered (DB : Type) (s : keyValueSource DB)
    (inner : SourceKey) (pats : keyPatterns) :
  let k := keyPatternFilteredKey inner pats in
  keyValueSource_Get s k = ([], None) /\
  keyValueSource_HItems s k = ([mkHashItem "" []], None) /\
  keyValueSource_LItems s k = ([""], None) /\
  keyValueSource_SMembers s k = ([""], None) /\
  keyValueSource_ZMembers s k = ([mkZSetMember "" 0%float], None).
Proof. repeat split. Qed.
End KeyValueSourceFacts.

(** The adapter over a scripted store signals its end within as many calls
    as the store has rows left, plus one. *)
Lemma keyValueIterator_exhausts (RE : RegexpLib)
    (rows : list (string * bytes * error)) :
  forall (closeErr : error) (reads : nat) (parser : SourceKeyParser) (err : error),
    exhaustsWithin (List.length rows)
      (mkKeyValueIterator (mkScripted rows closeErr reads) parser err) = true.
Proof.
  induction rows as [| [[key val] e] rows IH]; intros closeErr reads parser err.
  - cbn. destruct err; reflexivity.
  - cbn [List.length exhaustsWithin iterNext keyValueIterator_SourceKeyIterator].
    unfold keyValueIterator_Next.
    cbn [kvi_err kvi_iter kvi_parser kvNext scriptedIterator_KeyValueIterator
         scriptedIterator_Next si_rows si_closeErr si_reads].
    destruct err; cbn [is_nil negb]; [reflexivity |].
    destruct e; cbn [is_nil negb]; [reflexivity |].
    destruct (key =? ""); [reflexivity |].
    destruct (parser key val) as [item [pe |]]; cbn [is_nil negb]; apply IH.
Qed.

(** The filter's iterator signals its end when the iterator it wraps does. *)
Lemma keyPatternIterator_exhausts (RE : RegexpLib) (It : Type)
    (ITER : SourceKeyIterator It) (s : keyPatterns) (n : nat) :
  forall it : It,
    exhaustsWithin n it = true ->
    exhaustsWithin n (mkKeyPatternIterator it s) = true.
Proof.
  induction n as [| n IH]; intros it H; cbn [exhaustsWithin] in *;
    cbn [iterNext keyPatternIterator_SourceKeyIterator];
    unfold keyPatternIterator_Next; cbn [kpi_SourceKeyIterator kpi_s];
    destruct (iterNext it) as [it' [[key |] [e |]]]; cbn [is_nil negb];
    try discriminate; try reflexivity; now apply IH.
Qed.

(** C5.  When the parser fails on a row, [Next] of the adapter returns the
    parse error to its caller and records nothing: the iterator's error
    stays nil and the store has moved past the row.  [Copy] reports the
    error to the recorder and goes on with the loop from the rows that
    follow; the destination is as the earlier rows left it. *)
Theorem C5_parse_error_returned_and_reported :
  forall (RE : RegexpLib) (T Src Dst : Type) (KVI : KeyValueIterator T)
         (SRC : Source Src (keyValueIterator T)) (DST : Destination Dst)
         (src : Src) (fuel : nat)
         (w : world (keyValueIterator T) Dst recordingRecorder)
         (it : T) (key : string) (val : bytes) (item : KeyValueItem) (e : string),
    kvi_err (w_iter w) = None ->
    kvNext (kvi_iter (w_iter w)) = (it, (key, val, None)) ->
    key <> "" ->
    kvi_parser (w_iter w) key val = (item, Some e) ->
    let k' := mkKeyValueIterator it (kvi_parser (w_iter w)) None in
    keyValueIterator_Next (w_iter w) = (k', (None, Some e)) /\
    keyValueIterator_Error k' = None /\
    Copy_loop (Datatypes.S fuel) src w =
    Copy_loop fuel src
      (mkWorld k' (w_dst w)
         (w_rec w ++ [OnError "iterate next key failed" (Some e) []])%list).
Proof.
  intros RE T Src Dst KVI SRC DST src fuel w it key val item e Herr HN Hkey HP k'.
  pose proof (keyValueIterator_Next_parse_error (w_iter w) Herr HN Hkey HP) as Hnext.
  assert (Hiter : iterNext (w_iter w) = (k', (None, Some e))) by exact Hnext.
  repeat split.
  - exact Hnext.
  - now rewrite (Copy_loop_Next_error fuel src w Hiter).
Qed.

(** C6.  When the store signals a read error, [Next] of the adapter records
    it and returns no key and no error; every later [Next] returns no key
    and leaves the iterator, and the store in it, untouched; [Error] returns
    the recorded error.  In [Copy] the loop ends there: the destination
    stays as the earlier keys left it, and the recorder receives the error
    after the loop, then [Finish]. *)
Theorem C6_store_error_halts_and_is_reported :
  forall (RE : RegexpLib) (T Src Dst : Type) (KVI : KeyValueIterator T)
         (SRC : Source Src (keyValueIterator T)) (DST : Destination Dst)
         (src : Src) (fuel : nat)
         (w : world (keyValueIterator T) Dst recordingRecorder)
         (it : T) (key : string) (val : bytes) (e : string),
    kvi_err (w_iter w) = None ->
    kvNext (kvi_iter (w_iter w)) = (it, (key, val, Some e)) ->
    let k' := mkKeyValueIterator it (kvi_parser (w_iter w)) (Some e) in
    keyValueIterator_Next (w_iter w) = (k', (None, None)) /\
    keyValueIterator_Error k' = Some e /\
    (forall m : nat,
       keyValueIterator_Next
         (Nat.iter m (fun j => fst (keyValueIterator_Next j)) k')
       = (k', (None, None))) /\
    Copy_body (Datatypes.S fuel) src w =
    (mkWorld k' (w_dst w)
       (w_rec w ++ [OnError "iterator errors" (Some e) []; OnFinish])%list,
     Done tt).
Proof.
  intros RE T Src Dst KVI SRC DST src fuel w it key val e Herr HN k'.
  pose proof (keyValueIterator_Next_read_error (w_iter w) Herr HN) as Hnext.
  assert (Hhalt : keyValueIterator_Next k' = (k', (None, None)))
    by (apply keyValueIterator_Next_halted; discriminate).
  assert (Hiter : iterNext (w_iter w) = (k', (None, None))) by exact Hnext.
  repeat split.
  - exact Hnext.
  - intros m.
    assert (Hfix : Nat.iter m (fun j => fst (keyValueIterator_Next j)) k' = k').
    { induction m as [| m IH]; [reflexivity |].
      rewrite Nat.iter_succ, IH, Hhalt. reflexivity. }
    rewrite Hfix. exact Hhalt.
  - unfold Copy_body. unfold bind at 1.
    rewrite (Copy_loop_end fuel src w Hiter).
    unfold bind, iter_Error, report, recorder_Error, recorder_Finish, on_recorder.
    cbn. rewrite <- app_assoc. reflexivity.
Qed.

(* ================================================================= *)
(** * More on keys and the filter *)

Section KeyFacts.
Context {RE : RegexpLib}.

Lemma keyPatternFilteredKey_Type_cases (inner : SourceKeyType * error)
    (key : string) (s : keyPatterns) :
  keyPatternFilteredKey_Type inner key s = inner \/
  (snd inner = None /\
   keyPatternFilteredKey_Type inner key s = (SourceKeyTypeSkip, None)).
Proof.
  unfold keyPatternFilteredKey_Type. destruct inner as [t [e |]]; cbn [is_nil negb orb snd].
  - now left.
  - destruct (t =? SourceKeyTypeSkip); [now left |].
    destruct ((0 <? List.length (excludes s))%nat && rangeMatch (excludes s) key);
      [now right |].
    destruct (0 <? List.length (includes s))%nat; [| now left].
    destruct (rangeMatch (includes s) key); [now left | now right].
Qed.

Lemma serverSourceKey_Type_defined (key : string) (reply : string * error)
    (typ : SourceKeyType) :
  serverSourceKey_Type key reply = (typ, None) ->
  In typ [SourceKeyTypeString; SourceKeyTypeHash; SourceKeyTypeList;
          SourceKeyTypeSet; SourceKeyTypeZSet].
Proof.
  unfold serverSourceKey_Type. destruct reply as [t [e |]]; cbn [is_nil negb].
  - discriminate.
  - repeat (match goal with
            | |- context [if ?b then _ else _] => destruct b
            end; [intros [= <-]; simpl; tauto |]).
    discriminate.
Qed.

Lemma parseRegexps_range_spec (regexps : list string) :
  forall rs rs',
    parseRegexps_range rs regexps = inl rs' <->
    exists cs, rs' = (rs ++ cs)%list /\ map Compile regexps = map inl cs.
Proof.
  induction regexps as [| s rest IH]; intros rs rs'; cbn [parseRegexps_range map].
  - split.
    + intros [= <-]. exists []. now rewrite app_nil_r.
    + intros (cs & -> & Hcs). destruct cs; [| discriminate].
      now rewrite app_nil_r.
  - destruct (Compile s) as [r | err] eqn:Hc.
    + rewrite IH. split.
      * intros (cs & -> & Hcs). exists (r :: cs). rewrite <- app_assoc.
        split; [reflexivity |]. cbn [map]. now rewrite Hcs.
      * intros (cs & -> & Hcs). destruct cs as [| r' cs]; [discriminate |].
        cbn [map] in Hcs. injection Hcs as Hr Hcs. subst r'.
        exists cs.
        rewrite <- app_assoc. now split.
    + split; [discriminate |].
      intros (cs & _ & Hcs). destruct cs; discriminate.
Qed.

Lemma parseRegexps_range_firstInvalid (regexps : list string) :
  forall rs,
    match parseRegexps_range rs regexps with
    | inl _ => firstInvalid regexps = None
    | inr err => firstInvalid regexps = Some err
    end.
Proof.
  induction regexps as [| s rest IH]; intros rs;
    cbn [parseRegexps_range firstInvalid]; [reflexivity |].
  destruct (Compile s); [apply IH | reflexivity].
Qed.

Lemma firstInvalid_app (l1 l2 : list string) :
  firstInvalid (l1 ++ l2) =
  match firstInvalid l1 with
  | Some err => Some err
  | None => firstInvalid l2
  end.
Proof.
  induction l1 as [| s l1 IH]; cbn [app firstInvalid]; [reflexivity |].
  destruct (Compile s); [exact IH | reflexivity].
Qed.
End KeyFacts.

(** X1.  The filter changes nothing but the type, and the type only to
    Skip: a filtered key has the identifier of the key it wraps, and its
    type resolution gives either the result of the wrapped key (type and
    error alike) or, when that one succeeded, Skip with no error. *)
Theorem X1_filter_only_skips :
  forall (RE : RegexpLib) (k : SourceKey) (s : keyPatterns),
    Key (keyPatternFilteredKey k s) = Key k /\
    (Type_ (keyPatternFilteredKey k s) = Type_ k \/
     (snd (Type_ k) = None /\
      Type_ (keyPatternFilteredKey k s) = (SourceKeyTypeSkip, None))).
Proof.
  intros RE k s. split; [reflexivity |].
  cbn [Type_]. apply keyPatternFilteredKey_Type_cases.
Qed.

(** X2.  The type of a key of the server source, under any number of
    filters, resolves to one of the six constants or fails: such a key
    never reaches the default arm of [Copy].  Without a filter it is one of
    the five types of values, never Skip. *)
Theorem X2_server_key_type_is_defined :
  forall (RE : RegexpLib) (k : SourceKey) (typ : SourceKeyType),
    serverBased k = true ->
    Type_ k = (typ, None) ->
    In typ definedTypes /\
    (forall key reply, k = serverSourceKey key reply -> typ <> SourceKeyTypeSkip).
Proof.
  intros RE k. induction k as [item | key reply | k IH s]; intros typ Hs HT.
  - discriminate Hs.
  - cbn [Type_] in HT. apply serverSourceKey_Type_defined in HT.
    split.
    + unfold definedTypes. simpl in *. tauto.
    + intros _ _ _ ->. simpl in HT.
      repeat (destruct HT as [HT | HT]; [discriminate HT |]). exact HT.
  - split; [| discriminate].
    cbn [Type_ serverBased] in HT, Hs.
    destruct (keyPatternFilteredKey_Type_cases (Type_ k) (Key k) s) as [H | [_ H]];
      rewrite H in HT.
    + exact (proj1 (IH typ Hs HT)).
    + injection HT as <-. unfold definedTypes. simpl. tauto.
Qed.

(** X3.  When [NewKeyPatternSource] succeeds it returns the given source
    itself exactly when both lists are empty; otherwise the decorator holds
    the given source and the compiled patterns of the two lists, one for
    each string and in the order of the lists. *)
Theorem X3_NewKeyPatternSource_success :
  forall (RE : RegexpLib) (Src : Type) (source : Src) (incl excl : list string)
         (res : Src + keyPatternSource Src),
    NewKeyPatternSource source incl excl = (Some res, None) ->
    match res with
    | inl s => s = source /\ incl = [] /\ excl = []
    | inr k =>
        kps_Source k = source /\
        map Compile incl = map inl (includes (kps_patterns k)) /\
        map Compile excl = map inl (excludes (kps_patterns k)) /\
        ~ (incl = [] /\ excl = [])
    end.
Proof.
  intros RE Src source incl excl res. unfold NewKeyPatternSource.
  destruct ((List.length incl =? 0)%nat && (List.length excl =? 0)%nat) eqn:Hlen.
  - intros [= <-]. apply andb_prop in Hlen. destruct Hlen as [Hi He].
    apply Nat.eqb_eq, length_zero_iff_nil in Hi, He. now subst.
  - destruct (parseRegexps incl) as [is_ | err] eqn:Hi; [| discriminate].
    destruct (parseRegexps excl) as [es | err] eqn:He; [| discriminate].
    intros [= <-]. cbn [kps_Source kps_patterns includes excludes].
    apply parseRegexps_range_spec in Hi, He.
    destruct Hi as (ci & -> & Hi), He as (ce & -> & He).
    repeat split; try assumption.
    intros [-> ->]. discriminate Hlen.
Qed.

(** X4.  The error of [NewKeyPatternSource] is the compile error of the
    first invalid string, the include list read before the exclude list;
    there is no error when every string is valid. *)
Theorem X4_first_invalid_pattern_is_reported :
  forall (RE : RegexpLib) (Src : Type) (source : Src) (incl excl : list string),
    snd (NewKeyPatternSource source incl excl) = firstInvalid (incl ++ excl)%list.
Proof.
  intros RE Src source incl excl. rewrite firstInvalid_app.
  unfold NewKeyPatternSource.
  destruct ((List.length incl =? 0)%nat && (List.length excl =? 0)%nat) eqn:Hlen.
  - apply andb_prop in Hlen. destruct Hlen as [Hi He].
    apply Nat.eqb_eq, length_zero_iff_nil in Hi, He. now subst.
  - unfold parseRegexps.
    pose proof (parseRegexps_range_firstInvalid incl []) as Hi.
    pose proof (parseRegexps_range_firstInvalid excl []) as He.
    destruct (parseRegexps_range [] incl); rewrite Hi; [| reflexivity].
    destruct (parseRegexps_range [] excl); rewrite He; reflexivity.
Qed.

(** X5.  A key that matches an exclude pattern, and whose underlying type
    resolution succeeds, is invisible in [Copy] whatever its type, a type
    unknown to the engine included: no recorder call, no write. *)
Theorem X5_excluded_key_is_invisible :
  forall (RE : RegexpLib) (Src It Dst Rec : Type)
         (ITER : SourceKeyIterator It) (SRC : Source Src It)
         (DST : Destination Dst) (REC : CopyRecorder Rec)
         (src : Src) (k : SourceKey) (s : keyPatterns) (w : world It Dst Rec),
    snd (Type_ k) = None ->
    existsb (fun e => MatchString e (Key k)) (excludes s) = true ->
    Type_ (keyPatternFilteredKey k s) = (SourceKeyTypeSkip, None) /\
    Copy_key src (keyPatternFilteredKey k s) w = (w, Done tt).
Proof.
  intros RE Src It Dst Rec ITER SRC DST REC src k s w Herr Hex.
  assert (HT : Type_ (keyPatternFilteredKey k s) = (SourceKeyTypeSkip, None)).
  { cbn [Type_]. rewrite keyPatternFilteredKey_Type_decision.
    unfold filterDecision. rewrite Herr, Hex.
    destruct (Type_ k) as [t e]. cbn [fst snd] in *. subst e.
    destruct (t =? SourceKeyTypeSkip) eqn:Ht; [| reflexivity].
    apply String.eqb_eq in Ht. now subst t. }
  split; [exact HT | now apply Copy_key_Skip].
Qed.

(* ================================================================= *)
(** * More on the copy engine: failures *)

Lemma keysOf_app (l1 l2 : list RecorderCall) :
  keysOf (l1 ++ l2) = (keysOf l1 ++ keysOf l2)%list.
Proof. apply filter_app. Qed.

Lemma errorsOf_app (l1 l2 : list RecorderCall) :
  errorsOf (l1 ++ l2) = (errorsOf l1 ++ errorsOf l2)%list.
Proof. apply flat_map_app. Qed.

Section CopyFailures.
Context {RE : RegexpLib}.
Context {Src It : Type}.
Context {ITER : SourceKeyIterator It} {SRC : Source Src It}.

Let observed := world It recordingDestination recordingRecorder.

(** One turn of a [range] loop of [Copy], whatever the destination
    answers: the [Key] notification, the write, and the report of the
    answer when it is an error. *)
Lemma write_turn_any (typ : SourceKeyType) (key : string) (sub : list string)
    (call : DestinationCall) (message : string) (kvs : list any) (w : observed) :
  let answer := rd_reply (w_dst w) (rd_calls (w_dst w)) call in
  bind (recorder_Key typ key sub) (fun _ =>
  bind (on_dst (fun d => rd_receive d call)) (fun err =>
  report err message kvs)) w
  = (mkWorld (w_iter w)
       (mkRecording (rd_reply (w_dst w)) (rd_calls (w_dst w) ++ [call])%list)
       (w_rec w ++ OnKey typ key sub ::
          match answer with
          | Some _ => [OnError message answer kvs]
          | None => []
          end)%list,
     Done tt).
Proof.
  cbv zeta. unfold bind, recorder_Key, on_recorder, on_dst, rd_receive, report,
    recorder_Error, on_recorder.
  cbn [recKey recError recordingRecorder_CopyRecorder w_iter w_dst w_rec].
  destruct (rd_reply (w_dst w) (rd_calls (w_dst w)) call);
    cbn [is_nil negb ret w_iter w_dst w_rec]; rewrite <- ?app_assoc; reflexivity.
Qed.

Lemma range_writes_any (A : Type) (items : list A)
    (typ : SourceKeyType) (key : string) (sub : A -> list string)
    (call : A -> DestinationCall) (message : string) (kvs : A -> list any) :
  forall w : observed,
    exists l,
      range items (fun x =>
        bind (recorder_Key typ key (sub x)) (fun _ =>
        bind (on_dst (fun d => rd_receive d (call x))) (fun err =>
        report err message (kvs x)))) w
      = (mkWorld (w_iter w)
           (mkRecording (rd_reply (w_dst w))
                        (rd_calls (w_dst w) ++ map call items)%list)
           (w_rec w ++ l)%list,
         Done tt) /\
      keysOf l = map (fun x => OnKey typ key (sub x)) items /\
      errorsOf l =
      failures (repliesTo (rd_reply (w_dst w)) (rd_calls (w_dst w)) (map call items)).
Proof.
  induction items as [| x items IH]; intros w.
  - exists []. cbn. rewrite !app_nil_r. destruct w as [it [reply calls] r].
    repeat split.
  - cbn [range]. unfold bind at 1. rewrite write_turn_any.
    match goal with
    | |- context [mkWorld ?i ?d ?r] =>
        destruct (IH (mkWorld i d r)) as (l & Hrun & Hkeys & Herrs)
    end.
    cbn [w_iter w_dst w_rec rd_reply rd_calls] in Hrun, Hkeys, Herrs.
    eexists. rewrite Hrun. cbn [map]. rewrite <- !app_assoc. split; [reflexivity |].
    cbn [app]. change (OnKey typ key (sub x) :: ?t)%list with ([OnKey typ key (sub x)] ++ t)%list.
    rewrite keysOf_app, errorsOf_app, keysOf_app, errorsOf_app, Hkeys, Herrs.
    cbn [repliesTo failures filter].
    destruct (rd_reply (w_dst w) (rd_calls (w_dst w)) (call x)); split; reflexivity.
Qed.
End CopyFailures.

(** X6.  A failed write aborts nothing.  For a key of a recognized type
    whose fetch succeeds, whatever the destination answers, [Copy] makes the
    writes of all the fetched items, one for each and in their order; the
    recorder receives the [Key] notification of each item, and as [Error]
    calls exactly the errors that the destination answered, in order. *)
Theorem X6_write_failures_do_not_abort :
  forall (RE : RegexpLib) (Src It : Type)
         (ITER : SourceKeyIterator It) (SRC : Source Src It)
         (src : Src) (key : SourceKey) (typ : SourceKeyType)
         (ws : list (list string * DestinationCall))
         (w : world It recordingDestination recordingRecorder),
    Type_ key = (typ, None) ->
    fetchedWrites src typ key = Some ws ->
    exists l,
      Copy_key src key w =
      (mkWorld (w_iter w)
         (mkRecording (rd_reply (w_dst w)) (rd_calls (w_dst w) ++ map snd ws)%list)
         (w_rec w ++ l)%list,
       Done tt) /\
      keysOf l = map (fun p => OnKey typ (Key key) (fst p)) ws /\
      errorsOf l =
      failures (repliesTo (rd_reply (w_dst w)) (rd_calls (w_dst w)) (map snd ws)).
Proof.
  intros RE Src It ITER SRC src key typ ws w HT Hf.
  unfold Copy_key. rewrite HT. cbn [is_nil negb].
  unfold fetchedWrites in Hf.
  destruct (typ =? SourceKeyTypeSkip) eqn:Hskip.
  { apply String.eqb_eq in Hskip. subst typ. discriminate Hf. }
  destruct (typ =? SourceKeyTypeString).
  { destruct (Get src key) as [val [e |]]; [discriminate |].
    injection Hf as <-. cbn [is_nil negb].
    eexists. split; [apply write_turn_any |].
    cbn [map fst snd repliesTo failures filter].
    destruct (rd_reply (w_dst w) (rd_calls (w_dst w)) (CallSet (Key key) val));
      split; reflexivity. }
  destruct (typ =? SourceKeyTypeHash).
  { destruct (HItems src key) as [items [e |]]; [discriminate |].
    injection Hf as <-. cbn [is_nil negb]. rewrite !map_map. cbn [fst snd].
    exact (range_writes_any items typ (Key key) (fun kv => [hi_Key kv])
             (fun kv => CallHSet (Key key) (hi_Key kv) (hi_Value kv)) _ _ w). }
  destruct (typ =? SourceKeyTypeList).
  { destruct (LItems src key) as [items [e |]]; [discriminate |].
    injection Hf as <-. cbn [is_nil negb]. rewrite !map_map. cbn [fst snd].
    exact (range_writes_any items typ (Key key) (fun item => [item])
             (fun item => CallLPush (Key key) item) _ _ w). }
  destruct (typ =? SourceKeyTypeSet).
  { destruct (SMembers src key) as [members [e |]]; [discriminate |].
    injection Hf as <-. cbn [is_nil negb]. rewrite !map_map. cbn [fst snd].
    exact (range_writes_any members typ (Key key) (fun member => [member])
             (fun member => CallSAdd (Key key) member) _ _ w). }
  destruct (typ =? SourceKeyTypeZSet).
  { destruct (ZMembers src key) as [members [e |]]; [discriminate |].
    injection Hf as <-. cbn [is_nil negb]. rewrite !map_map. cbn [fst snd].
    exact (range_writes_any members typ (Key key) (fun m => [zm_Key m])
             (fun m => CallZAdd (Key key) (zm_Key m) (zm_Score m)) _ _ w). }
  discriminate Hf.
Qed.

(** X7.  A key whose type resolution fails, or whose fetch fails, costs
    exactly one recorder call, an [Error] with that error; the destination
    receives nothing and no [Key] notification is made. *)
Theorem X7_type_or_fetch_failure_is_one_report :
  forall (RE : RegexpLib) (Src It Dst : Type)
         (ITER : SourceKeyIterator It) (SRC : Source Src It)
         (DST : Destination Dst)
         (src : Src) (key : SourceKey) (e : string)
         (w : world It Dst recordingRecorder),
    snd (Type_ key) = Some e \/
    (snd (Type_ key) = None /\ fetchError src (fst (Type_ key)) key = Some e) ->
    exists message kvs,
      Copy_key src key w =
      (mkWorld (w_iter w) (w_dst w)
               (w_rec w ++ [OnError message (Some e) kvs])%list,
       Done tt).
Proof.
  intros RE Src It Dst ITER SRC DST src key e w H.
  unfold Copy_key. destruct (Type_ key) as [typ err]. cbn [fst snd] in H.
  destruct H as [-> | [-> Hf]]; cbn [is_nil negb].
  - do 2 eexists. reflexivity.
  - unfold fetchError in Hf.
    destruct (typ =? SourceKeyTypeSkip) eqn:Hskip.
    { apply String.eqb_eq in Hskip. subst typ. discriminate Hf. }
    destruct (typ =? SourceKeyTypeString).
    { destruct (Get src key) as [val err]. cbn [snd] in Hf. subst err.
      do 2 eexists. reflexivity. }
    destruct (typ =? SourceKeyTypeHash).
    { destruct (HItems src key) as [val err]. cbn [snd] in Hf. subst err.
      do 2 eexists. reflexivity. }
    destruct (typ =? SourceKeyTypeList).
    { destruct (LItems src key) as [val err]. cbn [snd] in Hf. subst err.
      do 2 eexists. reflexivity. }
    destruct (typ =? SourceKeyTypeSet).
    { destruct (SMembers src key) as [val err]. cbn [snd] in Hf. subst err.
      do 2 eexists. reflexivity. }
    destruct (typ =? SourceKeyTypeZSet).
    { destruct (ZMembers src key) as [val err]. cbn [snd] in Hf. subst err.
      do 2 eexists. reflexivity. }
    discriminate Hf.
Qed.

(* ================================================================= *)
(** * More on the copy engine: what a run does and never does *)

Section CopyNeverCloses.
Context {RE : RegexpLib}.
Context {Src It Rec : Type}.
Context {ITER : SourceKeyIterator It} {SRC : Source Src It}.
Context {REC : CopyRecorder Rec}.

Let MW := M (It := It) (Dst := recordingDestination) (Rec := Rec).

Lemma writesOnly_same (A : Type) (c : MW A) :
  (forall w, w_dst (fst (c w)) = w_dst w) -> writesOnly c.
Proof.
  intros H w. exists []. rewrite H, app_nil_r. repeat split. intros [].
Qed.

Lemma writesOnly_bind (A B : Type) (c : MW A) (k : A -> MW B) :
  writesOnly c -> (forall a, writesOnly (k a)) -> writesOnly (bind c k).
Proof.
  intros Hc Hk w. destruct (Hc w) as (l & Hcalls & Hreply & Hl).
  unfold bind. destruct (c w) as [w' [a | reason |]]; cbn [fst] in *.
  - destruct (Hk a w') as (l' & Hcalls' & Hreply' & Hl').
    exists (l ++ l')%list. rewrite Hcalls', Hreply', Hcalls, Hreply, app_assoc.
    repeat split. intros Hin. apply in_app_or in Hin. tauto.
  - now exists l.
  - now exists l.
Qed.

Lemma writesOnly_write (call : DestinationCall) :
  call <> CallClose ->
  writesOnly (on_dst (fun d => rd_receive d call) : MW error).
Proof.
  intros Hcall w. exists [call]. repeat split.
  intros [H | []]. now apply Hcall.
Qed.

Lemma writesOnly_on_recorder (call : Rec -> Rec * outcome unit) :
  writesOnly (on_recorder call : MW unit).
Proof.
  apply writesOnly_same. intros w. unfold on_recorder.
  now destruct (call (w_rec w)).
Qed.

Lemma writesOnly_report (err : error) (message : string) (kvs : list any) :
  writesOnly (report err message kvs : MW unit).
Proof.
  unfold report. destruct (negb (is_nil err)).
  - apply writesOnly_on_recorder.
  - now apply writesOnly_same.
Qed.

Lemma writesOnly_range (A : Type) (xs : list A) (body : A -> MW unit) :
  (forall x, writesOnly (body x)) -> writesOnly (range xs body).
Proof.
  intros Hbody. induction xs as [| x xs IH]; cbn [range].
  - now apply writesOnly_same.
  - apply writesOnly_bind; [apply Hbody | intros _; exact IH].
Qed.

Lemma writesOnly_iter_Next : writesOnly (iter_Next : MW _).
Proof.
  apply writesOnly_same. intros w. unfold iter_Next.
  now destruct (iterNext (w_iter w)).
Qed.

Lemma writesOnly_iter_Close : writesOnly (iter_Close : MW _).
Proof.
  apply writesOnly_same. intros w. unfold iter_Close.
  now destruct (iterClose (w_iter w)).
Qed.

Ltac writes_turn call :=
  intros ?; apply writesOnly_bind; [apply writesOnly_on_recorder |];
  intros _; apply writesOnly_bind;
  [apply (writesOnly_write (call := call)); discriminate
  | intros ?; apply writesOnly_report].

Lemma writesOnly_Copy_key (src : Src) (key : SourceKey) :
  writesOnly (Copy_key src key : MW unit).
Proof.
  unfold Copy_key. destruct (Type_ key) as [typ err].
  destruct (negb (is_nil err)); [apply writesOnly_on_recorder |].
  destruct (typ =? SourceKeyTypeSkip); [now apply writesOnly_same |].
  destruct (typ =? SourceKeyTypeString).
  { destruct (Get src key) as [val e].
    destruct (negb (is_nil e)); [apply writesOnly_on_recorder |].
    revert typ. writes_turn (CallSet (Key key) val). }
  destruct (typ =? SourceKeyTypeHash).
  { destruct (HItems src key) as [items e].
    destruct (negb (is_nil e)); [apply writesOnly_on_recorder |].
    apply writesOnly_range.
    intros kv. revert typ.
    writes_turn (CallHSet (Key key) (hi_Key kv) (hi_Value kv)). }
  destruct (typ =? SourceKeyTypeList).
  { destruct (LItems src key) as [items e].
    destruct (negb (is_nil e)); [apply writesOnly_on_recorder |].
    apply writesOnly_range.
    intros item. revert typ. writes_turn (CallLPush (Key key) item). }
  destruct (typ =? SourceKeyTypeSet).
  { destruct (SMembers src key) as [items e].
    destruct (negb (is_nil e)); [apply writesOnly_on_recorder |].
    apply writesOnly_range.
    intros member. revert typ. writes_turn (CallSAdd (Key key) member). }
  destruct (typ =? SourceKeyTypeZSet).
  { destruct (ZMembers src key) as [items e].
    destruct (negb (is_nil e)); [apply writesOnly_on_recorder |].
    apply writesOnly_range.
    intros m. revert typ.
    writes_turn (CallZAdd (Key key) (zm_Key m) (zm_Score m)). }
  apply writesOnly_on_recorder.
Qed.

Lemma writesOnly_Copy_loop (src : Src) (fuel : nat) :
  writesOnly (Copy_loop fuel src : MW unit).
Proof.
  induction fuel as [| fuel IH]; cbn [Copy_loop].
  - now apply writesOnly_same.
  - apply writesOnly_bind; [apply writesOnly_iter_Next |].
    intros [key err]. destruct (negb (is_nil err)).
    + apply writesOnly_bind; [apply writesOnly_on_recorder | intros _; exact IH].
    + destruct key as [key |]; [| now apply writesOnly_same].
      apply writesOnly_bind; [apply writesOnly_Copy_key | intros _; exact IH].
Qed.

Lemma writesOnly_defer (A : Type) (f : MW unit) (body : MW A) :
  writesOnly f -> writesOnly body -> writesOnly (defer f body).
Proof.
  intros Hf Hb w. destruct (Hb w) as (l & Hcalls & Hreply & Hl).
  unfold defer. destruct (body w) as [w' [a | reason |]]; cbn [fst] in *.
  - destruct (Hf w') as (l' & Hcalls' & Hreply' & Hl').
    exists (l ++ l')%list.
    destruct (f w') as [w'' [[] | reason' |]]; cbn [fst] in *;
      rewrite Hcalls', Hreply', Hcalls, Hreply, app_assoc; repeat split;
      intros Hin; apply in_app_or in Hin; tauto.
  - destruct (Hf w') as (l' & Hcalls' & Hreply' & Hl').
    exists (l ++ l')%list.
    destruct (f w') as [w'' [[] | reason' |]]; cbn [fst] in *;
      rewrite Hcalls', Hreply', Hcalls, Hreply, app_assoc; repeat split;
      intros Hin; apply in_app_or in Hin; tauto.
  - now exists l.
Qed.
End CopyNeverCloses.

(** X8.  [Copy] never closes the destination.  With any source, any
    recorder and any bound on the loop, whether it returns or panics, the
    destination keeps the calls it had received and receives only writes
    after them. *)
Theorem X8_Copy_never_closes_the_destination :
  forall (RE : RegexpLib) (Src It Rec : Type)
         (ITER : SourceKeyIterator It) (SRC : Source Src It)
         (REC : CopyRecorder Rec)
         (fuel : nat) (src : Src) (dst : recordingDestination) (recorder : Rec),
    exists l,
      rd_calls (w_dst (fst (Copy fuel src dst recorder))) = (rd_calls dst ++ l)%list /\
      ~ In CallClose l.
Proof.
  intros RE Src It Rec ITER SRC REC fuel src dst recorder.
  assert (H : writesOnly (defer Copy_deferred (Copy_body fuel src)
                          : M (It := It) (Dst := recordingDestination) (Rec := Rec) unit)).
  { apply writesOnly_defer.
    - unfold Copy_deferred. apply writesOnly_bind; [apply writesOnly_iter_Close |].
      intros err. apply writesOnly_report.
    - unfold Copy_body. apply writesOnly_bind; [apply writesOnly_Copy_loop |].
      intros _. apply writesOnly_bind; [now apply writesOnly_same |].
      intros err. apply writesOnly_bind; [apply writesOnly_report |].
      intros _. apply writesOnly_on_recorder. }
  destruct (H (mkWorld (Iterator src) dst recorder)) as (l & Hcalls & _ & Hl).
  exists l. split; [exact Hcalls | exact Hl].
Qed.

Section CopyReadsAhead.
Context {RE : RegexpLib}.
Context {Src It Dst Rec : Type}.
Context {ITER : SourceKeyIterator It} {SRC : Source Src It}.
Context {DST : Destination Dst} {REC : CopyRecorder Rec}.

Let MW := M (It := It) (Dst := Dst) (Rec := Rec).

Lemma still_ret (A : Type) (a : A) : still (ret a : MW A).
Proof. intros w. reflexivity. Qed.

Lemma still_on_dst (call : Dst -> Dst * error) : still (on_dst call : MW error).
Proof. intros w. unfold on_dst. now destruct (call (w_dst w)). Qed.

Lemma still_on_recorder (call : Rec -> Rec * outcome unit) :
  still (on_recorder call : MW unit).
Proof. intros w. unfold on_recorder. now destruct (call (w_rec w)). Qed.

Lemma still_iter_Error : still (iter_Error : MW _).
Proof. intros w. reflexivity. Qed.

Lemma still_bind (A B : Type) (c : MW A) (k : A -> MW B) :
  still c -> (forall a, still (k a)) -> still (bind c k).
Proof.
  intros Hc Hk w. specialize (Hc w). unfold bind.
  destruct (c w) as [w' [a | reason |]]; cbn [fst] in *; [| exact Hc | exact Hc].
  now rewrite Hk.
Qed.

Lemma still_report (err : error) (message : string) (kvs : list any) :
  still (report err message kvs : MW unit).
Proof.
  unfold report. destruct (negb (is_nil err)).
  - apply still_on_recorder.
  - apply still_ret.
Qed.

Lemma still_range (A : Type) (xs : list A) (body : A -> MW unit) :
  (forall x, still (body x)) -> still (range xs body).
Proof.
  intros Hbody. induction xs as [| x xs IH]; cbn [range].
  - apply still_ret.
  - apply still_bind; [apply Hbody | intros _; exact IH].
Qed.

Ltac still_step :=
  first [ apply still_on_recorder | apply still_on_dst | apply still_report
        | apply still_ret | apply still_range; intros ?
        | apply still_bind; [| intros ?] ].

Lemma still_Copy_key (src : Src) (key : SourceKey) :
  still (Copy_key src key : MW unit).
Proof.
  unfold Copy_key. destruct (Type_ key) as [typ err].
  destruct (negb (is_nil err)); [still_step |].
  destruct (typ =? SourceKeyTypeSkip); [still_step |].
  destruct (typ =? SourceKeyTypeString).
  { destruct (Get src key) as [val e]. destruct (negb (is_nil e));
      unfold dst_Set, recorder_Error, recorder_Key; repeat still_step. }
  destruct (typ =? SourceKeyTypeHash).
  { destruct (HItems src key) as [items e]. destruct (negb (is_nil e));
      unfold dst_HSet, recorder_Error, recorder_Key; repeat still_step. }
  destruct (typ =? SourceKeyTypeList).
  { destruct (LItems src key) as [items e]. destruct (negb (is_nil e));
      unfold dst_LPush, recorder_Error, recorder_Key; repeat still_step. }
  destruct (typ =? SourceKeyTypeSet).
  { destruct (SMembers src key) as [items e]. destruct (negb (is_nil e));
      unfold dst_SAdd, recorder_Error, recorder_Key; repeat still_step. }
  destruct (typ =? SourceKeyTypeZSet).
  { destruct (ZMembers src key) as [items e]. destruct (negb (is_nil e));
      unfold dst_ZAdd, recorder_Error, recorder_Key; repeat still_step. }
  still_step.
Qed.

Lemma drain_step (n : nat) (it : It) :
  fst (drain (Datatypes.S n) it) = fst (drain n (fst (iterNext it))).
Proof.
  cbn [drain]. destruct (iterNext it) as [it' [key err]]. cbn [fst].
  now destruct (drain n it').
Qed.

Lemma advances_still (n : nat) (A : Type) (c : MW A) : still c -> advances n c.
Proof.
  intros Hc w. exists 0. split; [lia | exact (Hc w)].
Qed.

Lemma advances_then_still (n : nat) (A B : Type) (c : MW A) (k : A -> MW B) :
  advances n c -> (forall a, still (k a)) -> advances n (bind c k).
Proof.
  intros Hc Hk w. destruct (Hc w) as (m & Hm & Hit). exists m.
  split; [exact Hm |]. unfold bind.
  destruct (c w) as [w' [a | reason |]]; cbn [fst] in *;
    [| exact Hit | exact Hit].
  now rewrite Hk.
Qed.

Lemma advances_after_still (n : nat) (A B : Type) (c : MW A) (k : A -> MW B) :
  still c -> (forall a, advances n (k a)) -> advances n (bind c k).
Proof.
  intros Hc Hk w. specialize (Hc w). unfold bind.
  destruct (c w) as [w' [a | reason |]]; cbn [fst] in *.
  - destruct (Hk a w') as (m & Hm & Hit). exists m.
    split; [exact Hm |]. now rewrite Hit, Hc.
  - exists 0. split; [lia | exact Hc].
  - exists 0. split; [lia | exact Hc].
Qed.

Lemma advances_after_Next (n : nat) (B : Type)
    (k : option SourceKey * error -> MW B) :
  (forall r, advances n (k r)) -> advances (Datatypes.S n) (bind iter_Next k).
Proof.
  intros Hk w. unfold bind, iter_Next.
  destruct (iterNext (w_iter w)) as [it r] eqn:HN.
  destruct (Hk r (mkWorld it (w_dst w) (w_rec w))) as (m & Hm & Hit).
  exists (Datatypes.S m). split; [lia |].
  rewrite drain_step, HN. exact Hit.
Qed.

Lemma advances_Copy_loop (src : Src) (fuel : nat) :
  advances fuel (Copy_loop fuel src : MW unit).
Proof.
  induction fuel as [| fuel IH]; cbn [Copy_loop].
  - apply advances_still. intros w. reflexivity.
  - apply advances_after_Next. intros [key err]. destruct (negb (is_nil err)).
    + apply advances_after_still; [apply still_on_recorder | intros _; exact IH].
    + destruct key as [key |]; [| apply advances_still, still_ret].
      apply advances_after_still; [apply still_Copy_key | intros _; exact IH].
Qed.

Lemma advances_Copy_body (src : Src) (fuel : nat) :
  advances fuel (Copy_body fuel src : MW unit).
Proof.
  unfold Copy_body. apply advances_then_still; [apply advances_Copy_loop |].
  intros _. apply still_bind; [apply still_iter_Error |].
  intros err. apply still_bind; [apply still_report |].
  intros _. apply still_on_recorder.
Qed.
End CopyReadsAhead.

(** X9.  [Copy] closes the iterator once, as its last call on it and on
    every way out.  Whether it returns or a panic of the recorder unwinds
    it, the statements after the [defer] leave the iterator that the source
    gave after some [Next] calls, at most one for each turn of the loop, and
    the iterator that [Copy] leaves is the result of [Close] on that
    iterator. *)
Theorem X9_Copy_closes_the_iterator :
  forall (RE : RegexpLib) (Src It Dst Rec : Type)
         (ITER : SourceKeyIterator It) (SRC : Source Src It)
         (DST : Destination Dst) (REC : CopyRecorder Rec)
         (fuel : nat) (src : Src) (dst : Dst) (recorder : Rec),
    snd (Copy fuel src dst recorder) <> OutOfFuel ->
    exists k,
      k <= fuel /\
      w_iter (fst (Copy_body fuel src (mkWorld (Iterator src) dst recorder)))
        = fst (drain k (Iterator src)) /\
      w_iter (fst (Copy fuel src dst recorder))
        = fst (iterClose (fst (drain k (Iterator src)))).
Proof.
  intros RE Src It Dst Rec ITER SRC DST REC fuel src dst recorder.
  destruct (@advances_Copy_body _ _ _ _ _ _ _ _ _ src fuel
              (mkWorld (Iterator src) dst recorder)) as (k & Hk & Hit).
  cbn [w_iter] in Hit. intros Hout. exists k.
  split; [exact Hk |]. split; [exact Hit |]. rewrite <- Hit.
  revert Hout. unfold Copy, defer.
  destruct (Copy_body fuel src (mkWorld (Iterator src) dst recorder))
    as [w' [[] | reason |]]; cbn [snd fst]; intros Hout; [| | contradiction];
    unfold Copy_deferred, bind, iter_Close, report, recorder_Error, on_recorder, ret;
    destruct (iterClose (w_iter w')) as [it err]; cbn [fst];
    destruct err; cbn [is_nil negb w_rec w_iter w_dst];
    try destruct (recError _ _ _ _) as [r [[] | reason' |]]; reflexivity.
Qed.

Section CopyEmissions.
Context {RE : RegexpLib}.
Context {Src It Dst : Type}.
Context {ITER : SourceKeyIterator It} {SRC : Source Src It}.
Context {DST : Destination Dst}.

Let MR := M (It := It) (Dst := Dst) (Rec := recordingRecorder).

Variable P : RecorderCall -> Prop.

Lemma emits_ret (A : Type) (a : A) : emits P (ret a : MR A).
Proof.
  intros w. exists (w_dst w), [], a. rewrite app_nil_r.
  destruct w; simpl. split; [reflexivity | constructor].
Qed.

Lemma emits_bind (A B : Type) (c : MR A) (k : A -> MR B) :
  emits P c -> (forall a, emits P (k a)) -> emits P (bind c k).
Proof.
  intros Hc Hk w. destruct (Hc w) as (d & l & a & Hcw & Hl).
  destruct (Hk a (mkWorld (w_iter w) d (w_rec w ++ l)%list))
    as (d' & l' & b & Hkw & Hl').
  exists d', (l ++ l')%list, b. unfold bind. rewrite Hcw, Hkw.
  cbn [w_iter w_rec]. rewrite app_assoc. split; [reflexivity |].
  apply Forall_app. now split.
Qed.

Lemma emits_recorder_Error (message : string) (err : error) (kvs : list any) :
  P (OnError message err kvs) ->
  emits P (recorder_Error message err kvs : MR unit).
Proof.
  intros HP w. exists (w_dst w), [OnError message err kvs], tt.
  split; [reflexivity | now repeat constructor].
Qed.

Lemma emits_recorder_Key (typ : SourceKeyType) (key : string) (item : list string) :
  P (OnKey typ key item) ->
  emits P (recorder_Key typ key item : MR unit).
Proof.
  intros HP w. exists (w_dst w), [OnKey typ key item], tt.
  split; [reflexivity | now repeat constructor].
Qed.

Lemma emits_on_dst (call : Dst -> Dst * error) :
  emits P (on_dst call : MR error).
Proof.
  intros w. unfold on_dst. destruct (call (w_dst w)) as [d err].
  exists d, [], err. rewrite app_nil_r. split; [reflexivity | constructor].
Qed.

Lemma emits_report (err : error) (message : string) (kvs : list any) :
  (forall e, P (OnError message (Some e) kvs)) ->
  emits P (report err message kvs : MR unit).
Proof.
  intros HP. unfold report. destruct err; cbn [is_nil negb].
  - apply emits_recorder_Error, HP.
  - apply emits_ret.
Qed.

Lemma emits_range (A : Type) (xs : list A) (body : A -> MR unit) :
  (forall x, emits P (body x)) -> emits P (range xs body).
Proof.
  intros Hbody. induction xs as [| x xs IH]; cbn [range].
  - apply emits_ret.
  - apply emits_bind; [apply Hbody | intros _; exact IH].
Qed.

Hypothesis P_Key : forall typ key item, P (OnKey typ key item).
Hypothesis P_Error : forall message e kvs, P (OnError message (Some e) kvs).

Ltac emits_step :=
  first [ apply emits_recorder_Error; apply P_Error
        | apply emits_recorder_Key; apply P_Key
        | apply emits_on_dst
        | apply emits_report; intros ?; apply P_Error
        | apply emits_ret
        | apply emits_range; intros ?
        | apply emits_bind; [| intros ?] ].

(** The loop body on a key whose type fails to resolve or resolves to one
    of the six constants: every call it makes is a [Key] notification or an
    [Error] with a non-nil error. *)
Lemma emits_Copy_key (src : Src) (key : SourceKey) :
  snd (Type_ key) <> None \/ In (fst (Type_ key)) definedTypes ->
  emits P (Copy_key src key : MR unit).
Proof.
  intros Hdef. unfold Copy_key.
  destruct (Type_ key) as [typ [te |]]; cbn [fst snd is_nil negb] in *.
  { emits_step. }
  destruct Hdef as [Hdef | Hdef]; [contradiction |].
  destruct (String.eqb_spec typ SourceKeyTypeSkip); [emits_step |].
  destruct (String.eqb_spec typ SourceKeyTypeString).
  { destruct (Get src key) as [val [fe |]]; cbn [is_nil negb];
      unfold dst_Set; repeat emits_step. }
  destruct (String.eqb_spec typ SourceKeyTypeHash).
  { destruct (HItems src key) as [items [fe |]]; cbn [is_nil negb];
      unfold dst_HSet; repeat emits_step. }
  destruct (String.eqb_spec typ SourceKeyTypeList).
  { destruct (LItems src key) as [items [fe |]]; cbn [is_nil negb];
      unfold dst_LPush; repeat emits_step. }
  destruct (String.eqb_spec typ SourceKeyTypeSet).
  { destruct (SMembers src key) as [items [fe |]]; cbn [is_nil negb];
      unfold dst_SAdd; repeat emits_step. }
  destruct (String.eqb_spec typ SourceKeyTypeZSet).
  { destruct (ZMembers src key) as [items [fe |]]; cbn [is_nil negb];
      unfold dst_ZAdd; repeat emits_step. }
  exfalso. unfold definedTypes in Hdef. simpl in Hdef.
  repeat (destruct Hdef as [Hdef | Hdef]; [congruence |]). exact Hdef.
Qed.
End CopyEmissions.

(** X10.  [Copy] gives the recorder a nil error for a key exactly when the
    type of the key resolves, without error, to a value that is none of the
    six constants.  In every other case each [Error] call it makes for the
    key carries an error. *)
Theorem X10_nil_error_only_for_unknown_type :
  forall (RE : RegexpLib) (Src It Dst : Type)
         (ITER : SourceKeyIterator It) (SRC : Source Src It)
         (DST : Destination Dst)
         (src : Src) (key : SourceKey) (w : world It Dst recordingRecorder),
    exists d l,
      Copy_key src key w = (mkWorld (w_iter w) d (w_rec w ++ l)%list, Done tt) /\
      (Exists nilReport l <->
       snd (Type_ key) = None /\ ~ In (fst (Type_ key)) definedTypes).
Proof.
  intros RE Src It Dst ITER SRC DST src key w.
  destruct (Type_ key) as [typ err] eqn:HT. cbn [fst snd].
  destruct err as [e |].
  - destruct (@emits_Copy_key _ _ _ _ _ _ (fun c => ~ nilReport c)
                ltac:(intros; exact (fun H => H)) ltac:(intros; exact (fun H => H))
                src key ltac:(rewrite HT; left; discriminate) w)
      as (d & l & [] & Hrun & Hl).
    exists d, l. split; [exact Hrun |]. split.
    + intros Hex. apply Exists_exists in Hex. destruct Hex as (c & Hin & Hc).
      rewrite Forall_forall in Hl. now destruct (Hl c Hin).
    + intros [H _]. discriminate H.
  - destruct (in_dec string_dec typ definedTypes) as [Hin | Hnin].
    + destruct (@emits_Copy_key _ _ _ _ _ _ (fun c => ~ nilReport c)
                  ltac:(intros; exact (fun H => H)) ltac:(intros; exact (fun H => H))
                  src key ltac:(rewrite HT; right; exact Hin) w)
        as (d & l & [] & Hrun & Hl).
      exists d, l. split; [exact Hrun |]. split.
      * intros Hex. apply Exists_exists in Hex. destruct Hex as (c & Hc & Hn).
        rewrite Forall_forall in Hl. now destruct (Hl c Hc).
      * intros [_ H]. contradiction.
    + exists (w_dst w), [OnError "unsupported key type" None
                          [anyString "type"; anyType typ; anyString "key";
                           anyString (Key key)]].
      split.
      * now rewrite (Copy_key_unsupported src key w HT Hnin).
      * split; [intros _; now split |].
        intros _. constructor. exact I.
Qed.

(** X11.  Over a source whose iterator never fails to close, as the
    adapter over a LevelDB iterator is, take a [Copy] whose iterator signals
    its end.  On a recording recorder it returns and [Finish] is the final
    call, made once; on any recorder on which each call of the run returns,
    [Copy] returns as well and the recorder has received the same calls, the
    final one [Finish]. *)
Theorem X11_Finish_is_last_when_Close_succeeds :
  forall (RE : RegexpLib) (Src It Dst Rec : Type)
         (ITER : SourceKeyIterator It) (SRC : Source Src It)
         (DST : Destination Dst) (REC : CopyRecorder Rec)
         (src : Src) (dst : Dst) (recorder : Rec) (n fuel : nat),
    (forall it : It, snd (iterClose it) = None) ->
    exhaustsWithin n (Iterator src) = true ->
    n < fuel ->
    exists (it : It) (d : Dst) (before : list RecorderCall),
      (forall log : recordingRecorder,
         Copy fuel src dst log =
         (mkWorld it d (log ++ before ++ [OnFinish])%list, Done tt)) /\
      ~ In OnFinish before /\
      (allReturn (before ++ [OnFinish]) recorder ->
       Copy fuel src dst recorder =
       (mkWorld it d (replayOn (before ++ [OnFinish]) recorder), Done tt)).
Proof.
  intros RE Src It Dst Rec ITER SRC DST REC src dst recorder n fuel Hclose Hex Hlt.
  destruct (@Copy_run_returns _ _ _ _ _ _ _ _ REC src dst recorder n fuel Hex Hlt)
    as (it & d & before & Hlog & Hb & Hrec).
  rewrite Hclose in Hlog, Hrec. cbn [closeReport] in Hlog, Hrec.
  exists (fst (iterClose it)), d, before.
  split; [exact Hlog |]. split; [exact Hb | exact Hrec].
Qed.

(* ================================================================= *)
(** * More on the prefixing destination *)

Lemma string_app_assoc (a b c : string) : (a ++ b) ++ c = a ++ b ++ c.
Proof.
  induction a as [| x a IH]; simpl; [reflexivity | now rewrite IH].
Qed.

Lemma string_app_inv_head (p a b : string) : p ++ a = p ++ b -> a = b.
Proof.
  induction p as [| x p IH]; simpl; intros H; [exact H |].
  injection H as H. now apply IH.
Qed.

(** X12.  Decorators nest with the inner prefix first: a write through a
    decorator with prefix [p1] over a decorator with prefix [p2] reaches the
    destination under them with the key [p2 ++ p1 ++ k], as one decorator
    with the prefix [p2 ++ p1] would send it, and answers its error. *)
Theorem X12_nested_prefixes :
  forall (D : Type) (DST : Destination D) (p1 p2 : string) (d : D)
         (k f : string) (v : bytes) (score : float64),
    let outer := mkPrefixed (mkPrefixed d p2) p1 in
    let one := mkPrefixed d (p2 ++ p1) in
    let reach (r : prefixedDestination (prefixedDestination D) * error) :=
      (pd_s (pd_s (fst r)), snd r) in
    let reach1 (r : prefixedDestination D * error) := (pd_s (fst r), snd r) in
    reach (dstSet outer k v) = dstSet d (p2 ++ p1 ++ k) v /\
    reach (dstHSet outer k f v) = dstHSet d (p2 ++ p1 ++ k) f v /\
    reach (dstSAdd outer k f) = dstSAdd d (p2 ++ p1 ++ k) f /\
    reach (dstZAdd outer k f score) = dstZAdd d (p2 ++ p1 ++ k) f score /\
    reach (dstLPush outer k f) = dstLPush d (p2 ++ p1 ++ k) f /\
    reach (dstSet outer k v) = reach1 (dstSet one k v) /\
    reach (dstHSet outer k f v) = reach1 (dstHSet one k f v) /\
    reach (dstSAdd outer k f) = reach1 (dstSAdd one k f) /\
    reach (dstZAdd outer k f score) = reach1 (dstZAdd one k f score) /\
    reach (dstLPush outer k f) = reach1 (dstLPush one k f).
Proof.
  intros D DST p1 p2 d k f v score. cbv zeta.
  cbn [dstSet dstHSet dstSAdd dstZAdd dstLPush prefixedDestination_Destination].
  unfold prefixedDestination_Set, prefixedDestination_HSet, prefixedDestination_SAdd,
    prefixedDestination_ZAdd, prefixedDestination_LPush, forward, prefixedKey.
  cbn [pd_s pd_prefix fst snd
       dstSet dstHSet dstSAdd dstZAdd dstLPush prefixedDestination_Destination].
  unfold prefixedDestination_Set, prefixedDestination_HSet, prefixedDestination_SAdd,
    prefixedDestination_ZAdd, prefixedDestination_LPush, forward, prefixedKey.
  cbn [pd_s pd_prefix fst snd]. rewrite !string_app_assoc.
  repeat split; try reflexivity; symmetry; apply surjective_pairing.
Qed.

(** X13.  Prefixing keeps keys apart: two keys that a decorator sends to
    the same key of its inner destination are the same key. *)
Theorem X13_prefixedKey_injective :
  forall (D : Type) (ps : prefixedDestination D) (k1 k2 : string),
    prefixedKey ps k1 = prefixedKey ps k2 -> k1 = k2.
Proof.
  intros D ps k1 k2. unfold prefixedKey. apply string_app_inv_head.
Qed.

(* ================================================================= *)
(** * More on the key-value source adapter *)

(** X14.  Without the filter, the accessors of the adapter return what was
    materialized: for a key that [Next] of the adapter yields, each
    accessor returns, with no error, the one element built from the item
    that the parser made of the row just read. *)
Theorem X14_adapter_key_carries_its_item :
  forall (RE : RegexpLib) (T DB : Type) (KVI : KeyValueIterator T)
         (s : keyValueSource DB) (k k' : keyValueIterator T) (key : SourceKey),
    keyValueIterator_Next k = (k', (Some key, None)) ->
    exists rawKey val item,
      snd (kvNext (kvi_iter k)) = (rawKey, val, None) /\
      kvi_parser k rawKey val = (item, None) /\
      keyValueSource_Get s key = (StringValue item, None) /\
      keyValueSource_HItems s key
        = ([mkHashItem (HashField item) (HashFieldValue item)], None) /\
      keyValueSource_LItems s key = ([ListItem item], None) /\
      keyValueSource_SMembers s key = ([SetMember item], None) /\
      keyValueSource_ZMembers s key
        = ([mkZSetMember (ZSetMember item) (ZSetScore item)], None).
Proof.
  intros RE T DB KVI s k k' key HN.
  destruct (keyValueIterator_Next_yields k HN)
    as (rawKey & val & item & Hrow & Hparse & -> & _).
  exists rawKey, val, item. repeat split; assumption.
Qed.

(** X15.  A row with an empty key is taken for the end of the store: [Next]
    of the adapter returns no key and no error and records nothing, so that
    [Copy] ends its loop there and goes on to [Finish] with no report; the
    row is not parsed and the rows after it are not read. *)
Theorem X15_empty_key_ends_the_iteration :
  forall (RE : RegexpLib) (T Src Dst : Type) (KVI : KeyValueIterator T)
         (SRC : Source Src (keyValueIterator T)) (DST : Destination Dst)
         (src : Src) (fuel : nat)
         (w : world (keyValueIterator T) Dst recordingRecorder)
         (it : T) (val : bytes),
    kvi_err (w_iter w) = None ->
    kvNext (kvi_iter (w_iter w)) = (it, ("", val, None)) ->
    let k' := mkKeyValueIterator it (kvi_parser (w_iter w)) None in
    keyValueIterator_Next (w_iter w) = (k', (None, None)) /\
    Copy_body (Datatypes.S fuel) src w =
    (mkWorld k' (w_dst w) (w_rec w ++ [OnFinish])%list, Done tt).
Proof.
  intros RE T Src Dst KVI SRC DST src fuel w it val Herr HN k'.
  assert (Hnext : keyValueIterator_Next (w_iter w) = (k', (None, None))).
  { unfold keyValueIterator_Next. rewrite Herr, HN. reflexivity. }
  assert (Hiter : iterNext (w_iter w) = (k', (None, None))) by exact Hnext.
  split; [exact Hnext |].
  unfold Copy_body. unfold bind at 1.
  rewrite (Copy_loop_end fuel src w Hiter). reflexivity.
Qed.

(* ================================================================= *)
(** * The LevelDB iterator under the adapter *)

Section LevelDBFacts.
Context {RE : RegexpLib} {L : Type} {LDB : LevelIterator L}.

Lemma levelDB_Next_keeps_no_error (k : keyValueIterator (levelDBIter L)) :
  kvi_err k = None ->
  kvi_err (fst (keyValueIterator_Next k)) = None.
Proof.
  intros Herr. unfold keyValueIterator_Next. rewrite Herr. cbn [is_nil negb].
  cbn [kvNext levelDBIter_KeyValueIterator]. unfold levelDBIter_Next.
  destruct (ldbNext (ldi_iter (kvi_iter k))) as [it [|]]; cbn [negb is_nil].
  - destruct (string_of_list_byte (ldbKey it) =? ""); [reflexivity |].
    destruct (kvi_parser k _ _) as [item [e |]]; reflexivity.
  - reflexivity.
Qed.
End LevelDBFacts.

(** X16.  The adapter over a LevelDB iterator never records a read error
    and never fails to close: after any number of [Next] calls on an
    iterator that has no error, [Error] returns nil and [Close] returns
    nil. *)
Theorem X16_levelDB_never_records_an_error :
  forall (RE : RegexpLib) (L : Type) (LDB : LevelIterator L)
         (k : keyValueIterator (levelDBIter L)) (n : nat),
    kvi_err k = None ->
    let k' := Nat.iter n (fun j => fst (keyValueIterator_Next j)) k in
    keyValueIterator_Error k' = None /\
    snd (keyValueIterator_Close k') = None.
Proof.
  intros RE L LDB k n Herr. cbv zeta. split.
  - induction n as [| n IH]; [exact Herr |].
    rewrite Nat.iter_succ. now apply levelDB_Next_keeps_no_error.
  - unfold keyValueIterator_Close. cbn [kvClose levelDBIter_KeyValueIterator].
    reflexivity.
Qed.

(** X17.  An entry of the database whose key is empty ends the iteration:
    the LevelDB iterator stands on an entry, but the adapter returns no key
    and no error, as at the end of the store, and the entry is not parsed. *)
Theorem X17_levelDB_empty_key_entry_ends_the_iteration :
  forall (RE : RegexpLib) (L : Type) (LDB : LevelIterator L)
         (k : keyValueIterator (levelDBIter L)) (it : L),
    kvi_err k = None ->
    ldbNext (ldi_iter (kvi_iter k)) = (it, true) ->
    ldbKey it = [] ->
    keyValueIterator_Next k =
    (mkKeyValueIterator (mkLevelDBIter it) (kvi_parser k) None, (None, None)).
Proof.
  intros RE L LDB k it Herr HN Hkey. unfold keyValueIterator_Next.
  rewrite Herr. cbn [is_nil negb kvNext levelDBIter_KeyValueIterator].
  unfold levelDBIter_Next. rewrite HN, Hkey. reflexivity.
Qed.

(* ================================================================= *)
(** * The server source *)

Section ServerSourceFacts.
Context {RE : RegexpLib}.

(** Draining the keys that the iterator holds. *)
Lemma drain_buffered (post : list SourceKey) :
  forall (pre : list SourceKey) (cl : redisClient) (err : error) (cur : N)
         (fin : bool),
    drain (List.length post)
      (mkServerKeyIterator cl err cur fin (pre ++ post) (List.length pre))
    = (mkServerKeyIterator cl err cur fin (pre ++ post) (List.length (pre ++ post)),
       post).
Proof.
  induction post as [| k post IH]; intros pre cl err cur fin.
  - cbn [List.length drain]. now rewrite app_nil_r.
  - cbn [List.length drain iterNext serverKeyIterator_SourceKeyIterator].
    unfold serverKeyIterator_Next.
    cbn [ski_finished ski_keys ski_idx ski_s ski_err ski_cursor].
    assert (Hlt : (List.length (pre ++ k :: post) <=? List.length pre)%nat = false).
    { apply Nat.leb_gt. rewrite length_app. cbn [List.length]. lia. }
    rewrite Hlt, andb_false_r.
    cbn [ski_finished ski_keys ski_idx ski_s ski_err ski_cursor]. rewrite Hlt.
    rewrite nth_error_app2, Nat.sub_diag by lia. cbn [nth_error].
    replace (pre ++ k :: post)%list with ((pre ++ [k]) ++ post)%list
      by (now rewrite <- app_assoc).
    replace (Datatypes.S (List.length pre)) with (List.length (pre ++ [k]))
      by (rewrite length_app; cbn [List.length]; lia).
    now rewrite IH.
Qed.

Lemma Key_newServerSourceKey (cl : redisClient) (key : string) :
  Key (newServerSourceKey cl key) = key.
Proof.
  unfold newServerSourceKey. now destruct (cl_Type cl key).
Qed.

Lemma serverKeyIterator_Next_finished (ss : serverKeyIterator) :
  ski_finished ss = true ->
  (List.length (ski_keys ss) <= ski_idx ss)%nat ->
  serverKeyIterator_Next ss = (ss, (None, None)).
Proof.
  intros Hfin Hidx. unfold serverKeyIterator_Next. rewrite Hfin. cbn [negb andb].
  apply Nat.leb_le in Hidx. now rewrite Hidx.
Qed.
End ServerSourceFacts.

(** X20.  A failed scan and an empty page both end the iteration for good,
    whatever cursor came with the page: [Next] returns no key and no error,
    [Error] returns the scan error if there was one, and every later [Next]
    returns no key and leaves the iterator as it is, asking the server
    nothing more. *)
Theorem X20_scan_failure_or_empty_page_ends_the_iteration :
  forall (RE : RegexpLib) (ss : serverKeyIterator)
         (keys : list string) (c : N) (err : option redisError),
    ski_err ss = None ->
    ski_finished ss = false ->
    (List.length (ski_keys ss) <= ski_idx ss)%nat ->
    cl_Scan (ski_s ss) (ski_cursor ss) = (keys, c, err) ->
    err <> None \/ keys = [] ->
    exists ss',
      serverKeyIterator_Next ss = (ss', (None, None)) /\
      serverKeyIterator_Error ss' = replyError err /\
      forall n : nat,
        serverKeyIterator_Next
          (Nat.iter n (fun j => fst (serverKeyIterator_Next j)) ss')
        = (ss', (None, None)).
Proof.
  intros RE ss keys c err Herr Hfin Hidx Hscan Hend.
  assert (Hleb : (List.length (ski_keys ss) <=? ski_idx ss)%nat = true)
    by now apply Nat.leb_le.
  assert (Hstay : forall ss', serverKeyIterator_Next ss' = (ss', (None, None)) ->
            forall n, serverKeyIterator_Next
                        (Nat.iter n (fun j => fst (serverKeyIterator_Next j)) ss')
                      = (ss', (None, None))).
  { intros ss' H n.
    assert (Hfix : Nat.iter n (fun j => fst (serverKeyIterator_Next j)) ss' = ss').
    { induction n as [| n IH]; [reflexivity |].
      now rewrite Nat.iter_succ, IH, H. }
    now rewrite Hfix. }
  unfold serverKeyIterator_Next at 1. rewrite Hfin, Hleb. cbn [negb andb].
  unfold serverKeyIterator_fetch. rewrite Herr, Hscan. cbn [is_nil negb].
  destruct err as [re |].
  - assert (Hre : negb (is_nil (replyError (Some re))) = true)
      by (destruct re; reflexivity).
    rewrite Hre. cbn [ski_keys ski_idx]. rewrite Hleb.
    eexists. split; [reflexivity |]. split; [reflexivity |].
    apply Hstay. now apply serverKeyIterator_Next_finished.
  - destruct Hend as [H | ->]; [contradiction |].
    cbn [replyError is_nil negb List.length Nat.eqb map ski_keys ski_idx Nat.leb].
    rewrite orb_true_r.
    eexists. split; [reflexivity |]. split; [reflexivity |].
    apply Hstay. apply serverKeyIterator_Next_finished; cbn; [reflexivity | lia].
Qed.

(** X21.  The iterator yields the keys of a page in the order of the page,
    with one scan: when it has to fetch and the scan answers a page that is
    not empty, as many [Next] calls as the page has keys yield the keys of
    the page, in order; the iterator then holds the cursor of the reply and
    is finished exactly when that cursor is 0. *)
Theorem X21_page_is_yielded_in_order :
  forall (RE : RegexpLib) (ss : serverKeyIterator) (keys : list string) (c : N),
    ski_err ss = None ->
    ski_finished ss = false ->
    (List.length (ski_keys ss) <= ski_idx ss)%nat ->
    cl_Scan (ski_s ss) (ski_cursor ss) = (keys, c, None) ->
    keys <> [] ->
    let page := map (newServerSourceKey (ski_s ss)) keys in
    drain (List.length keys) ss =
    (mkServerKeyIterator (ski_s ss) None c (c <=? 0)%N page (List.length keys), page) /\
    map Key page = keys.
Proof.
  intros RE ss keys c Herr Hfin Hidx Hscan Hne page.
  assert (Hleb : (List.length (ski_keys ss) <=? ski_idx ss)%nat = true)
    by now apply Nat.leb_le.
  assert (Hlen : List.length page = List.length keys) by apply length_map.
  split.
  - destruct keys as [| key0 keys']; [contradiction |].
    pose (fetched := mkServerKeyIterator (ski_s ss) None c (c <=? 0)%N page 0).
    assert (Hfetch : serverKeyIterator_Next ss = serverKeyIterator_Next fetched).
    { unfold serverKeyIterator_Next at 1. rewrite Hfin, Hleb. cbn [negb andb].
      unfold serverKeyIterator_fetch. rewrite Herr, Hscan.
      cbn [is_nil negb replyError List.length Nat.eqb]. rewrite orb_false_r.
      unfold serverKeyIterator_Next, fetched, page.
      cbn [ski_finished ski_keys ski_idx ski_s ski_err ski_cursor map List.length
           Nat.leb andb].
      rewrite andb_false_r. reflexivity. }
    assert (Hdrain : drain (List.length (key0 :: keys')) ss
                     = drain (List.length (key0 :: keys')) fetched).
    { cbn [List.length drain iterNext serverKeyIterator_SourceKeyIterator].
      now rewrite Hfetch. }
    rewrite Hdrain, <- Hlen.
    pose proof (drain_buffered page [] (ski_s ss) None c (c <=? 0)%N) as Hb.
    cbn [app List.length] in Hb. exact Hb.
  - subst page. rewrite map_map. rewrite <- (map_id keys) at 2.
    apply map_ext. intros key. apply Key_newServerSourceKey.
Qed.

(* ================================================================= *)
(** * Copying through the prefixing destination *)

Section CopyThroughPrefix.
Context {RE : RegexpLib}.
Context {Src It Rec : Type}.
Context {ITER : SourceKeyIterator It} {SRC : Source Src It}.
Context {REC : CopyRecorder Rec}.

Variable p : string.
Variable reply : list DestinationCall -> DestinationCall -> error.

Let M1 := M (It := It) (Dst := prefixedDestination recordingDestination) (Rec := Rec).
Let M2 := M (It := It) (Dst := recordingDestination) (Rec := Rec).

Lemma inStep_ret (A : Type) (a : A) : inStep p reply (ret a : M1 A) (ret a : M2 A).
Proof. intros w1 w2 H. now split. Qed.

Lemma inStep_bind (A B : Type) (c1 : M1 A) (c2 : M2 A)
    (k1 : A -> M1 B) (k2 : A -> M2 B) :
  inStep p reply c1 c2 -> (forall a, inStep p reply (k1 a) (k2 a)) ->
  inStep p reply (bind c1 k1) (bind c2 k2).
Proof.
  intros Hc Hk w1 w2 H. destruct (Hc w1 w2 H) as [Hw Ho]. unfold bind.
  destruct (c1 w1) as [w1' o1], (c2 w2) as [w2' o2]. cbn [fst snd] in *.
  subst o2. destruct o1 as [a | reason |]; [now apply Hk | now split | now split].
Qed.

Lemma inStep_on_recorder (call : Rec -> Rec * outcome unit) :
  inStep p reply (on_recorder call : M1 unit) (on_recorder call : M2 unit).
Proof.
  intros w1 w2 (Hi & Hr & Hrest). unfold on_recorder. rewrite Hr.
  destruct (call (w_rec w2)) as [r o]. cbn. repeat split; tauto.
Qed.

Lemma inStep_report (err : error) (message : string) (kvs : list any) :
  inStep p reply (report err message kvs : M1 unit) (report err message kvs : M2 unit).
Proof.
  unfold report. destruct (negb (is_nil err)).
  - apply inStep_on_recorder.
  - apply inStep_ret.
Qed.

Lemma inStep_iter_Next : inStep p reply (iter_Next : M1 _) (iter_Next : M2 _).
Proof.
  intros w1 w2 (Hi & Hrest). unfold iter_Next. rewrite Hi.
  destruct (iterNext (w_iter w2)) as [it r]. cbn. repeat split; tauto.
Qed.

Lemma inStep_iter_Error : inStep p reply (iter_Error : M1 _) (iter_Error : M2 _).
Proof.
  intros w1 w2 H. unfold iter_Error. cbn. split; [exact H |].
  destruct H as (-> & _). reflexivity.
Qed.

Lemma inStep_iter_Close : inStep p reply (iter_Close : M1 _) (iter_Close : M2 _).
Proof.
  intros w1 w2 (Hi & Hrest). unfold iter_Close. rewrite Hi.
  destruct (iterClose (w_iter w2)) as [it r]. cbn. repeat split; tauto.
Qed.

(** A write through the decorator against the write of [call]. *)
Lemma inStep_write (call : DestinationCall)
    (through : prefixedDestination recordingDestination ->
               prefixedDestination recordingDestination * error) :
  (forall d, through d =
             forward d (rd_receive (pd_s d) (prefixCall (pd_prefix d) call))) ->
  inStep p reply (on_dst through : M1 error)
                 (on_dst (fun d => rd_receive d call) : M2 error).
Proof.
  intros Hthrough w1 w2 (Hi & Hr & Hp & Hreply & Hreply2 & Hcalls).
  unfold on_dst. rewrite Hthrough. unfold forward, rd_receive.
  cbn [fst snd w_iter w_dst w_rec pd_s pd_prefix rd_reply rd_calls].
  rewrite Hp, Hreply, Hreply2, Hcalls. unfold prefixedReply. repeat split; try assumption.
  cbn [w_dst pd_s rd_calls]. now rewrite map_app.
Qed.

Lemma inStep_range (A : Type) (xs : list A) (b1 : A -> M1 unit) (b2 : A -> M2 unit) :
  (forall x, inStep p reply (b1 x) (b2 x)) ->
  inStep p reply (range xs b1) (range xs b2).
Proof.
  intros Hb. induction xs as [| x xs IH]; cbn [range].
  - apply inStep_ret.
  - apply inStep_bind; [apply Hb | intros _; exact IH].
Qed.

Lemma inStep_defer (A : Type) (f1 : M1 unit) (f2 : M2 unit) (b1 : M1 A) (b2 : M2 A) :
  inStep p reply f1 f2 -> inStep p reply b1 b2 ->
  inStep p reply (defer f1 b1) (defer f2 b2).
Proof.
  intros Hf Hb w1 w2 H. destruct (Hb w1 w2 H) as [Hw Ho]. unfold defer.
  destruct (b1 w1) as [w1' o1], (b2 w2) as [w2' o2]. cbn [fst snd] in *. subst o2.
  destruct o1 as [a | reason |]; [| | now split];
    destruct (Hf w1' w2' Hw) as [Hw' Ho'];
    destruct (f1 w1') as [w1'' o1'], (f2 w2') as [w2'' o2']; cbn [fst snd] in *;
    subst o2'; destruct o1'; now split.
Qed.

Ltac turn_in_step call :=
  apply inStep_bind; [apply inStep_on_recorder |];
  intros _; apply inStep_bind;
  [apply (inStep_write call); intros ?; reflexivity
  | intros ?; apply inStep_report].

Lemma inStep_Copy_key (src : Src) (key : SourceKey) :
  inStep p reply (Copy_key src key : M1 unit) (Copy_key src key : M2 unit).
Proof.
  unfold Copy_key. destruct (Type_ key) as [typ err].
  destruct (negb (is_nil err)); [apply inStep_on_recorder |].
  destruct (typ =? SourceKeyTypeSkip); [apply inStep_ret |].
  destruct (typ =? SourceKeyTypeString).
  { destruct (Get src key) as [val e].
    destruct (negb (is_nil e)); [apply inStep_on_recorder |].
    turn_in_step (CallSet (Key key) val). }
  destruct (typ =? SourceKeyTypeHash).
  { destruct (HItems src key) as [items e].
    destruct (negb (is_nil e)); [apply inStep_on_recorder |].
    apply inStep_range. intros kv.
    turn_in_step (CallHSet (Key key) (hi_Key kv) (hi_Value kv)). }
  destruct (typ =? SourceKeyTypeList).
  { destruct (LItems src key) as [items e].
    destruct (negb (is_nil e)); [apply inStep_on_recorder |].
    apply inStep_range. intros item.
    turn_in_step (CallLPush (Key key) item). }
  destruct (typ =? SourceKeyTypeSet).
  { destruct (SMembers src key) as [items e].
    destruct (negb (is_nil e)); [apply inStep_on_recorder |].
    apply inStep_range. intros member.
    turn_in_step (CallSAdd (Key key) member). }
  destruct (typ =? SourceKeyTypeZSet).
  { destruct (ZMembers src key) as [items e].
    destruct (negb (is_nil e)); [apply inStep_on_recorder |].
    apply inStep_range. intros m.
    turn_in_step (CallZAdd (Key key) (zm_Key m) (zm_Score m)). }
  apply inStep_on_recorder.
Qed.

Lemma inStep_Copy_loop (src : Src) (fuel : nat) :
  inStep p reply (Copy_loop fuel src : M1 unit) (Copy_loop fuel src : M2 unit).
Proof.
  induction fuel as [| fuel IH]; cbn [Copy_loop].
  - intros w1 w2 H. now split.
  - apply inStep_bind; [apply inStep_iter_Next |].
    intros [key err]. destruct (negb (is_nil err)).
    + apply inStep_bind; [apply inStep_on_recorder | intros _; exact IH].
    + destruct key as [key |]; [| apply inStep_ret].
      apply inStep_bind; [apply inStep_Copy_key | intros _; exact IH].
Qed.

Lemma inStep_Copy_run (src : Src) (fuel : nat) :
  inStep p reply
    (defer Copy_deferred (Copy_body fuel src) : M1 unit)
    (defer Copy_deferred (Copy_body fuel src) : M2 unit).
Proof.
  apply inStep_defer.
  - unfold Copy_deferred. apply inStep_bind; [apply inStep_iter_Close |].
    intros err. apply inStep_report.
  - unfold Copy_body. apply inStep_bind; [apply inStep_Copy_loop |].
    intros _. apply inStep_bind; [apply inStep_iter_Error |].
    intros err. apply inStep_bind; [apply inStep_report |].
    intros _. apply inStep_on_recorder.
Qed.
End CopyThroughPrefix.

(** X22.  Copying through the prefixing destination is copying with the
    prefix on every key.  With the same source, recorder and bound, a run of
    [Copy] through the decorator over a recording destination and a run on a
    recording destination that answers each call as the first answers the
    call with the prefix end alike, make the same recorder calls, leave the
    same iterator, and the destination under the decorator has received the
    calls of the other run with the prefix on their keys. *)
Theorem X22_Copy_through_the_prefix :
  forall (RE : RegexpLib) (Src It Rec : Type)
         (ITER : SourceKeyIterator It) (SRC : Source Src It)
         (REC : CopyRecorder Rec)
         (fuel : nat) (src : Src) (recorder : Rec) (p : string)
         (reply : list DestinationCall -> DestinationCall -> error),
    let through := Copy fuel src (mkPrefixed (mkRecording reply []) p) recorder in
    let plain := Copy fuel src (mkRecording (prefixedReply p reply) []) recorder in
    snd through = snd plain /\
    w_rec (fst through) = w_rec (fst plain) /\
    w_iter (fst through) = w_iter (fst plain) /\
    rd_calls (pd_s (w_dst (fst through)))
      = map (prefixCall p) (rd_calls (w_dst (fst plain))).
Proof.
  intros RE Src It Rec ITER SRC REC fuel src recorder p reply. cbv zeta.
  unfold Copy.
  pose proof (@inStep_Copy_run _ _ _ _ _ _ _ p reply src fuel) as H.
  destruct (H (mkWorld (Iterator src) (mkPrefixed (mkRecording reply []) p) recorder)
              (mkWorld (Iterator src) (mkRecording (prefixedReply p reply) []) recorder))
    as [(Hi & Hr & _ & _ & _ & Hcalls) Ho].
  { repeat split. }
  repeat split; assumption.
Qed.

(* ================================================================= *)
(** * The standard recorder against the recorded calls *)

Section CopyOnStandardRecorder.
Context {RE : RegexpLib} {FMT : FmtLib}.
Context {Src It Dst : Type}.
Context {ITER : SourceKeyIterator It} {SRC : Source Src It}.
Context {DST : Destination Dst}.

Let ML := M (It := It) (Dst := Dst) (Rec := recordingRecorder).
Let MS := M (It := It) (Dst := Dst) (Rec := stdCopyRecorder).

Lemma replay_app (l1 l2 : list RecorderCall) (c : stdCopyRecorder) :
  replay (l1 ++ l2) c = replay l2 (replay l1 c).
Proof. apply fold_left_app. Qed.

Lemma deliver_Done (c : stdCopyRecorder) (call : RecorderCall) :
  ~ nilReport call -> snd (deliver c call) = Done tt.
Proof.
  destruct call as [message [e |] kvs | | typ key item]; cbn; intros H;
    try reflexivity. now destruct H.
Qed.

(** A computation that does not touch the recorder. *)
Lemma mirrors_quiet (A : Type) (cl : ML A) (cs : MS A)
    (step : It -> Dst -> It * Dst * outcome A) :
  (forall w, cl w = (mkWorld (fst (fst (step (w_iter w) (w_dst w))))
                             (snd (fst (step (w_iter w) (w_dst w)))) (w_rec w),
                     snd (step (w_iter w) (w_dst w)))) ->
  (forall w, cs w = (mkWorld (fst (fst (step (w_iter w) (w_dst w))))
                             (snd (fst (step (w_iter w) (w_dst w)))) (w_rec w),
                     snd (step (w_iter w) (w_dst w)))) ->
  mirrors cl cs.
Proof.
  intros Hl Hs wl ws Hi Hd. do 2 eexists. exists []. eexists.
  rewrite Hl, Hs, app_nil_r, <- Hi, <- Hd. split; reflexivity.
Qed.

Lemma mirrors_ret (A : Type) (a : A) : mirrors (ret a : ML A) (ret a : MS A).
Proof.
  apply (@mirrors_quiet _ _ _ (fun it d => (it, d, Done a)));
    intros [it d r]; reflexivity.
Qed.

Lemma mirrors_out_of_fuel (A : Type) :
  mirrors ((fun w => (w, OutOfFuel)) : ML A) ((fun w => (w, OutOfFuel)) : MS A).
Proof.
  apply (@mirrors_quiet _ _ _ (fun it d => (it, d, OutOfFuel)));
    intros [it d r]; reflexivity.
Qed.

Lemma mirrors_on_dst (call : Dst -> Dst * error) :
  mirrors (on_dst call : ML error) (on_dst call : MS error).
Proof.
  apply (@mirrors_quiet _ _ _
           (fun it d => (it, fst (call d), Done (snd (call d)))));
    intros [it d r]; unfold on_dst; cbn; now destruct (call d).
Qed.

Lemma mirrors_iter_Next : mirrors (iter_Next : ML _) (iter_Next : MS _).
Proof.
  apply (@mirrors_quiet _ _ _
           (fun it d => (fst (iterNext it), d, Done (snd (iterNext it)))));
    intros [it d r]; unfold iter_Next; cbn; now destruct (iterNext it).
Qed.

Lemma mirrors_iter_Error : mirrors (iter_Error : ML _) (iter_Error : MS _).
Proof.
  apply (@mirrors_quiet _ _ _ (fun it d => (it, d, Done (iterError it))));
    intros [it d r]; reflexivity.
Qed.

Lemma mirrors_iter_Close : mirrors (iter_Close : ML _) (iter_Close : MS _).
Proof.
  apply (@mirrors_quiet _ _ _
           (fun it d => (fst (iterClose it), d, Done (snd (iterClose it)))));
    intros [it d r]; unfold iter_Close; cbn; now destruct (iterClose it).
Qed.

(** A call on the recorder. *)
Lemma mirrors_call (call : RecorderCall)
    (onLog : recordingRecorder -> recordingRecorder * outcome unit)
    (onStd : stdCopyRecorder -> stdCopyRecorder * outcome unit) :
  (forall r, onLog r = ((r ++ [call])%list, Done tt)) ->
  (forall c, onStd c = deliver c call) ->
  mirrors (on_recorder onLog : ML unit) (on_recorder onStd : MS unit).
Proof.
  intros Hlog Hstd wl ws Hi Hd.
  exists (w_iter wl), (w_dst wl), [call], (Done tt). unfold on_recorder.
  rewrite Hlog, Hstd. split; [reflexivity |].
  intros Hnil. rewrite <- Hi, <- Hd. cbn [replay fold_left].
  assert (Hcall : ~ nilReport call) by (intros H; apply Hnil; now constructor).
  pose proof (@deliver_Done (w_rec ws) call Hcall) as Hdone.
  destruct (deliver (w_rec ws) call) as [c o]. cbn [fst snd] in *. now subst o.
Qed.

Lemma mirrors_recorder_Error (message : string) (err : error) (kvs : list any) :
  mirrors (recorder_Error message err kvs : ML unit)
          (recorder_Error message err kvs : MS unit).
Proof.
  apply (@mirrors_call (OnError message err kvs) _ _); reflexivity.
Qed.

Lemma mirrors_recorder_Key (typ : SourceKeyType) (key : string) (item : list string) :
  mirrors (recorder_Key typ key item : ML unit)
          (recorder_Key typ key item : MS unit).
Proof.
  apply (@mirrors_call (OnKey typ key item) _ _); reflexivity.
Qed.

Lemma mirrors_recorder_Finish :
  mirrors (recorder_Finish : ML unit) (recorder_Finish : MS unit).
Proof.
  apply (@mirrors_call (OnFinish) _ _); reflexivity.
Qed.

Lemma mirrors_bind (A B : Type) (cl : ML A) (cs : MS A)
    (kl : A -> ML B) (ks : A -> MS B) :
  mirrors cl cs -> (forall a, mirrors (kl a) (ks a)) ->
  mirrors (bind cl kl) (bind cs ks).
Proof.
  intros Hc Hk wl ws Hi Hd.
  destruct (Hc wl ws Hi Hd) as (it & d & l & o & Hlog & Hstd).
  unfold bind. rewrite Hlog. destruct o as [a | reason |].
  - destruct (Hk a (mkWorld it d (w_rec wl ++ l)%list)
                   (mkWorld it d (replay l (w_rec ws))) eq_refl eq_refl)
      as (it' & d' & l' & o' & Hlog' & Hstd').
    exists it', d', (l ++ l')%list, o'. rewrite Hlog'. cbn [w_rec] in *.
    rewrite app_assoc. split; [reflexivity |].
    intros Hnil. rewrite Hstd by (intros H; apply Hnil; apply Exists_app; now left).
    rewrite Hstd' by (intros H; apply Hnil; apply Exists_app; now right).
    now rewrite replay_app.
  - exists it, d, l, (Panic reason). split; [reflexivity |].
    intros Hnil. now rewrite Hstd.
  - exists it, d, l, OutOfFuel. split; [reflexivity |].
    intros Hnil. now rewrite Hstd.
Qed.

Lemma mirrors_report (err : error) (message : string) (kvs : list any) :
  mirrors (report err message kvs : ML unit) (report err message kvs : MS unit).
Proof.
  unfold report. destruct (negb (is_nil err)).
  - apply mirrors_recorder_Error.
  - apply mirrors_ret.
Qed.

Lemma mirrors_range (A : Type) (xs : list A) (bl : A -> ML unit) (bs : A -> MS unit) :
  (forall x, mirrors (bl x) (bs x)) -> mirrors (range xs bl) (range xs bs).
Proof.
  intros Hb. induction xs as [| x xs IH]; cbn [range].
  - apply mirrors_ret.
  - apply mirrors_bind; [apply Hb | intros _; exact IH].
Qed.

Ltac mirrors_step :=
  first [ apply mirrors_recorder_Error | apply mirrors_recorder_Key
        | apply mirrors_on_dst | apply mirrors_report | apply mirrors_ret
        | apply mirrors_range; intros ? | apply mirrors_bind; [| intros ?] ].

Lemma mirrors_Copy_key (src : Src) (key : SourceKey) :
  mirrors (Copy_key src key : ML unit) (Copy_key src key : MS unit).
Proof.
  unfold Copy_key. destruct (Type_ key) as [typ err].
  destruct (negb (is_nil err)); [mirrors_step |].
  destruct (typ =? SourceKeyTypeSkip); [mirrors_step |].
  destruct (typ =? SourceKeyTypeString).
  { destruct (Get src key) as [val e]. destruct (negb (is_nil e));
      unfold dst_Set; repeat mirrors_step. }
  destruct (typ =? SourceKeyTypeHash).
  { destruct (HItems src key) as [items e]. destruct (negb (is_nil e));
      unfold dst_HSet; repeat mirrors_step. }
  destruct (typ =? SourceKeyTypeList).
  { destruct (LItems src key) as [items e]. destruct (negb (is_nil e));
      unfold dst_LPush; repeat mirrors_step. }
  destruct (typ =? SourceKeyTypeSet).
  { destruct (SMembers src key) as [items e]. destruct (negb (is_nil e));
      unfold dst_SAdd; repeat mirrors_step. }
  destruct (typ =? SourceKeyTypeZSet).
  { destruct (ZMembers src key) as [items e]. destruct (negb (is_nil e));
      unfold dst_ZAdd; repeat mirrors_step. }
  mirrors_step.
Qed.

Lemma mirrors_Copy_loop (src : Src) (fuel : nat) :
  mirrors (Copy_loop fuel src : ML unit) (Copy_loop fuel src : MS unit).
Proof.
  induction fuel as [| fuel IH]; cbn [Copy_loop].
  - apply mirrors_out_of_fuel.
  - apply mirrors_bind; [apply mirrors_iter_Next |].
    intros [key err]. destruct (negb (is_nil err)).
    + apply mirrors_bind; [apply mirrors_recorder_Error | intros _; exact IH].
    + destruct key as [key |]; [| apply mirrors_ret].
      apply mirrors_bind; [apply mirrors_Copy_key | intros _; exact IH].
Qed.

Lemma mirrors_defer (A : Type) (fl : ML unit) (fs : MS unit) (bl : ML A) (bs : MS A) :
  mirrors fl fs -> mirrors bl bs -> mirrors (defer fl bl) (defer fs bs).
Proof.
  intros Hf Hb wl ws Hi Hd.
  destruct (Hb wl ws Hi Hd) as (it & d & l & o & Hlog & Hstd).
  unfold defer. rewrite Hlog.
  destruct (Hf (mkWorld it d (w_rec wl ++ l)%list)
               (mkWorld it d (replay l (w_rec ws))) eq_refl eq_refl)
    as (it' & d' & l' & o' & Hlog' & Hstd').
  cbn [w_rec] in *.
  assert (Hboth : ~ Exists nilReport (l ++ l') ->
                  bs ws = (mkWorld it d (replay l (w_rec ws)), o) /\
                  fs (mkWorld it d (replay l (w_rec ws)))
                  = (mkWorld it' d' (replay (l ++ l') (w_rec ws)), o')).
  { intros Hnil. rewrite replay_app. split.
    - apply Hstd. intros H. apply Hnil. apply Exists_app. now left.
    - apply Hstd'. intros H. apply Hnil. apply Exists_app. now right. }
  destruct o as [a | reason |].
  - rewrite Hlog'. exists it', d', (l ++ l')%list. rewrite app_assoc.
    destruct o' as [[] | reason' |]; eexists; (split; [reflexivity |]);
      intros Hnil; destruct (Hboth Hnil) as [-> ->]; reflexivity.
  - rewrite Hlog'. exists it', d', (l ++ l')%list. rewrite app_assoc.
    destruct o' as [[] | reason' |]; eexists; (split; [reflexivity |]);
      intros Hnil; destruct (Hboth Hnil) as [-> ->]; reflexivity.
  - exists it, d, l, OutOfFuel. split; [reflexivity |].
    intros Hnil. now rewrite Hstd.
Qed.

Lemma mirrors_Copy_run (src : Src) (fuel : nat) :
  mirrors (defer Copy_deferred (Copy_body fuel src) : ML unit)
          (defer Copy_deferred (Copy_body fuel src) : MS unit).
Proof.
  apply mirrors_defer.
  - unfold Copy_deferred. apply mirrors_bind; [apply mirrors_iter_Close |].
    intros err. apply mirrors_report.
  - unfold Copy_body. apply mirrors_bind; [apply mirrors_Copy_loop |].
    intros _. apply mirrors_bind; [apply mirrors_iter_Error |].
    intros err. apply mirrors_bind; [apply mirrors_report |].
    intros _. apply mirrors_recorder_Finish.
Qed.
End CopyOnStandardRecorder.

(** X23.  The standard recorder receives what a recording recorder
    records.  When none of the calls that a run of [Copy] makes on a
    recording recorder carries a nil error, the run with the standard
    recorder, on the same source and destination and with the same bound,
    ends alike, leaves the same iterator and the same destination, and its
    recorder is the one it started with after the recorded calls, made in
    order. *)
Theorem X23_standard_recorder_receives_the_recorded_calls :
  forall (RE : RegexpLib) (FMT : FmtLib) (Src It Dst : Type)
         (ITER : SourceKeyIterator It) (SRC : Source Src It)
         (DST : Destination Dst)
         (fuel : nat) (src : Src) (dst : Dst) (c : stdCopyRecorder),
    let logged := Copy fuel src dst ([] : recordingRecorder) in
    ~ Exists nilReport (w_rec (fst logged)) ->
    Copy fuel src dst c =
    (mkWorld (w_iter (fst logged)) (w_dst (fst logged))
             (replay (w_rec (fst logged)) c),
     snd logged).
Proof.
  intros RE FMT Src It Dst ITER SRC DST fuel src dst c. cbv zeta. unfold Copy.
  destruct (@mirrors_Copy_run _ _ _ _ _ _ _ _ src fuel
              (mkWorld (Iterator src) dst ([] : recordingRecorder))
              (mkWorld (Iterator src) dst c) eq_refl eq_refl)
    as (it & d & l & o & Hlog & Hstd).
  rewrite Hlog. cbn [fst snd w_iter w_dst w_rec app]. exact Hstd.
Qed.


Lemma string_app_nil_r (a : string) : a ++ "" = a.
Proof.
  induction a as [| x a IH]; simpl; [reflexivity | now rewrite IH].
Qed.

(** Induction on a list taken two elements at a time. *)
Lemma pairs_ind (A : Type) (P : list A -> Prop) :
  P [] -> (forall x, P [x]) ->
  (forall k v rest, P rest -> P (k :: v :: rest)) ->
  forall l, P l.
Proof.
  intros Hnil Hone Hstep l.
  enough (H : P l /\ forall x, P (x :: l)) by exact (proj1 H).
  induction l as [| y l [IH1 IH2]].
  - split; [exact Hnil | exact Hone].
  - split; [apply IH2 | intros x; now apply Hstep].
Qed.

Section StandardRecorderFacts.
Context {FMT : FmtLib}.

Lemma writePairs_text (kvs : list any) :
  forall c, writePairs c kvs = mkStd (buf c ++ pairsText kvs) (out c).
Proof.
  induction kvs as [| x | k v rest IH] using pairs_ind; intros c;
    cbn [writePairs pairsText].
  - rewrite string_app_nil_r. now destruct c.
  - rewrite string_app_nil_r. now destruct c.
  - rewrite IH. unfold WriteString. cbn [buf out].
    now rewrite !string_app_assoc.
Qed.

(** A call that returns, on a recorder whose buffer is empty: the line of
    the call goes to the writer and the buffer is empty again. *)
Lemma deliver_line (o : string) (call : RecorderCall) :
  ~ nilReport call ->
  fst (deliver (mkStd "" o) call) = mkStd "" (o ++ line call).
Proof.
  destruct call as [message [text |] kvs | | typ key [| item0 item]];
    cbn [nilReport]; intros H; try now destruct H.
  - cbn [deliver fst]. unfold stdCopyRecorder_Error, Reset, WriteString, flush.
    cbn [buf out]. rewrite writePairs_text. cbn [buf out fst line].
    now rewrite !string_app_assoc.
  - reflexivity.
  - reflexivity.
  - reflexivity.
Qed.
End StandardRecorderFacts.

(** X24.  The standard recorder writes one line for each call and keeps
    nothing back: starting with an empty buffer, after calls none of which
    carries a nil error, its buffer is empty and its writer holds what it
    held before followed by the lines of the calls, in order. *)
Theorem X24_standard_recorder_writes_the_lines :
  forall (FMT : FmtLib) (l : list RecorderCall) (o : string),
    ~ Exists nilReport l ->
    replay l (mkStd "" o) = mkStd "" (o ++ lines l).
Proof.
  intros FMT l. induction l as [| call l IH]; intros o Hnil; cbn [replay fold_left lines].
  - now rewrite string_app_nil_r.
  - rewrite deliver_line by (intros H; apply Hnil; now constructor).
    change (fold_left _ l ?c) with (replay l c).
    rewrite IH by (intros H; apply Hnil; now constructor 2).
    now rewrite string_app_assoc.
Qed.

(** X25.  [Error] of the standard recorder writes its context in pairs and
    drops a last value that has no partner: with an even number of values
    before it, one more value changes nothing in what is written. *)
Theorem X25_unpaired_context_value_is_dropped :
  forall (FMT : FmtLib) (c : stdCopyRecorder) (message text : string)
         (kvs : list any) (x : any),
    Nat.even (List.length kvs) = true ->
    stdCopyRecorder_Error c message (Some text) (kvs ++ [x])
    = stdCopyRecorder_Error c message (Some text) kvs.
Proof.
  intros FMT c message text kvs x Heven.
  unfold stdCopyRecorder_Error. rewrite !writePairs_text.
  assert (H : pairsText (kvs ++ [x]) = pairsText kvs).
  { clear c message text. revert Heven.
    induction kvs as [| y | k v rest IH] using pairs_ind;
      cbn [app pairsText List.length Nat.even]; intros Heven;
      try reflexivity; try discriminate.
    now rewrite IH. }
  now rewrite H.
Qed.

(* ================================================================= *)
(** * Runs on example sources *)

#[local] Existing Instance wordRegexp.
#[local] Existing Instance keysOnlyFmt.

(** C7, at a failing input (Scenario A of the specification on a key-value
    source).  The adapter over the rows ["a"] (a string) and ["b"] (the hash
    field ["f"] with value ["v"]) is wrapped by the filter with the exclude
    pattern [^a$].  The key that the filter yields for row ["b"] has the
    filter's type, the adapter's accessor fails its type assertion on it and
    returns the pair of the zero item, not the pair materialized for the
    row; [Copy] then writes an empty field with an empty value.  Without the
    filter the accessor returns the row's pair. *)
Theorem C7_filtered_adapter_key_reads_zero_item :
  let src := exampleSource [row "a" "x1"; row "b" "v"] None in
  let item := hashItem "b" "f" (list_byte_of_string "v") in
  exists (ks : keyPatternSource (keyValueSource scriptedDB)) it1 it2 keyA,
    NewKeyPatternSource src [] ["^a$"] = (Some (inr ks), None) /\
    iterNext (Iterator ks) = (it1, (Some keyA, None)) /\
    iterNext it1 =
      (it2, (Some (keyPatternFilteredKey (keyValueSourceKey item) (kps_patterns ks)),
             None)) /\
    HItems ks (keyPatternFilteredKey (keyValueSourceKey item) (kps_patterns ks))
      = ([mkHashItem "" []], None) /\
    HItems src (keyValueSourceKey item)
      = ([mkHashItem "f" (list_byte_of_string "v")], None) /\
    callsOf (Copy 3 ks freshDestination [])
      = ([CallHSet "b" "" []], [OnKey "hash" "b" [""]; OnFinish]) /\
    callsOf (Copy 3 src freshDestination [])
      = ([CallSet "a" (list_byte_of_string "x1");
          CallHSet "b" "f" (list_byte_of_string "v")],
         [OnKey "string" "a" []; OnKey "hash" "b" ["f"]; OnFinish]).
Proof.
  cbv zeta. do 4 eexists. repeat split.
Qed.

(** C2 as stated fails: on a source with no rows whose iterator fails to
    close, the recorder receives the close failure after [Finish], so
    [Finish] is not its final call. *)
Lemma C2_counterexample :
  let calls :=
    w_rec (fst (Copy 1 (exampleSource [] (Some "close failed")) freshDestination [])) in
  calls = [OnFinish; OnError "close source iterator failed" (Some "close failed") []] /\
  ~ (exists before, calls = (before ++ [OnFinish])%list).
Proof.
  cbv zeta. split; [reflexivity |].
  intros [before H]. apply (f_equal (@rev RecorderCall)) in H.
  rewrite rev_app_distr in H. discriminate H.
Qed.

(** Scenario B of the specification, on a key-value source: the sorted set
    ["z"] comes as two rows, one for each member. *)
Example scenario_B :
  callsOf (Copy 3 (exampleSource [row "z" "m1"; row "z" "m2"] None) freshDestination [])
  = ([CallZAdd "z" "m1" 1%float; CallZAdd "z" "m2" 2%float],
     [OnKey "zset" "z" ["m1"]; OnKey "zset" "z" ["m2"]; OnFinish]).
Proof. reflexivity. Qed.

(** Scenario C of the specification: the third row does not parse; the
    writes of rows 1 and 2 are made, the failure is reported once, and the
    fourth row is copied. *)
Example scenario_C :
  callsOf (Copy 5 (exampleSource [row "a" "x1"; row "b" "v"; row "?" ""; row "l" "i"] None)
             freshDestination [])
  = ([CallSet "a" (list_byte_of_string "x1");
      CallHSet "b" "f" (list_byte_of_string "v");
      CallLPush "l" "i"],
     [OnKey "string" "a" []; OnKey "hash" "b" ["f"];
      OnError "iterate next key failed" (Some "cannot parse row ?") [];
      OnKey "list" "l" ["i"]; OnFinish]).
Proof. reflexivity. Qed.

(** A store-read error at the second row: the first row is written, the
    third is never read, the error is reported after the loop. *)
Example store_error_run :
  let run := Copy 4 (exampleSource [row "a" "x1"; ("b", [], Some "disk"); row "l" "i"] None)
                  freshDestination [] in
  callsOf run
  = ([CallSet "a" (list_byte_of_string "x1")],
     [OnKey "string" "a" []; OnError "iterator errors" (Some "disk") []; OnFinish]) /\
  si_reads (kvi_iter (w_iter (fst run))) = 2.
Proof. split; reflexivity. Qed.

(** With the standard recorder, a row of an unknown type makes [Copy]
    panic; the rows after it are not read. *)
Example unsupported_type_run :
  let run := Copy 3 (exampleSource [row "q" "x"; row "a" "x1"] None)
                  freshDestination (mkStd "" "") in
  snd run = Panic nilDereference /\
  rd_calls (w_dst (fst run)) = [] /\
  si_reads (kvi_iter (w_iter (fst run))) = 1.
Proof. repeat split. Qed.

(** An invalid pattern fails the construction of the filter. *)
Example invalid_pattern_run :
  NewKeyPatternSource (exampleSource [row "a" "x1"] None) ["a"; "("] ["^a$"]
  = (None, Some "error parsing regexp: (").
Proof. reflexivity. Qed.

(** Exclude beats include, and an include list that matches nothing skips
    the key. *)
Example filter_runs :
  let keyA := keyValueSourceKey (stringItem "a" []) in
  let pat (s : string) := match Compile s with inl r => [r] | inr _ => [] end in
  Type_ (keyPatternFilteredKey keyA (mkPatterns (pat "a") (pat "^a$")))
    = (SourceKeyTypeSkip, None) /\
  Type_ (keyPatternFilteredKey keyA (mkPatterns (pat "b") []))
    = (SourceKeyTypeSkip, None) /\
  Type_ (keyPatternFilteredKey keyA (mkPatterns (pat "a") (pat "b")))
    = (SourceKeyTypeString, None) /\
  Type_ (keyPatternFilteredKey keyA (mkPatterns [] []))
    = (SourceKeyTypeString, None).
Proof. repeat split. Qed.

(** The same order on the standard recorder: on a one-row source whose
    iterator fails to close, [Copy] returns and the line of [Finish] is
    followed by the line of the close failure. *)
Example close_failure_run_on_standard_recorder :
  let run := Copy 2 (exampleSource [row "a" "x1"] (Some "close failed"))
                  freshDestination (mkStd "" "") in
  snd run = Done tt /\
  w_rec (fst run)
    = mkStd "" (lines [OnKey "string" "a" []; OnFinish;
                       OnError "close source iterator failed" (Some "close failed") []]).
Proof. cbv zeta. split; vm_compute; reflexivity. Qed.

(** A run over LevelDB entries that panics in the standard recorder at its
    first key, of an unsupported type: the statements after the [defer]
    leave the iterator on the first entry with the second ahead, and [Copy]
    leaves it released. *)
Example panic_run_releases_the_iterator :
  let src := exampleLevelSource [("q", "x"); ("a", "x1")] in
  let body := Copy_body 3 src
                (mkWorld (Iterator (I := keyValueIterator (levelDBIter entries)) src)
                         freshDestination (mkStd "" "")) in
  let run := Copy (It := keyValueIterator (levelDBIter entries)) 3 src
                  freshDestination (mkStd "" "") in
  snd run = Panic nilDereference /\
  kvi_iter (w_iter (fst body))
    = mkLevelDBIter ([(list_byte_of_string "a", list_byte_of_string "x1")],
                     Some (list_byte_of_string "q", list_byte_of_string "x")) /\
  kvi_iter (w_iter (fst run)) = mkLevelDBIter ([], None).
Proof. cbv zeta. split; [| split]; vm_compute; reflexivity. Qed.

(* ================================================================= *)
(** * The theorems at concrete inputs *)

(** C1 at one row, the member ["m1"] of the sorted set ["z"], on a
    destination that takes one more call and fails after it. *)
Lemma C1_witness :
  let src := exampleSource [row "z" "m1"] None in
  let key := keyValueSourceKey (zsetItem "z" "m1" 1%float) in
  let ws := [(["m1"], CallZAdd "z" "m1" 1%float)] in
  let w := mkWorld (Iterator src) (mkRecording (limited 3) [CallSet "a" []; CallSet "b" []])
                   ([] : recordingRecorder) in
  Type_ key = (SourceKeyTypeZSet, None) /\
  fetchedWrites src SourceKeyTypeZSet key = Some ws /\
  writesSucceed (w_dst w) (map snd ws) /\
  rd_reply (w_dst w) (rd_calls (w_dst w) ++ map snd ws)%list (CallSet "c" [])
    = Some "quota exceeded" /\
  Copy_key src key w =
  (mkWorld (w_iter w)
     (mkRecording (limited 3) [CallSet "a" []; CallSet "b" []; CallZAdd "z" "m1" 1%float])
     [OnKey SourceKeyTypeZSet "z" ["m1"]],
   Done tt).
Proof.
  cbv zeta.
  assert (HT : Type_ (keyValueSourceKey (zsetItem "z" "m1" 1%float))
               = (SourceKeyTypeZSet, None)) by reflexivity.
  assert (Hf : fetchedWrites (exampleSource [row "z" "m1"] None) SourceKeyTypeZSet
                 (keyValueSourceKey (zsetItem "z" "m1" 1%float))
               = Some [(["m1"], CallZAdd "z" "m1" 1%float)]) by reflexivity.
  assert (Hacc : writesSucceed (mkRecording (limited 3) [CallSet "a" []; CallSet "b" []])
                   (map snd [(["m1"], CallZAdd "z" "m1" 1%float)]))
    by (constructor; [reflexivity | constructor]).
  split; [exact HT |]. split; [exact Hf |]. split; [exact Hacc |].
  split; [reflexivity |].
  exact (proj1 (@C1_one_write_per_fetched_item _ _ _ _ _
           (exampleSource [row "z" "m1"] None) _ _ _
           (mkWorld (Iterator (exampleSource [row "z" "m1"] None))
                    (mkRecording (limited 3) [CallSet "a" []; CallSet "b" []])
                    ([] : recordingRecorder))
           HT Hf Hacc)).
Defined.

(** C2 at a one-row source whose iterator fails to close, with the standard
    recorder. *)
Lemma C2_witness :
  let src := exampleSource [row "a" "x1"] (Some "close failed") in
  exhaustsWithin 1 (Iterator src) = true /\
  1 < 2 /\
  exists it d before,
    (forall log : recordingRecorder,
       Copy 2 src freshDestination log =
       (mkWorld (fst (iterClose it)) d
          (log ++ before ++ OnFinish :: closeReport (snd (iterClose it)))%list,
        Done tt)) /\
    ~ In OnFinish before /\
    ~ In OnFinish (closeReport (snd (iterClose it))) /\
    (allReturn (before ++ OnFinish :: closeReport (snd (iterClose it))) (mkStd "" "") ->
     Copy 2 src freshDestination (mkStd "" "") =
     (mkWorld (fst (iterClose it)) d
        (replayOn (before ++ OnFinish :: closeReport (snd (iterClose it))) (mkStd "" "")),
      Done tt)).
Proof.
  cbv zeta.
  assert (Hex : exhaustsWithin 1
                  (Iterator (exampleSource [row "a" "x1"] (Some "close failed")))
                = true) by reflexivity.
  assert (Hlt : 1 < 2) by lia.
  split; [exact Hex |]. split; [exact Hlt |].
  exact (@C2_finish_once_then_close_report _ _ _ _ _ _ _ _ _
           (exampleSource [row "a" "x1"] (Some "close failed"))
           freshDestination (mkStd "" "") 1 2 Hex Hlt).
Defined.

(** C3 at a row that the parser marks Skip. *)
Lemma C3_witness :
  let src := exampleSource [row "k" "x"] None in
  let key := keyValueSourceKey (exampleItem "k" "x") in
  Type_ key = (SourceKeyTypeSkip, None) /\
  forall w : world (keyValueIterator scriptedIterator) recordingDestination
                   recordingRecorder,
    Copy_key src key w = (w, Done tt).
Proof.
  cbv zeta.
  assert (HT : Type_ (keyValueSourceKey (exampleItem "k" "x"))
               = (SourceKeyTypeSkip, None)) by reflexivity.
  split; [exact HT |].
  exact (proj1 (@C3_skip_is_silent _ _ _ recordingDestination recordingRecorder
                  _ _ _ _ (exampleSource [row "k" "x"] None) _ HT)).
Defined.

(** C4 at the first key of a filtered one-row source. *)
Lemma C4_witness :
  let k := mkKeyPatternIterator
             (Iterator (exampleSource [row "b" "v"] None))
             (mkPatterns [] [Exactly "a"]) in
  exists k' key,
    keyPatternIterator_Next k = (k', (Some key, None)) /\
    exists inner,
      snd (iterNext (kpi_SourceKeyIterator k)) = (Some inner, None) /\
      key = keyPatternFilteredKey inner (kpi_s k) /\
      Key key = Key inner /\
      Type_ key = filterDecision (Type_ inner) (Key inner) (kpi_s k).
Proof.
  cbv zeta. do 2 eexists.
  assert (HN : keyPatternIterator_Next
                 (mkKeyPatternIterator
                    (Iterator (exampleSource [row "b" "v"] None))
                    (mkPatterns [] [Exactly "a"]))
               = (mkKeyPatternIterator
                    (mkKeyValueIterator (mkScripted [] None 1) exampleParser None)
                    (mkPatterns [] [Exactly "a"]),
                  (Some (keyPatternFilteredKey
                           (keyValueSourceKey (exampleItem "b" "v"))
                           (mkPatterns [] [Exactly "a"])), None)))
    by reflexivity.
  split; [exact HN |].
  exact (@C4_filter_decision _ _ _ _ _ _ HN).
Defined.

(** C5 at a source whose first row does not parse. *)
Lemma C5_witness :
  let src := exampleSource [row "?" ""; row "a" "x1"] None in
  let w := mkWorld (Iterator src) freshDestination ([] : recordingRecorder) in
  let it := mkScripted [row "a" "x1"] None 1 in
  kvi_err (w_iter w) = None /\
  kvNext (kvi_iter (w_iter w)) = (it, ("?", [], None)) /\
  "?" <> "" /\
  kvi_parser (w_iter w) "?" [] = (zeroItem, Some "cannot parse row ?") /\
  keyValueIterator_Next (w_iter w) =
  (mkKeyValueIterator it exampleParser None, (None, Some "cannot parse row ?")).
Proof.
  cbv zeta.
  pose (w := mkWorld (Iterator (exampleSource [row "?" ""; row "a" "x1"] None))
                     freshDestination ([] : recordingRecorder)).
  assert (Herr : kvi_err (w_iter w) = None) by reflexivity.
  assert (HN : kvNext (kvi_iter (w_iter w))
               = (mkScripted [row "a" "x1"] None 1, ("?", [], None)))
    by reflexivity.
  assert (Hkey : "?" <> "") by discriminate.
  assert (HP : kvi_parser (w_iter w) "?" []
               = (zeroItem, Some "cannot parse row ?")) by reflexivity.
  split; [exact Herr |]. split; [exact HN |]. split; [exact Hkey |].
  split; [exact HP |].
  exact (proj1 (@C5_parse_error_returned_and_reported _ _ _ _ _ _ _
                  (exampleSource [row "?" ""; row "a" "x1"] None) 0 w
                  _ _ _ _ _ Herr HN Hkey HP)).
Defined.

(** C6 at a source whose first read fails. *)
Lemma C6_witness :
  let src := exampleSource [("b", [], Some "disk"); row "a" "x1"] None in
  let w := mkWorld (Iterator src) freshDestination ([] : recordingRecorder) in
  let it := mkScripted [row "a" "x1"] None 1 in
  kvi_err (w_iter w) = None /\
  kvNext (kvi_iter (w_iter w)) = (it, ("b", [], Some "disk")) /\
  keyValueIterator_Next (w_iter w) =
  (mkKeyValueIterator it exampleParser (Some "disk"), (None, None)).
Proof.
  cbv zeta.
  pose (w := mkWorld (Iterator (exampleSource [("b", [], Some "disk"); row "a" "x1"] None))
                     freshDestination ([] : recordingRecorder)).
  assert (Herr : kvi_err (w_iter w) = None) by reflexivity.
  assert (HN : kvNext (kvi_iter (w_iter w))
               = (mkScripted [row "a" "x1"] None 1, ("b", [], Some "disk")))
    by reflexivity.
  split; [exact Herr |]. split; [exact HN |].
  exact (proj1 (@C6_store_error_halts_and_is_reported _ _ _ _ _ _ _
                  (exampleSource [("b", [], Some "disk"); row "a" "x1"] None) 0 w
                  _ _ _ _ Herr HN)).
Defined.

(** C10 at a row of the type ["stream"]. *)
Lemma C10_witness :
  let src := exampleSource [row "q" "x"] None in
  let key := keyValueSourceKey (exampleItem "q" "x") in
  Type_ key = ("stream", None) /\
  ~ In "stream" definedTypes /\
  forall w : world (keyValueIterator scriptedIterator) recordingDestination
                   stdCopyRecorder,
    Copy_key src key w =
    (mkWorld (w_iter w) (w_dst w) (mkStd "unsupported key type: " (out (w_rec w))),
     Panic nilDereference).
Proof.
  cbv zeta.
  assert (HT : Type_ (keyValueSourceKey (exampleItem "q" "x")) = ("stream", None))
    by reflexivity.
  assert (Hin : ~ In "stream" definedTypes)
    by (unfold definedTypes; simpl; intuition discriminate).
  split; [exact HT |]. split; [exact Hin |].
  exact (proj1 (proj2 (proj2 (@C10_unsupported_type_reports_nil _ _ _ _
                         recordingDestination _ _ _
                         (exampleSource [row "q" "x"] None) _ _ HT Hin)))).
Defined.

(** C8 at the prefix ["ns:"] over a recording destination. *)
Lemma C8_witness :
  "ns:" <> "" /\
  dstSAdd (mkPrefixed (mkRecording accepting []) "ns:") "s" "m"
  = (mkPrefixed (mkRecording accepting [CallSAdd "ns:s" "m"]) "ns:", None).
Proof.
  assert (Hp : "ns:" <> "") by discriminate.
  split; [exact Hp |].
  destruct (C8_prefixedDestination_forwards _ "ns:" (mkRecording accepting []))
    as [_ Hfwd].
  destruct (Hfwd Hp) as [_ Hcalls].
  destruct (Hcalls (mkRecording accepting []) "s" "m" [] 0%float)
    as (_ & _ & Hsadd & _).
  exact Hsadd.
Defined.

(* ================================================================= *)
(** * The further theorems at concrete inputs *)

(** X2 at the server key ["a"] under a filter. *)
Lemma X2_witness :
  let k := keyPatternFilteredKey (serverSourceKey "a" ("string", None))
                                 (mkPatterns [] [Exactly "b"]) in
  serverBased k = true /\
  Type_ k = (SourceKeyTypeString, None) /\
  In SourceKeyTypeString definedTypes.
Proof.
  cbv zeta.
  pose (k := keyPatternFilteredKey (serverSourceKey "a" ("string", None))
                                   (mkPatterns [] [Exactly "b"])).
  assert (Hs : serverBased k = true) by reflexivity.
  assert (HT : Type_ k = (SourceKeyTypeString, None)) by reflexivity.
  split; [exact Hs |]. split; [exact HT |].
  exact (proj1 (@X2_server_key_type_is_defined _ k _ Hs HT)).
Defined.

(** X3 at one include and one exclude pattern. *)
Lemma X3_witness :
  let src := exampleSource [row "a" "x1"] None in
  let k := mkKeyPatternSource (mkPatterns [Containing "a"] [Exactly "b"]) src in
  NewKeyPatternSource src ["a"] ["^b$"] = (Some (inr k), None) /\
  kps_Source k = src /\
  map Compile ["a"] = map inl (includes (kps_patterns k)) /\
  map Compile ["^b$"] = map inl (excludes (kps_patterns k)) /\
  ~ (["a"] = [] /\ ["^b$"] = []).
Proof.
  cbv zeta.
  pose (src := exampleSource [row "a" "x1"] None).
  pose (k := mkKeyPatternSource (mkPatterns [Containing "a"] [Exactly "b"]) src).
  assert (H : NewKeyPatternSource src ["a"] ["^b$"] = (Some (inr k), None))
    by reflexivity.
  split; [exact H |].
  exact (@X3_NewKeyPatternSource_success _ _ src ["a"] ["^b$"] (inr k) H).
Defined.

(** X5 at a row of an unknown type that an exclude pattern matches. *)
Lemma X5_witness :
  let src := exampleSource [row "q" "x"] None in
  let k := keyValueSourceKey (exampleItem "q" "x") in
  let s := mkPatterns [] [Containing "q"] in
  let w := mkWorld (Iterator src) freshDestination (mkStd "" "") in
  snd (Type_ k) = None /\
  existsb (fun e => MatchString e (Key k)) (excludes s) = true /\
  Type_ (keyPatternFilteredKey k s) = (SourceKeyTypeSkip, None) /\
  Copy_key src (keyPatternFilteredKey k s) w = (w, Done tt).
Proof.
  cbv zeta.
  pose (src := exampleSource [row "q" "x"] None).
  pose (k := keyValueSourceKey (exampleItem "q" "x")).
  pose (s := mkPatterns [] [Containing "q"]).
  assert (Herr : snd (Type_ k) = None) by reflexivity.
  assert (Hex : existsb (fun e => MatchString e (Key k)) (excludes s) = true)
    by reflexivity.
  split; [exact Herr |]. split; [exact Hex |].
  exact (@X5_excluded_key_is_invisible _ _ _ _ _ _ _ _ _ src k s
           (mkWorld (Iterator src) freshDestination (mkStd "" "")) Herr Hex).
Defined.

(** X6 at a sorted-set member on a destination that refuses every write. *)
Lemma X6_witness :
  let src := exampleSource [row "z" "m1"] None in
  let key := keyValueSourceKey (zsetItem "z" "m1" 1%float) in
  let ws := [(["m1"], CallZAdd "z" "m1" 1%float)] in
  let w := mkWorld (Iterator src) (mkRecording refusing []) ([] : recordingRecorder) in
  Type_ key = (SourceKeyTypeZSet, None) /\
  fetchedWrites src SourceKeyTypeZSet key = Some ws /\
  exists l,
    Copy_key src key w =
    (mkWorld (w_iter w) (mkRecording refusing [CallZAdd "z" "m1" 1%float]) l,
     Done tt) /\
    keysOf l = [OnKey SourceKeyTypeZSet "z" ["m1"]] /\
    errorsOf l = [Some "full"].
Proof.
  cbv zeta.
  pose (src := exampleSource [row "z" "m1"] None).
  pose (key := keyValueSourceKey (zsetItem "z" "m1" 1%float)).
  assert (HT : Type_ key = (SourceKeyTypeZSet, None)) by reflexivity.
  assert (Hf : fetchedWrites src SourceKeyTypeZSet key
               = Some [(["m1"], CallZAdd "z" "m1" 1%float)]) by reflexivity.
  split; [exact HT |]. split; [exact Hf |].
  exact (@X6_write_failures_do_not_abort _ _ _ _ _ src key _ _
           (mkWorld (Iterator src) (mkRecording refusing []) ([] : recordingRecorder))
           HT Hf).
Defined.

(** X7 at a string whose fetch fails. *)
Lemma X7_witness :
  let src := mkUnreachable "connection reset" in
  let key := keyValueSourceKey (stringItem "a" []) in
  let w := mkWorld (Iterator (Source := unreachableSource_Source) src)
                   freshDestination ([] : recordingRecorder) in
  (snd (Type_ key) = Some "connection reset" \/
   (snd (Type_ key) = None /\
    fetchError (SRC := unreachableSource_Source) src (fst (Type_ key)) key
    = Some "connection reset")) /\
  exists message kvs,
    Copy_key (SRC := unreachableSource_Source) src key w =
    (mkWorld (w_iter w) (w_dst w)
             (w_rec w ++ [OnError message (Some "connection reset") kvs])%list,
     Done tt).
Proof.
  cbv zeta.
  pose (src := mkUnreachable "connection reset").
  pose (key := keyValueSourceKey (stringItem "a" [])).
  assert (H : snd (Type_ key) = Some "connection reset" \/
              (snd (Type_ key) = None /\
               fetchError (SRC := unreachableSource_Source) src (fst (Type_ key)) key
               = Some "connection reset"))
    by (right; split; reflexivity).
  split; [exact H |].
  exact (@X7_type_or_fetch_failure_is_one_report _ _ _ _ _ unreachableSource_Source _
           src key "connection reset"
           (mkWorld (Iterator (Source := unreachableSource_Source) src) freshDestination
                    ([] : recordingRecorder)) H).
Defined.

(** X9 at a run over LevelDB entries that panics in the standard recorder
    at its first key: the loop has called [Next] once, the entry ["a"] is
    still ahead, and the iterator is released. *)
Lemma X9_witness :
  let src := exampleLevelSource [("q", "x"); ("a", "x1")] in
  let run := Copy (It := keyValueIterator (levelDBIter entries)) 3 src
                  freshDestination (mkStd "" "") in
  snd run <> OutOfFuel /\
  exists k,
    k <= 3 /\
    w_iter (fst (Copy_body 3 src
                   (mkWorld (Iterator (I := keyValueIterator (levelDBIter entries)) src)
                            freshDestination (mkStd "" ""))))
      = fst (drain k (Iterator src)) /\
    w_iter (fst run) = fst (iterClose (fst (drain k (Iterator src)))).
Proof.
  cbv zeta.
  assert (H : snd (Copy (It := keyValueIterator (levelDBIter entries)) 3
                        (exampleLevelSource [("q", "x"); ("a", "x1")])
                        freshDestination (mkStd "" "")) <> OutOfFuel)
    by (vm_compute; discriminate).
  split; [exact H |].
  exact (@X9_Copy_closes_the_iterator _ _ (keyValueIterator (levelDBIter entries))
           _ _ _ _ _ _ 3
           (exampleLevelSource [("q", "x"); ("a", "x1")])
           freshDestination (mkStd "" "") H).
Defined.

(** X11 at the adapter over two LevelDB entries, with the standard
    recorder. *)
Lemma X11_witness :
  let src := exampleLevelSource [("a", "x1"); ("b", "v")] in
  (forall it : keyValueIterator (levelDBIter entries), snd (iterClose it) = None) /\
  exhaustsWithin 2 (Iterator (I := keyValueIterator (levelDBIter entries)) src) = true /\
  2 < 3 /\
  exists it d before,
    (forall log : recordingRecorder,
       Copy (It := keyValueIterator (levelDBIter entries)) 3 src freshDestination log =
       (mkWorld it d (log ++ before ++ [OnFinish])%list, Done tt)) /\
    ~ In OnFinish before /\
    (allReturn (before ++ [OnFinish]) (mkStd "" "") ->
     Copy 3 src freshDestination (mkStd "" "") =
     (mkWorld it d (replayOn (before ++ [OnFinish]) (mkStd "" "")), Done tt)).
Proof.
  cbv zeta.
  pose (src := exampleLevelSource [("a", "x1"); ("b", "v")]).
  assert (Hclose : forall it : keyValueIterator (levelDBIter entries),
             snd (iterClose it) = None)
    by (intros it; reflexivity).
  assert (Hex : exhaustsWithin 2
                  (Iterator (I := keyValueIterator (levelDBIter entries)) src) = true)
    by reflexivity.
  assert (Hlt : 2 < 3) by lia.
  split; [exact Hclose |]. split; [exact Hex |]. split; [exact Hlt |].
  exact (@X11_Finish_is_last_when_Close_succeeds _ _
           (keyValueIterator (levelDBIter entries)) _ _ _ _ _ _
           src freshDestination (mkStd "" "") 2 3 Hclose Hex Hlt).
Defined.

(** X13 at the prefix ["ns:"]. *)
Lemma X13_witness :
  let ps := mkPrefixed freshDestination "ns:" in
  prefixedKey ps "s" = prefixedKey ps "s" /\ "s" = "s".
Proof.
  cbv zeta.
  assert (H : prefixedKey (mkPrefixed freshDestination "ns:") "s"
              = prefixedKey (mkPrefixed freshDestination "ns:") "s") by reflexivity.
  split; [exact H |].
  exact (@X13_prefixedKey_injective _ (mkPrefixed freshDestination "ns:") "s" "s" H).
Defined.

(** X14 at the first row of a key-value source. *)
Lemma X14_witness :
  let src := exampleSource [row "b" "v"] None in
  let k := Iterator src in
  let k' := mkKeyValueIterator (mkScripted [] None 1) exampleParser None in
  let key := keyValueSourceKey (exampleItem "b" "v") in
  keyValueIterator_Next k = (k', (Some key, None)) /\
  exists rawKey val item,
    snd (kvNext (kvi_iter k)) = (rawKey, val, None) /\
    kvi_parser k rawKey val = (item, None) /\
    keyValueSource_Get src key = (StringValue item, None) /\
    keyValueSource_HItems src key
      = ([mkHashItem (HashField item) (HashFieldValue item)], None) /\
    keyValueSource_LItems src key = ([ListItem item], None) /\
    keyValueSource_SMembers src key = ([SetMember item], None) /\
    keyValueSource_ZMembers src key
      = ([mkZSetMember (ZSetMember item) (ZSetScore item)], None).
Proof.
  cbv zeta.
  pose (src := exampleSource [row "b" "v"] None).
  assert (HN : keyValueIterator_Next (Iterator src)
               = (mkKeyValueIterator (mkScripted [] None 1) exampleParser None,
                  (Some (keyValueSourceKey (exampleItem "b" "v")), None)))
    by reflexivity.
  split; [exact HN |].
  exact (@X14_adapter_key_carries_its_item _ _ _ _ src _ _ _ HN).
Defined.

(** X15 at a store whose first row has an empty key. *)
Lemma X15_witness :
  let src := exampleSource [row "" "v"; row "a" "x1"] None in
  let w := mkWorld (Iterator src) freshDestination ([] : recordingRecorder) in
  let it := mkScripted [row "a" "x1"] None 1 in
  kvi_err (w_iter w) = None /\
  kvNext (kvi_iter (w_iter w)) = (it, ("", list_byte_of_string "v", None)) /\
  Copy_body 1 src w =
  (mkWorld (mkKeyValueIterator it exampleParser None) freshDestination [OnFinish],
   Done tt).
Proof.
  cbv zeta.
  pose (src := exampleSource [row "" "v"; row "a" "x1"] None).
  pose (w := mkWorld (Iterator src) freshDestination ([] : recordingRecorder)).
  assert (Herr : kvi_err (w_iter w) = None) by reflexivity.
  assert (HN : kvNext (kvi_iter (w_iter w))
               = (mkScripted [row "a" "x1"] None 1,
                  ("", list_byte_of_string "v", None))) by reflexivity.
  split; [exact Herr |]. split; [exact HN |].
  exact (proj2 (@X15_empty_key_ends_the_iteration _ _ _ _ _ _ _ src 0 w _ _ Herr HN)).
Defined.

(** X16 at a LevelDB iterator over two entries, after three [Next] calls. *)
Lemma X16_witness :
  let l : entries := ([(list_byte_of_string "a", list_byte_of_string "x1");
                       (list_byte_of_string "?", [])], None) in
  let k := mkKeyValueIterator (mkLevelDBIter l) exampleParser None in
  kvi_err k = None /\
  keyValueIterator_Error
    (Nat.iter 3 (fun j => fst (keyValueIterator_Next j)) k) = None /\
  snd (keyValueIterator_Close
         (Nat.iter 3 (fun j => fst (keyValueIterator_Next j)) k)) = None.
Proof.
  cbv zeta.
  pose (k := mkKeyValueIterator
               (mkLevelDBIter
                  (([(list_byte_of_string "a", list_byte_of_string "x1");
                     (list_byte_of_string "?", [])], None) : entries))
               exampleParser None).
  assert (Herr : kvi_err k = None) by reflexivity.
  split; [exact Herr |].
  exact (@X16_levelDB_never_records_an_error _ _ _ k 3 Herr).
Defined.

(** X17 at a database whose first entry has the empty key. *)
Lemma X17_witness :
  let l : entries := ([([], list_byte_of_string "v");
                       (list_byte_of_string "a", list_byte_of_string "x1")], None) in
  let it : entries := ([(list_byte_of_string "a", list_byte_of_string "x1")],
                       Some ([], list_byte_of_string "v")) in
  let k := mkKeyValueIterator (mkLevelDBIter l) exampleParser None in
  kvi_err k = None /\
  ldbNext (ldi_iter (kvi_iter k)) = (it, true) /\
  ldbKey it = [] /\
  keyValueIterator_Next k =
  (mkKeyValueIterator (mkLevelDBIter it) exampleParser None, (None, None)).
Proof.
  cbv zeta.
  pose (it := (([(list_byte_of_string "a", list_byte_of_string "x1")],
                Some ([], list_byte_of_string "v")) : entries)).
  pose (k := mkKeyValueIterator
               (mkLevelDBIter
                  (([([], list_byte_of_string "v");
                     (list_byte_of_string "a", list_byte_of_string "x1")], None)
                   : entries))
               exampleParser None).
  assert (Herr : kvi_err k = None) by reflexivity.
  assert (HN : ldbNext (ldi_iter (kvi_iter k)) = (it, true)) by reflexivity.
  assert (Hkey : ldbKey it = []) by reflexivity.
  split; [exact Herr |]. split; [exact HN |]. split; [exact Hkey |].
  exact (@X17_levelDB_empty_key_entry_ends_the_iteration _ _ _ k it Herr HN Hkey).
Defined.

(** X20 at a server whose first page is empty with the cursor 7. *)
Lemma X20_witness :
  let ss := serverSource_Iterator (mkServerSource emptyPageClient) in
  ski_err ss = None /\
  ski_finished ss = false /\
  (List.length (ski_keys ss) <= ski_idx ss)%nat /\
  cl_Scan (ski_s ss) (ski_cursor ss) = ([], 7%N, None) /\
  (@None redisError <> None \/ @nil string = []) /\
  exists ss',
    serverKeyIterator_Next ss = (ss', (None, None)) /\
    serverKeyIterator_Error ss' = replyError None /\
    forall n : nat,
      serverKeyIterator_Next
        (Nat.iter n (fun j => fst (serverKeyIterator_Next j)) ss')
      = (ss', (None, None)).
Proof.
  cbv zeta.
  pose (ss := serverSource_Iterator (mkServerSource emptyPageClient)).
  assert (Herr : ski_err ss = None) by reflexivity.
  assert (Hfin : ski_finished ss = false) by reflexivity.
  assert (Hidx : (List.length (ski_keys ss) <= ski_idx ss)%nat) by (cbn; lia).
  assert (Hscan : cl_Scan (ski_s ss) (ski_cursor ss) = ([], 7%N, None)) by reflexivity.
  assert (Hend : @None redisError <> None \/ @nil string = []) by (right; reflexivity).
  split; [exact Herr |]. split; [exact Hfin |]. split; [exact Hidx |].
  split; [exact Hscan |]. split; [exact Hend |].
  exact (@X20_scan_failure_or_empty_page_ends_the_iteration _ ss [] 7%N None
           Herr Hfin Hidx Hscan Hend).
Defined.

(** X21 at the page of the example server. *)
Lemma X21_witness :
  let ss := serverSource_Iterator (mkServerSource exampleClient) in
  ski_err ss = None /\
  ski_finished ss = false /\
  (List.length (ski_keys ss) <= ski_idx ss)%nat /\
  cl_Scan (ski_s ss) (ski_cursor ss) = (["a"; "b"], 0%N, None) /\
  ["a"; "b"] <> [] /\
  let page := map (newServerSourceKey (ski_s ss)) ["a"; "b"] in
  drain 2 ss =
  (mkServerKeyIterator (ski_s ss) None 0%N true page 2, page) /\
  map Key page = ["a"; "b"].
Proof.
  cbv zeta.
  pose (ss := serverSource_Iterator (mkServerSource exampleClient)).
  assert (Herr : ski_err ss = None) by reflexivity.
  assert (Hfin : ski_finished ss = false) by reflexivity.
  assert (Hidx : (List.length (ski_keys ss) <= ski_idx ss)%nat) by (cbn; lia).
  assert (Hscan : cl_Scan (ski_s ss) (ski_cursor ss) = (["a"; "b"], 0%N, None))
    by reflexivity.
  assert (Hne : ["a"; "b"] <> []) by discriminate.
  split; [exact Herr |]. split; [exact Hfin |]. split; [exact Hidx |].
  split; [exact Hscan |]. split; [exact Hne |].
  exact (@X21_page_is_yielded_in_order _ ss ["a"; "b"] 0%N
           Herr Hfin Hidx Hscan Hne).
Defined.

(** X23 at a run on a destination that refuses every write. *)
Lemma X23_witness :
  let src := exampleSource [row "z" "m1"] None in
  let dst := mkRecording refusing [] in
  let logged := Copy 2 src dst ([] : recordingRecorder) in
  ~ Exists nilReport (w_rec (fst logged)) /\
  Copy 2 src dst (mkStd "" "") =
  (mkWorld (w_iter (fst logged)) (w_dst (fst logged))
           (replay (w_rec (fst logged)) (mkStd "" "")),
   snd logged).
Proof.
  cbv zeta.
  assert (Hnil : ~ Exists nilReport
                   (w_rec (fst (Copy 2 (exampleSource [row "z" "m1"] None)
                                     (mkRecording refusing [])
                                     ([] : recordingRecorder))))).
  { intros H. vm_compute in H.
    repeat (apply Exists_cons in H; destruct H as [H | H]; [exact H |]).
    inversion H. }
  split; [exact Hnil |].
  exact (@X23_standard_recorder_receives_the_recorded_calls _ _ _ _ _ _ _ _ 2
           (exampleSource [row "z" "m1"] None) (mkRecording refusing [])
           (mkStd "" "") Hnil).
Defined.

(** X24 at a [Key] call and [Finish]. *)
Lemma X24_witness :
  let l := [OnKey "string" "a" []; OnFinish] in
  ~ Exists nilReport l /\
  replay l (mkStd "" "") = mkStd "" ("" ++ lines l).
Proof.
  cbv zeta.
  assert (Hnil : ~ Exists nilReport [OnKey "string" "a" []; OnFinish]).
  { intros H.
    repeat (apply Exists_cons in H; destruct H as [H | H]; [exact H |]).
    inversion H. }
  split; [exact Hnil |].
  exact (@X24_standard_recorder_writes_the_lines _
           [OnKey "string" "a" []; OnFinish] "" Hnil).
Defined.

(** X25 at one pair and an unpaired value. *)
Lemma X25_witness :
  let kvs := [anyString "key"; anyString "a"] in
  Nat.even (List.length kvs) = true /\
  stdCopyRecorder_Error (mkStd "" "") "failed" (Some "full") (kvs ++ [anyString "type"])
  = stdCopyRecorder_Error (mkStd "" "") "failed" (Some "full") kvs.
Proof.
  cbv zeta.
  assert (Heven : Nat.even (List.length [anyString "key"; anyString "a"]) = true)
    by reflexivity.
  split; [exact Heven |].
  exact (@X25_unpaired_context_value_is_dropped _ (mkStd "" "") "failed" "full"
           [anyString "key"; anyString "a"] (anyString "type") Heven).
Defined.
